(** * aiologger: stream handler life cycle and logger dispatch

    A shallow embedding of [aiologger/handlers/streams.py]
    ([AsyncStreamHandler]) together with the part of the logger that the
    test-suite [tests/test_logger.py] exercises.

    Coroutines are written in a small free monad whose operations are the
    calls the Python code makes on its collaborators (the event loop, the
    [StreamWriter], the [asyncio.Lock], the formatter, the error hook) and
    on the attributes of [self].  The same coroutine text is given two
    semantics: a sequential one ([run], a single caller awaiting the
    coroutine to completion) and a cooperative one ([exec], many tasks on
    one event loop that hand over control only at an [await] that really
    suspends). *)

From Stdlib Require Import Strings.String Strings.Byte.
From stdpp Require Import base option list.

Set Default Proof Using "Type".
Open Scope string_scope.
Open Scope list_scope.

(** ** Exceptions and outcomes *)

(** The exceptions that can travel through the modelled code. *)
Inductive Exc : Type :=
| AttributeError            (* attribute access on [None] *)
| NoHandlersFound           (* raised by the logger's dispatch *)
| External (code : nat).    (* raised by a collaborator: OSError, ValueError, ... *)

Global Instance Exc_eq_dec : EqDecision Exc.
Proof. solve_decision. Defined.

(** How a call ends: it returns a value or raises. *)
Inductive Outcome (A : Type) : Type :=
| Returned (a : A)
| Raised (e : Exc).
Arguments Returned {A} a.
Arguments Raised {A} e.

(** ** Coroutines *)

Section Coroutines.
Context {Op : Type} {Resp : Op -> Type}.

(** A coroutine either returned, raised, or is about to perform the
    call [o] and continue with its result. *)
Inductive Coro (A : Type) : Type :=
| Ret (a : A)
| Raise (e : Exc)
| Call (o : Op) (k : Resp o -> Coro A).
Global Arguments Ret {A} a.
Global Arguments Raise {A} e.
Global Arguments Call {A} o k.

Fixpoint bind {A B} (p : Coro A) (f : A -> Coro B) : Coro B :=
  match p with
  | Ret a => f a
  | Raise e => Raise e
  | Call o k => Call o (fun r => bind (k r) f)
  end.

(** [try: p except Exception as exc: h exc] *)
Fixpoint try_except {A} (p : Coro A) (h : Exc -> Coro A) : Coro A :=
  match p with
  | Ret a => Ret a
  | Raise e => h e
  | Call o k => Call o (fun r => try_except (k r) h)
  end.

(** [try: p finally: c] *)
Fixpoint try_finally {A} (p : Coro A) (c : Coro unit) : Coro A :=
  match p with
  | Ret a => bind c (fun _ => Ret a)
  | Raise e => bind c (fun _ => Raise e)
  | Call o k => Call o (fun r => try_finally (k r) c)
  end.

(** A single call whose result is passed on. *)
Definition call (o : Op) : Coro (Resp o) := Call o Ret.

(** A call that may raise: the exception is re-raised in the caller. *)
Definition lift {A} (p : Coro (Exc + A)) : Coro A :=
  bind p (fun r => match r with inl e => Raise e | inr a => Ret a end).

Definition finished {A} (p : Coro A) : bool :=
  match p with Call _ _ => false | _ => true end.

(** *** The machine the coroutines run on *)

Context {S : Type}.
(** [perform o s]: the effect and result of call [o] in state [s];
    [None] when the call cannot complete in [s] (a lock that is held). *)
Variable perform : forall o : Op, S -> option (S * Resp o).
(** [yields o s]: the call hands control back to the event loop before
    it completes. *)
Variable yields : Op -> S -> bool.

(** Sequential semantics: one caller, every [await] is waited for. *)
Fixpoint run {A} (p : Coro A) (s : S) : option (S * Outcome A) :=
  match p with
  | Ret a => Some (s, Returned a)
  | Raise e => Some (s, Raised e)
  | Call o k =>
      match perform o s with
      | Some (s', r) => run (k r) s'
      | None => None
      end
  end.

(** Run until the next call that suspends (or to the end). *)
Fixpoint advance {A} (p : Coro A) (s : S) : S * Coro A :=
  match p with
  | Call o k =>
      if yields o s then (s, p)
      else match perform o s with
           | Some (s', r) => advance (k r) s'
           | None => (s, p)
           end
  | _ => (s, p)
  end.

(** Resume a task: the call it is parked at completes (if it can), and
    the task runs on to its next suspension. *)
Definition resume {A} (p : Coro A) (s : S) : S * Coro A :=
  match p with
  | Call o k =>
      match perform o s with
      | Some (s', r) => advance (k r) s'
      | None => (s, p)
      end
  | _ => (s, p)
  end.

(** [n] turns in a row of one task. *)
Fixpoint turns {A} (n : nat) (p : Coro A) (s : S) : S * Coro A :=
  match n with
  | 0 => (s, p)
  | Datatypes.S n => let '(s', p') := resume p s in turns n p' s'
  end.

(** The event loop: shared state and the pool of tasks. *)
Record Loop (A : Type) : Type := MkLoop { shared : S; pool : list (Coro A) }.
Global Arguments MkLoop {A} shared pool.
Global Arguments shared {A} l.
Global Arguments pool {A} l.

(** The loop gives task [i] its turn. *)
Definition turn {A} (l : Loop A) (i : nat) : Loop A :=
  match pool l !! i with
  | Some p =>
      let '(s', p') := resume p (shared l) in
      MkLoop s' (<[i := p']> (pool l))
  | None => l
  end.

Definition exec {A} (schedule : list nat) (l : Loop A) : Loop A :=
  foldl turn l schedule.

Definition all_finished {A} (l : Loop A) : bool :=
  forallb finished (pool l).

(** The task a call leaves behind once it has ended. *)
Definition ended {A} (out : Outcome A) : Coro A :=
  match out with
  | Returned a => Ret a
  | Raised e => Raise e
  end.
End Coroutines.

Arguments Coro Op Resp A : clear implicits.

(** ** Log records *)

(** Severities, with the numeric values the tests use
    ([logging.DEBUG] ... [logging.CRITICAL]). *)
Module LogLevel.
Definition NOTSET : nat := 0.
Definition DEBUG : nat := 10.
Definition INFO : nat := 20.
Definition WARNING : nat := 30.
Definition ERROR : nat := 40.
Definition CRITICAL : nat := 50.
End LogLevel.

(** [LogRecord(level, name, pathname, lineno, msg, exc_info, args)] as
    the tests construct it; a record is a value, nothing updates one. *)
Record LogRecord : Type := MkLogRecord {
  levelno : nat;
  name : string;
  pathname : string;
  lineno : nat;
  msg : string;
  args : option (list string);
  exc_info : option (string * string * string)
}.

(** ** The stream handler ([aiologger/handlers/streams.py]) *)

Module AsyncStreamHandler.

(** A [StreamWriter] (with the transport it wraps) is known by the
    identity the event loop gave it. *)
Definition Writer : Type := nat.

(** [str.encode()]: a [string] holds the UTF-8 bytes of the text. *)
Definition encode (s : string) : list byte := list_byte_of_string s.

(** [terminator = "\n"] *)
Definition terminator : string := String (Ascii.ascii_of_nat 10) EmptyString.

(** The calls the handler makes on its collaborators, in the order they
    happen, each with how it ended. *)
Inductive Event : Type :=
| EConnect (res : Exc + Writer)      (* loop.connect_write_pipe(protocol_class, stream) *)
| EWrite (w : Writer) (data : list byte) (res : Exc + unit)   (* w.write(data) *)
| EDrain (w : Writer) (res : Exc + unit)                      (* await w.drain() *)
| EClose (w : Writer) (res : Exc + unit)                      (* w.close() *)
| EHandleError (r : LogRecord) (e : Exc).                     (* await self.handle_error(r, e) *)

(** The collaborators.  What a call answers may depend on everything
    that happened before; the formatter is a function of the record. *)
Record Env : Type := MkEnv {
  connect_write_pipe : list Event -> Exc + Writer;
  format : LogRecord -> Exc + string;
  writer_write : list Event -> Writer -> list byte -> Exc + unit;
  writer_drain : list Event -> Writer -> Exc + unit;
  writer_close : list Event -> Writer -> Exc + unit
}.

(** The attributes of [self] that the code reads and assigns
    ([self.writer], [self._initialization_lock]) and the history of
    calls on the collaborators. *)
Record State : Type := MkState {
  writer : option Writer;
  locked : bool;
  trace : list Event
}.

(** [AsyncStreamHandler(...)]: [self.writer = None], a fresh lock. *)
Definition init : State := MkState None false [].

(** What a coroutine of the handler can do in one step: read or assign
    an attribute of [self], or call a collaborator. *)
Inductive Op : Type :=
| GetWriter                          (* read self.writer *)
| SetWriter (w : option Writer)      (* self.writer = w *)
| LockAcquire                        (* self._initialization_lock.__aenter__() *)
| LockRelease                        (* self._initialization_lock.__aexit__() *)
| ConnectWritePipe                   (* await self.loop.connect_write_pipe(...) *)
| Format (r : LogRecord)             (* self.formatter.format(r) *)
| Write (w : Writer) (data : list byte)   (* w.write(data) *)
| Drain (w : Writer)                 (* await w.drain() *)
| CloseWriter (w : Writer)           (* w.close() *)
| HandleError (r : LogRecord) (e : Exc).  (* await self.handle_error(r, e) *)

Definition Resp (o : Op) : Type :=
  match o with
  | GetWriter => option Writer
  | SetWriter _ | LockAcquire | LockRelease | HandleError _ _ => unit
  | ConnectWritePipe => (Exc + Writer)%type
  | Format _ => (Exc + string)%type
  | Write _ _ | Drain _ | CloseWriter _ => (Exc + unit)%type
  end.

Definition note (ev : Event) (s : State) : State :=
  MkState (writer s) (locked s) (trace s ++ [ev]).

(** Modelled from the spec: [Handler.handle_error(record, failure)], the
    error hook the handler inherits from [aiologger/handlers/base.py],
    which is not at hand: "writes a best-effort diagnostic line to a
    fallback stream; never raises".  The call is recorded and returns. *)
Definition handle_error (r : LogRecord) (e : Exc) (s : State)
    : State * unit :=
  (note (EHandleError r e) s, tt).

Section Machine.
Variable env : Env.

(** The effect and the result of one step.  Every call on a
    collaborator is recorded with its answer; a lock that is held
    cannot be acquired. *)
Definition perform (o : Op) (s : State) : option (State * Resp o) :=
  match o return option (State * Resp o) with
  | GetWriter => Some (s, writer s)
  | SetWriter w => Some (MkState w (locked s) (trace s), tt)
  | LockAcquire =>
      if locked s then None
      else Some (MkState (writer s) true (trace s), tt)
  | LockRelease => Some (MkState (writer s) false (trace s), tt)
  | ConnectWritePipe =>
      let res := connect_write_pipe env (trace s) in
      Some (note (EConnect res) s, res)
  | Format r => Some (s, format env r)
  | Write w data =>
      let res := writer_write env (trace s) w data in
      Some (note (EWrite w data res) s, res)
  | Drain w =>
      let res := writer_drain env (trace s) w in
      Some (note (EDrain w res) s, res)
  | CloseWriter w =>
      let res := writer_close env (trace s) w in
      Some (note (EClose w res) s, res)
  | HandleError r e => Some (handle_error r e s)
  end.
End Machine.

(** Where a coroutine really suspends: acquiring the pipe, draining,
    the error hook, and the lock when somebody else holds it. *)
Definition yields (o : Op) (s : State) : bool :=
  match o with
  | ConnectWritePipe | Drain _ | HandleError _ _ => true
  | LockAcquire => locked s
  | _ => false
  end.

Definition Co : Type -> Type := Coro Op Resp.

Global Instance Co_ret : MRet Co := fun _ a => Ret a.
Global Instance Co_bind : MBind Co := fun _ _ f p => bind p f.

(** [self.writer.m(...)]: the attribute lookup fails on [None]. *)
Definition on_writer {A} (m : Writer -> Co A) : Co A :=
  w ← call GetWriter;
  match w with
  | Some w => m w
  | None => Raise AttributeError
  end.

(** [async with self._initialization_lock: body] *)
Definition with_lock {A} (body : Co A) : Co A :=
  call LockAcquire;;
  try_finally body (call LockRelease).

(** <<
    @property
    def initialized(self):
        return self.writer is not None
    >> *)
Definition initialized : Co bool :=
  w ← call GetWriter;
  mret (bool_decide (w ≠ None)).

(** <<
    async def _init_writer(self):
        async with self._initialization_lock:
            transport, protocol = await self.loop.connect_write_pipe(
                self.protocol_class, self.stream)
            self.writer = StreamWriter(transport=transport, ...)
    >> *)
Definition _init_writer : Co unit :=
  with_lock (
    w ← lift (call ConnectWritePipe);
    call (SetWriter (Some w))).

(** <<
    async def flush(self):
        await self.writer.drain()
    >> *)
Definition flush : Co unit :=
  on_writer (fun w => lift (call (Drain w))).

(** The [try] statement of [emit]:
    <<
        try:
            msg = self.formatter.format(record) + self.terminator
            self.writer.write(msg.encode())
            await self.writer.drain()
        except Exception as exc:
            await self.handle_error(record, exc)
    >> *)
Definition emit_try (record : LogRecord) : Co unit :=
  try_except
    (text ← lift (call (Format record));
     let msg := (text ++ terminator)%string in
     on_writer (fun w => lift (call (Write w (encode msg))));;
     on_writer (fun w => lift (call (Drain w))))
    (fun exc => call (HandleError record exc)).

(** <<
    async def emit(self, record):
        if not self.initialized:
            await self._init_writer()
        try:
            ...
        except Exception as exc:
            await self.handle_error(record, exc)
    >> *)
Definition emit (record : LogRecord) : Co unit :=
  ini ← initialized;
  (if negb ini then _init_writer else mret tt);;
  emit_try record.

(** <<
    async def close(self):
        if not self.initialized:
            return
        await self.flush()
        self.writer.close()
        self.writer = None
    >> *)
Definition close : Co unit :=
  ini ← initialized;
  if negb ini then mret tt
  else
    flush;;
    on_writer (fun w => lift (call (CloseWriter w)));;
    call (SetWriter None).

(** *** What a trace says *)

Definition is_connect (ev : Event) : bool :=
  match ev with EConnect _ => true | _ => false end.
Definition is_release (ev : Event) : bool :=
  match ev with EClose _ _ => true | _ => false end.

(** How many times the pipe was asked for. *)
Definition acquisitions (tr : list Event) : nat :=
  length (List.filter is_connect tr).
(** How many times a writer was released. *)
Definition releases (tr : list Event) : nat :=
  length (List.filter is_release tr).

(** The bytes that [write] calls accepted, in the order of the calls,
    whichever writer they were made on.  In a run in which every write
    goes to one writer this is what the sink behind that writer
    received; where several writers were acquired, [handed] and
    [written_to] tell them apart. *)
Fixpoint written (tr : list Event) : list byte :=
  match tr with
  | [] => []
  | EWrite _ data (inr _) :: tr => data ++ written tr
  | _ :: tr => written tr
  end.

(** The writes that were accepted, each with the writer it was made
    on, in the order of the calls. *)
Fixpoint handed (tr : list Event) : list (Writer * list byte) :=
  match tr with
  | [] => []
  | EWrite w data (inr _) :: tr => (w, data) :: handed tr
  | _ :: tr => handed tr
  end.

(** The bytes writer [w] was handed, in the order of the calls. *)
Definition written_to (w : Writer) (tr : list Event) : list byte :=
  concat ((fun p => if decide (p.1 = w) then p.2 else []) <$> handed tr).

(** The bytes handed to writer [w] that no completed [drain] of [w]
    has seen delivered yet, starting from the buffer [buf].  (The
    contract of [StreamWriter.drain] in the words of the specification:
    a drain that returns has waited "until all bytes previously handed
    to the writer have been delivered to the sink".) *)
Fixpoint pending (w : Writer) (buf : list byte) (tr : list Event) : list byte :=
  match tr with
  | [] => buf
  | EWrite w' data (inr _) :: tr =>
      pending w (if decide (w' = w) then buf ++ data else buf) tr
  | EDrain w' (inr _) :: tr =>
      pending w (if decide (w' = w) then [] else buf) tr
  | _ :: tr => pending w buf tr
  end.

(** *** Callers and collaborators used in the statements *)

(** [for _ in range(n): await handler.close()] *)
Fixpoint closes (n : nat) : Co unit :=
  match n with
  | 0 => mret tt
  | S n => close;; closes n
  end.

Definition result_outcome {A} (res : Exc + A) : Outcome A :=
  match res with inl e => Raised e | inr a => Returned a end.

(** Modelled from the spec: the collaborators that are not part of the
    handler ([format(record) -> text], [acquire() -> writable sink],
    the writer), in the case where none of them fails: the formatter
    renders the record's message, every acquisition yields a writer
    not seen before, writes, drains and releases succeed. *)
Definition ok_env : Env :=
  MkEnv (fun tr => inr (acquisitions tr))
        (fun r => inr (msg r))
        (fun _ _ _ => inr tt)
        (fun _ _ => inr tt)
        (fun _ _ => inr tt).

(** Collaborators of which the pipe cannot be acquired: every
    [connect_write_pipe] raises [e]; the rest is as in [ok_env]. *)
Definition refusing_env (e : Exc) : Env :=
  MkEnv (fun _ => inl e)
        (format ok_env)
        (writer_write ok_env)
        (writer_drain ok_env)
        (writer_close ok_env).

(** Collaborators whose stream is gone once a writer was closed:
    [writer.close()] closes the transport and with it the stream under
    it, and [connect_write_pipe] on a closed stream raises ([ValueError],
    here [External 9]); the rest is as in [ok_env]. *)
Definition closed_stream_env : Env :=
  MkEnv (fun tr => if decide (releases tr = 0) then inr (acquisitions tr)
                   else inl (External 9))
        (format ok_env)
        (writer_write ok_env)
        (writer_drain ok_env)
        (writer_close ok_env).

(** The record of the tests. *)
Definition xablau : LogRecord :=
  MkLogRecord 20 "aiologger" "/aiologger/tests/test_logger.py" 17
              "Xablau" None None.

(** The collaborators as they answer once [pre] has happened. *)
Definition shift (pre : list Event) (env : Env) : Env :=
  MkEnv (fun tr => connect_write_pipe env (pre ++ tr))
        (format env)
        (fun tr => writer_write env (pre ++ tr))
        (fun tr => writer_drain env (pre ++ tr))
        (fun tr => writer_close env (pre ++ tr)).

(** The same state with [pre] having happened before. *)
Definition after (pre : list Event) (s : State) : State :=
  MkState (writer s) (locked s) (pre ++ trace s).

(** *** The places where an [emit] task can be parked

    A task that runs [emit record] is, between two turns, either not yet
    started, or parked in front of one of the awaits of [emit] and
    [_init_writer], or finished.  [task_of] gives the coroutine that is
    left to run at each place. *)
Inductive Stage : Type :=
| Fresh                       (* created, no turn yet *)
| AtLock                      (* waiting for self._initialization_lock *)
| AtConnect                   (* holding the lock, in connect_write_pipe *)
| AtDrain (w : Writer)        (* in w.drain(), the line was written *)
| AtHook (e : Exc)            (* in self.handle_error(record, e) *)
| Done (out : Outcome unit).

(** Inside the lock, in front of [connect_write_pipe]. *)
Definition connecting : Co unit :=
  try_finally
    (w ← lift (call ConnectWritePipe); call (SetWriter (Some w)))
    (call LockRelease).

(** Inside the [try] block, in front of [w.drain()]. *)
Definition draining (record : LogRecord) (w : Writer) : Co unit :=
  try_except (lift (call (Resp := Resp) (Drain w)))
             (fun exc => call (HandleError record exc)).

Definition task_of (record : LogRecord) (st : Stage) : Co unit :=
  match st with
  | Fresh => emit record
  | AtLock => _init_writer;; emit_try record
  | AtConnect => connecting;; emit_try record
  | AtDrain w => draining record w
  | AtHook e => call (HandleError record e)
  | Done (Returned _) => Ret tt
  | Done (Raised e) => Raise e
  end.

(** The line [emit] hands to the writer for a text. *)
Definition line (text : string) : list byte :=
  encode (text ++ terminator)%string.

(** One turn of a task, told place by place. *)
Definition write_step (env : Env) (record : LogRecord) (w : Writer)
    (s : State) : State * Stage :=
  match format env record with
  | inl e => (s, AtHook e)
  | inr text =>
      let res := writer_write env (trace s) w (line text) in
      let s1 := note (EWrite w (line text) res) s in
      match res with
      | inl e => (s1, AtHook e)
      | inr _ => (s1, AtDrain w)
      end
  end.

Definition stage_step (env : Env) (record : LogRecord) (st : Stage)
    (s : State) : State * Stage :=
  match st with
  | Fresh =>
      match writer s with
      | Some w => write_step env record w s
      | None =>
          if locked s then (s, AtLock)
          else (MkState (writer s) true (trace s), AtConnect)
      end
  | AtLock =>
      if locked s then (s, AtLock)
      else (MkState (writer s) true (trace s), AtConnect)
  | AtConnect =>
      let res := connect_write_pipe env (trace s) in
      let tr1 := trace s ++ [EConnect res] in
      match res with
      | inl e => (MkState (writer s) false tr1, Done (Raised e))
      | inr w => write_step env record w (MkState (Some w) false tr1)
      end
  | AtDrain w =>
      let res := writer_drain env (trace s) w in
      let s1 := note (EDrain w res) s in
      match res with
      | inl e => (s1, AtHook e)
      | inr _ => (s1, Done (Returned tt))
      end
  | AtHook e => (note (EHandleError record e) s, Done (Returned tt))
  | Done out => (s, Done out)
  end.

(** A pool of [emit] tasks, each known by its record and its place. *)
Definition tasks (ps : list (LogRecord * Stage)) : list (Co unit) :=
  (fun p => task_of p.1 p.2) <$> ps.

Definition stage_turn (env : Env) (c : State * list (LogRecord * Stage))
    (i : nat) : State * list (LogRecord * Stage) :=
  match c.2 !! i with
  | Some (r, st) =>
      let '(s', st') := stage_step env r st c.1 in
      (s', <[i := (r, st')]> c.2)
  | None => c
  end.

(** Collaborators none of whose calls fails. *)
Definition reliable (env : Env) : Prop :=
  (forall tr, exists w, connect_write_pipe env tr = inr w)
  /\ (forall tr w data, writer_write env tr w data = inr tt)
  /\ (forall tr w, writer_drain env tr w = inr tt).

(** The task has left [_init_writer] (or never entered it). *)
Definition past_init (st : Stage) : bool :=
  match st with
  | Fresh | AtLock | AtConnect => false
  | _ => true
  end.

(** How many tasks of a pool are at a place counted by [f]. *)
Definition count (f : Stage -> nat) (ps : list (LogRecord * Stage)) : nat :=
  sum_list_with (fun p => f p.2) ps.

Definition at_connect (st : Stage) : nat :=
  match st with AtConnect => 1 | _ => 0 end.

Definition left_init (st : Stage) : nat :=
  if past_init st then 1 else 0.

(** Tasks that start on a handler without a writer, while the first [j]
    of them have had their first turn and none has got its pipe: those
    that started are in [_init_writer], one of them holding the lock
    ([a]: the acquisitions before the tasks were created). *)
Definition starting_inv (a j : nat) (s : State)
    (ps : list (LogRecord * Stage)) : Prop :=
  writer s = None
  /\ acquisitions (trace s) = a
  /\ (forall i p, ps !! i = Some p ->
        if bool_decide (i < j) then p.2 = AtLock \/ p.2 = AtConnect
        else p.2 = Fresh)
  /\ count at_connect ps = if locked s then 1 else 0.

(** Once every task has started: the lock is held exactly when one task
    is in front of [connect_write_pipe], and every task that has left
    [_init_writer] has asked for the pipe, once. *)
Definition racing_inv (a : nat) (s : State)
    (ps : list (LogRecord * Stage)) : Prop :=
  Forall (fun p => p.2 <> Fresh) ps
  /\ count at_connect ps = (if locked s then 1 else 0)
  /\ acquisitions (trace s) = a + count left_init ps.

(** The task has handed over its line. *)
Definition wrote (st : Stage) : bool :=
  match st with
  | AtDrain _ | Done (Returned _) => true
  | _ => false
  end.

(** Two tasks on a handler that has writer [w], the first having had
    its first turn before the second ([H]: the writes accepted before
    the two started, [l1] and [l2]: the lines of the two records): the
    first has handed its line to [w]; the second has not started, or it
    has handed its line to [w] after that. *)
Definition ordered_inv (w : Writer) (H : list (Writer * list byte))
    (l1 l2 : list byte) (s : State) (st0 st1 : Stage) : Prop :=
  writer s = Some w
  /\ wrote st0 = true
  /\ ((st1 = Fresh /\ handed (trace s) = H ++ [(w, l1)])
      \/ (wrote st1 = true /\ handed (trace s) = H ++ [(w, l1); (w, l2)])).

(** Two tasks on a handler without a writer that both had their first
    turn before the pipe was connected ([tr0]: the history before the
    two started).  The first holds the lock and the second waits; once
    the first has its writer [w1] and has handed it its line, the second
    gets the lock, acquires a writer [w2] of its own, which replaces
    [w1], and hands its line to [w2]. *)
Definition racing_inv2 (env : Env) (tr0 : list Event) (l1 l2 : list byte)
    (s : State) (st0 st1 : Stage) : Prop :=
  (st0 = AtConnect /\ st1 = AtLock
   /\ writer s = None /\ locked s = true /\ trace s = tr0)
  \/ (wrote st0 = true
      /\ exists w1,
          connect_write_pipe env tr0 = inr w1
          /\ ((st1 = AtLock /\ locked s = false
               /\ handed (trace s) = handed tr0 ++ [(w1, l1)]
               /\ acquisitions (trace s) = acquisitions tr0 + 1)
              \/ (st1 = AtConnect /\ locked s = true
                  /\ handed (trace s) = handed tr0 ++ [(w1, l1)]
                  /\ acquisitions (trace s) = acquisitions tr0 + 1)
              \/ (wrote st1 = true
                  /\ exists w2,
                      writer s = Some w2
                      /\ handed (trace s) = handed tr0 ++ [(w1, l1); (w2, l2)]
                      /\ acquisitions (trace s) = acquisitions tr0 + 2))).

(** [asyncio.gather(handler.emit(r1), handler.emit(r2), ...)] on a
    handler in state [s]: one task per record, none started yet. *)
Definition gather (s : State) (records : list LogRecord) : Loop (S := State) unit :=
  MkLoop s (emit <$> records).

(** Records that differ in their message only. *)
Definition record_of (text : string) : LogRecord :=
  MkLogRecord 20 "aiologger" "/aiologger/tests/test_logger.py" 17
              text None None.

(** *** One caller, many calls *)

(** [for record in records: await handler.emit(record)] *)
Fixpoint emits (records : list LogRecord) : Co unit :=
  match records with
  | [] => mret tt
  | r :: records => emit r;; emits records
  end.

(** The coroutines of the handler that a caller awaits. *)
Inductive Request : Type :=
| DoEmit (r : LogRecord)      (* await handler.emit(r) *)
| DoFlush                     (* await handler.flush() *)
| DoClose.                    (* await handler.close() *)

Definition serve (q : Request) : Co unit :=
  match q with
  | DoEmit r => emit r
  | DoFlush => flush
  | DoClose => close
  end.

(** A caller that goes on whatever a call ends in:
    <<
        try:
            await call
        except Exception:
            pass
    >> *)
Definition attempt (q : Request) : Co unit :=
  try_except (serve q) (fun _ => mret tt).

Fixpoint session (qs : list Request) : Co unit :=
  match qs with
  | [] => mret tt
  | q :: qs => attempt q;; session qs
  end.

(** *** More of what a trace says *)

Definition is_acquired (ev : Event) : bool :=
  match ev with EConnect (inr _) => true | _ => false end.
Definition is_released (ev : Event) : bool :=
  match ev with EClose _ (inr _) => true | _ => false end.
Definition is_hook (ev : Event) : bool :=
  match ev with EHandleError _ _ => true | _ => false end.

(** How many writers the loop handed out. *)
Definition acquired (tr : list Event) : nat :=
  length (List.filter is_acquired tr).
(** How many writers were closed, the [close()] returning. *)
Definition released (tr : list Event) : nat :=
  length (List.filter is_released tr).
(** How many times the error hook was called. *)
Definition hooks (tr : list Event) : nat :=
  length (List.filter is_hook tr).

(** The call was made on writer [w] or on the error hook. *)
Definition on_writer_only (w : Writer) (ev : Event) : bool :=
  match ev with
  | EWrite w' _ _ | EDrain w' _ => bool_decide (w' = w)
  | EHandleError _ _ => true
  | EConnect _ | EClose _ _ => false
  end.

(** The writers [self.writer] refers to: one or none. *)
Definition held (wr : option Writer) : nat :=
  match wr with Some _ => 1 | None => 0 end.

(** The writer [self.writer] refers to after the calls [evs], having
    referred to [wr] before them: the one of the last acquisition,
    unless a writer was closed since. *)
Definition current (wr : option Writer) (evs : list Event) : option Writer :=
  foldl (fun wr ev =>
           match ev with
           | EConnect (inr w) => Some w
           | EClose _ (inr _) => None
           | _ => wr
           end) wr evs.

(** *** Reading the stream back *)

(** [StreamReader.readline()], as the tests read what was logged, on
    the bytes [buf] that the stream holds: the bytes up to and
    including the first line feed (all of them when there is none), and
    what is left for the next call. *)
Fixpoint readline (buf : list byte) : list byte * list byte :=
  match buf with
  | [] => ([], [])
  | b :: buf =>
      if Byte.eqb b "010"%byte then ([b], buf)
      else let '(l, rest) := readline buf in (b :: l, rest)
  end.

(** [[await reader.readline() for _ in range(n)]] *)
Fixpoint readlines (n : nat) (buf : list byte) : list (list byte) * list byte :=
  match n with
  | 0 => ([], buf)
  | S n =>
      let '(l, rest) := readline buf in
      let '(ls, rest') := readlines n rest in
      (l :: ls, rest')
  end.

(** The text has no line feed in it. *)
Definition single_line (text : string) : bool :=
  forallb (fun b => negb (Byte.eqb b "010"%byte)) (encode text).

(** *** More about pools of [emit] tasks *)

(** The task is suspended inside [connect_write_pipe]. *)
Definition in_connect (p : Co unit) : nat :=
  match p with Call ConnectWritePipe _ => 1 | _ => 0 end.

(** The turns a task still needs at most, once it is not kept waiting. *)
Definition rank (st : Stage) : nat :=
  match st with
  | Fresh | AtLock => 4
  | AtConnect => 3
  | AtDrain _ => 2
  | AtHook _ => 1
  | Done _ => 0
  end.

Definition is_done (st : Stage) : nat :=
  match st with Done _ => 1 | _ => 0 end.

(** The places of a task that found a writer when it started. *)
Definition fast_path (st : Stage) : Prop :=
  match st with
  | Fresh | AtDrain _ | AtHook _ | Done (Returned _) => True
  | _ => False
  end.

(** [emit] tasks for [records] on one loop with any other tasks that
    work on the same handler. *)
Definition among (s : State) (records : list LogRecord)
    (others : list (Co unit)) : Loop (S := State) unit :=
  MkLoop s ((emit <$> records) ++ others).

(** The text of the record of task [i] of a pool made for [rs]. *)
Definition text_of (render : LogRecord -> string) (rs : list LogRecord)
    (i : nat) : string :=
  default EmptyString (render <$> rs !! i).

(** The tasks of [order] are those that have handed over their line,
    in the order in which they did, each with the writer it handed it
    to ([H0]: the writes accepted before). *)
Definition written_by (render : LogRecord -> string)
    (H0 : list (Writer * list byte)) (rs : list LogRecord)
    (order : list (nat * Writer)) (s : State)
    (ps : list (LogRecord * Stage)) : Prop :=
  fst <$> ps = rs
  /\ NoDup (fst <$> order)
  /\ (forall i, i ∈ fst <$> order <->
        exists r st, ps !! i = Some (r, st) /\ past_init st = true)
  /\ handed (trace s)
     = H0 ++ ((fun p => (p.2, line (text_of render rs p.1))) <$> order).

(** *** The places where a [close] task can be parked *)

Inductive CloseStage : Type :=
| NotStarted                  (* created, no turn yet *)
| InFlush (w : Writer)        (* in w.drain(), awaited by flush() *)
| Over (out : Outcome unit).

(** [close] from the drain that [flush] awaits. *)
Definition flushing (w : Writer) : Co unit :=
  lift (call (Resp := Resp) (Drain w));;
  on_writer (fun w => lift (call (CloseWriter w)));;
  call (SetWriter None).

Definition close_task_of (st : CloseStage) : Co unit :=
  match st with
  | NotStarted => close
  | InFlush w => flushing w
  | Over (Returned _) => Ret tt
  | Over (Raised e) => Raise e
  end.

(** One turn of a [close] task, told place by place. *)
Definition close_step (env : Env) (st : CloseStage) (s : State)
    : State * CloseStage :=
  match st with
  | NotStarted =>
      match writer s with
      | Some w => (s, InFlush w)
      | None => (s, Over (Returned tt))
      end
  | InFlush w =>
      let res := writer_drain env (trace s) w in
      let s1 := note (EDrain w res) s in
      match res with
      | inl e => (s1, Over (Raised e))
      | inr _ =>
          match writer s1 with
          | None => (s1, Over (Raised AttributeError))
          | Some w' =>
              let res' := writer_close env (trace s1) w' in
              let s2 := note (EClose w' res') s1 in
              match res' with
              | inl e => (s2, Over (Raised e))
              | inr _ => (MkState None (locked s2) (trace s2), Over (Returned tt))
              end
          end
      end
  | Over out => (s, Over out)
  end.

(** The turns a [close] task still needs at most. *)
Definition close_rank (st : CloseStage) : nat :=
  match st with
  | NotStarted => 2
  | InFlush _ => 1
  | Over _ => 0
  end.

Definition close_tasks (ps : list CloseStage) : list (Co unit) :=
  close_task_of <$> ps.

Definition close_turn (env : Env) (c : State * list CloseStage) (i : nat)
    : State * list CloseStage :=
  match c.2 !! i with
  | Some st =>
      let '(s', st') := close_step env st c.1 in
      (s', <[i := st']> c.2)
  | None => c
  end.

(** [asyncio.gather(handler.close(), handler.close(), ...)], [n] calls
    on a handler in state [s], none started yet. *)
Definition closers (s : State) (n : nat) : Loop (S := State) unit :=
  MkLoop s (replicate n close).

(** Once a [close] task has released writer [w0]: that task returned,
    every other one is still in its drain or found the writer gone. *)
Definition one_closed (w0 : Writer) (ps : list CloseStage) : Prop :=
  exists i,
    ps !! i = Some (Over (Returned tt))
    /\ forall j st, j <> i -> ps !! j = Some st ->
         st = InFlush w0 \/ st = Over (Raised AttributeError).

(** [n] [close] tasks that were all suspended in the drain of [w0]
    before any of them went on ([a]: the writers closed before): either
    none has gone on yet, or one has closed [w0]. *)
Definition close_race (w0 : Writer) (a : nat) (s : State)
    (ps : list CloseStage) : Prop :=
  (writer s = Some w0 /\ released (trace s) = a
   /\ Forall (fun st => st = InFlush w0) ps)
  \/ (writer s = None /\ released (trace s) = a + 1 /\ one_closed w0 ps).

(** *** The places where a [flush] task can be parked *)

Inductive FlushStage : Type :=
| Unflushed                   (* created, no turn yet *)
| InDrain (w : Writer)        (* in w.drain() *)
| Flushed (out : Outcome unit).

Definition flush_task_of (st : FlushStage) : Co unit :=
  match st with
  | Unflushed => flush
  | InDrain w => lift (call (Resp := Resp) (Drain w))
  | Flushed (Returned _) => Ret tt
  | Flushed (Raised e) => Raise e
  end.

(** One turn of a [flush] task. *)
Definition flush_step (env : Env) (st : FlushStage) (s : State)
    : State * FlushStage :=
  match st with
  | Unflushed =>
      match writer s with
      | Some w => (s, InDrain w)
      | None => (s, Flushed (Raised AttributeError))
      end
  | InDrain w =>
      let res := writer_drain env (trace s) w in
      (note (EDrain w res) s, Flushed (result_outcome res))
  | Flushed out => (s, Flushed out)
  end.

Definition flush_rank (st : FlushStage) : nat :=
  match st with
  | Unflushed => 2
  | InDrain _ => 1
  | Flushed _ => 0
  end.

(** *** Tasks of the three kinds on one loop *)

(** A task that runs [emit], [flush] or [close], and its place. *)
Inductive Job : Type :=
| EmitJob (r : LogRecord) (st : Stage)
| FlushJob (st : FlushStage)
| CloseJob (st : CloseStage).

Definition job_of (j : Job) : Co unit :=
  match j with
  | EmitJob r st => task_of r st
  | FlushJob st => flush_task_of st
  | CloseJob st => close_task_of st
  end.

Definition job_step (env : Env) (j : Job) (s : State) : State * Job :=
  match j with
  | EmitJob r st => let '(s', st') := stage_step env r st s in (s', EmitJob r st')
  | FlushJob st => let '(s', st') := flush_step env st s in (s', FlushJob st')
  | CloseJob st => let '(s', st') := close_step env st s in (s', CloseJob st')
  end.

(** The task of a call that has not started. *)
Definition start (q : Request) : Job :=
  match q with
  | DoEmit r => EmitJob r Fresh
  | DoFlush => FlushJob Unflushed
  | DoClose => CloseJob NotStarted
  end.

Definition jobs (js : list Job) : list (Co unit) := job_of <$> js.

Definition job_turn (env : Env) (c : State * list Job) (i : nat)
    : State * list Job :=
  match c.2 !! i with
  | Some j =>
      let '(s', j') := job_step env j c.1 in
      (s', <[i := j']> c.2)
  | None => c
  end.

(** [asyncio.gather(...)] of any calls of [emit], [flush] and [close]
    on a handler in state [s], none started yet. *)
Definition serving (s : State) (qs : list Request) : Loop (S := State) unit :=
  MkLoop s (serve <$> qs).

Definition job_rank (j : Job) : nat :=
  match j with
  | EmitJob _ st => rank st
  | FlushJob st => flush_rank st
  | CloseJob st => close_rank st
  end.

Definition job_in_connect (j : Job) : nat :=
  match j with
  | EmitJob _ st => at_connect st
  | _ => 0
  end.

(** The lock is held exactly when one task is in front of
    [connect_write_pipe]. *)
Definition lock_inv (s : State) (js : list Job) : Prop :=
  sum_list_with job_in_connect js = if locked s then 1 else 0.

End AsyncStreamHandler.

(** ** The logger

    [aiologger/logger.py] is known here through [tests/test_logger.py]
    only; what follows is written from the specification of the logger
    and from what the tests set up and assert. *)

Module Logger.

(** Handlers are objects: the logger holds references to them, and the
    same object may be registered more than once. *)
Definition Ref : Type := nat.

(** What the logger asks of a handler object, whatever its class: the
    attributes [level] and [initialized] and the coroutines [handle],
    [flush] and [close], each awaited to its end ([None]: it cannot
    end). *)
Class Handler (H : Type) : Type := MkHandler {
  h_level : H -> nat;
  h_initialized : H -> bool;
  h_handle : LogRecord -> H -> option (H * Outcome unit);
  h_flush : H -> option (H * Outcome unit);
  h_close : H -> option (H * Outcome unit)
}.

(** *** The handlers of the tests: mocks *)

Inductive MockCall : Type :=
| CHandle (r : LogRecord)
| CFlush
| CClose.

(** [Mock(level=..., initialized=..., handle=CoroutineMock(side_effect=...),
    flush=..., close=...)]: the attributes, what each method raises if it
    raises, and the calls received so far. *)
Record Mock : Type := MkMock {
  m_level : nat;
  m_initialized : bool;
  m_handle_effect : option Exc;
  m_flush_effect : option Exc;
  m_close_effect : option Exc;
  m_calls : list MockCall
}.

Definition mock_call (c : MockCall) (effect : option Exc) (m : Mock)
    : option (Mock * Outcome unit) :=
  Some (MkMock (m_level m) (m_initialized m) (m_handle_effect m)
               (m_flush_effect m) (m_close_effect m) (m_calls m ++ [c]),
        match effect with
        | Some e => Raised e
        | None => Returned tt
        end).

Global Instance Mock_handler : Handler Mock := {|
  h_level := m_level;
  h_initialized := m_initialized;
  h_handle r m := mock_call (CHandle r) (m_handle_effect m) m;
  h_flush m := mock_call CFlush (m_flush_effect m) m;
  h_close m := mock_call CClose (m_close_effect m) m
|}.

(** *** The stream handler as a handler of the logger *)

(** [AsyncStreamHandler(stream, level, formatter)]: the threshold given
    to the constructor and the state of the object. *)
Record StreamHandler : Type := MkStreamHandler {
  sh_level : nat;
  sh_state : AsyncStreamHandler.State
}.

Definition on_stream (env : AsyncStreamHandler.Env)
    (p : AsyncStreamHandler.Co unit) (h : StreamHandler)
    : option (StreamHandler * Outcome unit) :=
  (fun '(s, out) => (MkStreamHandler (sh_level h) s, out))
    <$> run (AsyncStreamHandler.perform env) p (sh_state h).

(** No filter is attached to the handler, so [handle(record)] is
    [emit(record)]. *)
Definition Stream_handler (env : AsyncStreamHandler.Env)
    : Handler StreamHandler := {|
  h_level := sh_level;
  h_initialized h := bool_decide (AsyncStreamHandler.writer (sh_state h) ≠ None);
  h_handle r := on_stream env (AsyncStreamHandler.emit r);
  h_flush := on_stream env AsyncStreamHandler.flush;
  h_close := on_stream env AsyncStreamHandler.close
|}.

(** *** The logger object *)

Section WithHandlers.
Context {H : Type} `{HH : Handler H}.

(** Modelled from the spec: the state of a Logger (section 4.2): a
    name, a minimum severity, the enabled/disabled flag, its own
    filters, the ordered collection of handlers, and for the shutdown
    the one-shot guard of each handler ([guards]: the handlers some
    shutdown call has already taken charge of).  [heap] holds the
    handler objects the references point to. *)
Record State : Type := MkState {
  name : string;
  level : nat;
  disabled : bool;
  filters : list (LogRecord -> bool);
  handlers : list Ref;
  guards : list Ref;
  heap : list H
}.

Definition with_heap (hp : list H) (s : State) : State :=
  MkState (name s) (level s) (disabled s) (filters s) (handlers s)
          (guards s) hp.

Definition with_guards (gs : list Ref) (s : State) : State :=
  MkState (name s) (level s) (disabled s) (filters s) (handlers s)
          gs (heap s).

Inductive Op : Type :=
| GetHandlers                          (* self.handlers *)
| Filter (r : LogRecord)               (* self.filter(record) *)
| HandlerLevel (h : Ref)               (* handler.level *)
| HandlerInitialized (h : Ref)         (* handler.initialized *)
| Handle (h : Ref) (r : LogRecord)     (* await handler.handle(record) *)
| Flush (h : Ref)                      (* await handler.flush() *)
| Close (h : Ref)                      (* await handler.close() *)
| Claim (h : Ref).                     (* test and set the guard of handler *)

Definition Resp (o : Op) : Type :=
  match o with
  | GetHandlers => list Ref
  | Filter _ | HandlerInitialized _ | Claim _ => bool
  | HandlerLevel _ => nat
  | Handle _ _ | Flush _ | Close _ => (Exc + unit)%type
  end.

Definition outcome_result {A} (out : Outcome A) : Exc + A :=
  match out with Returned a => inr a | Raised e => inl e end.

(** A method of the handler object behind [h] runs and the object is
    updated in place. *)
Definition on_handler (m : H -> option (H * Outcome unit)) (h : Ref)
    (s : State) : option (State * (Exc + unit)) :=
  obj ← heap s !! h;
  '(obj', out) ← m obj;
  Some (with_heap (<[h := obj']> (heap s)) s, outcome_result out).

Definition perform (o : Op) (s : State) : option (State * Resp o) :=
  match o return option (State * Resp o) with
  | GetHandlers => Some (s, handlers s)
  | Filter r => Some (s, forallb (fun f => f r) (filters s))
  | HandlerLevel h => (fun obj => (s, h_level obj)) <$> heap s !! h
  | HandlerInitialized h => (fun obj => (s, h_initialized obj)) <$> heap s !! h
  | Handle h r => on_handler (h_handle r) h s
  | Flush h => on_handler h_flush h s
  | Close h => on_handler h_close h s
  | Claim h =>
      if bool_decide (h ∈ guards s) then Some (s, false)
      else Some (with_guards (h :: guards s) s, true)
  end.

(** The logger suspends where it awaits a handler. *)
Definition yields (o : Op) (s : State) : bool :=
  match o with
  | Handle _ _ | Flush _ | Close _ => true
  | _ => false
  end.

Definition Co : Type -> Type := Coro Op Resp.

Global Instance Co_ret : MRet Co := fun _ a => Ret a.
Global Instance Co_bind : MBind Co := fun _ _ f p => bind p f.

(** A call of the logger on itself or on one of its handlers. *)
Definition ask (o : Op) : Co (Resp o) := call o.

(** Modelled from the spec: the loop of the dispatch (section 4.2):
    "iterate the registered handlers in registration order and, for each
    whose threshold admits this record's level, invoke emit"; the result
    is the number of handlers that were contacted. *)
Fixpoint dispatch (hs : list Ref) (record : LogRecord) : Co nat :=
  match hs with
  | [] => mret 0
  | h :: hs =>
      threshold ← ask (HandlerLevel h);
      if (threshold <=? levelno record)%nat then
        lift (ask (Handle h record));;
        n ← dispatch hs record;
        mret (S n)
      else dispatch hs record
  end.

(** Modelled from the spec: [call_handlers(record)], the dispatch of an
    admitted record (sections 4.2 and 7): "If no handler's threshold
    admits the record, this is treated as a configuration error and is
    signaled distinctly (not silently swallowed)". *)
Definition call_handlers (record : LogRecord) : Co unit :=
  hs ← ask GetHandlers;
  n ← dispatch hs record;
  if (n =? 0)%nat then Raise NoHandlersFound else mret tt.

(** Modelled from the spec: [handle(record)], the scheduled unit of work
    (section 4.2): "applies the logger's own filters to the record; if
    rejected, discard with no handler contact", otherwise dispatch. *)
Definition handle (record : LogRecord) : Co unit :=
  ok ← ask (Filter record);
  if (ok : bool) then call_handlers record else mret tt.

(** Modelled from the spec: the tear-down of the handlers in
    [shutdown()] (sections 4.2, 5 and 7): "flush then close every
    registered handler that is currently initialized; handlers that were
    never initialized are skipped for both flush and close.  Per-handler
    failures during flush/close are caught and do not prevent closing
    the remaining handlers"; "a second caller does not re-enter
    flush/close on a handler already being torn down by a first caller"
    through "a one-shot guard per handler". *)
Fixpoint teardown (hs : list Ref) : Co unit :=
  match hs with
  | [] => mret tt
  | h :: hs =>
      ini ← ask (HandlerInitialized h);
      (if (ini : bool) then
         mine ← ask (Claim h);
         if (mine : bool) then
           try_except
             (lift (ask (Flush h));; lift (ask (Close h)))
             (fun _ => mret tt)
         else mret tt
       else mret tt);;
      teardown hs
  end.

(** Modelled from the spec: [shutdown()] (section 4.2), the tear-down
    of the registered handlers in their order. *)
Definition shutdown : Co unit :=
  hs ← ask GetHandlers;
  teardown hs.

(** Modelled from the spec: the record a log call builds (section 3);
    the source location is informational and not modelled. *)
Definition make_record (s : State) (lvl : nat) (message : string)
    : LogRecord :=
  MkLogRecord lvl (name s) "" 0 message None None.

(** Modelled from the spec: [log(level, message)] (section 4.2): "If the
    logger is disabled, or level is below threshold, the call is a no-op
    that still returns a valid handle.  Otherwise it builds a LogRecord
    and schedules asynchronous dispatch as an independent unit of work".
    The result is the coroutine of the task that was scheduled, [None]
    for the inert handle. *)
Definition log (s : State) (lvl : nat) (message : string)
    : option (Co unit) :=
  if disabled s || (lvl <? level s)%nat then None
  else Some (handle (make_record s lvl message)).

(** Modelled from the spec: the severity convenience calls (section
    4.2), "thin facades over log with the level fixed". *)
Definition debug (s : State) := log s LogLevel.DEBUG.
Definition info (s : State) := log s LogLevel.INFO.
Definition warning (s : State) := log s LogLevel.WARNING.
Definition error (s : State) := log s LogLevel.ERROR.
Definition critical (s : State) := log s LogLevel.CRITICAL.

(** [await logger.log(...)]: the task runs to its end; the inert handle
    is complete already. *)
Definition await_log (task : option (Co unit)) (s : State)
    : option (State * Outcome unit) :=
  match task with
  | Some p => run perform p s
  | None => Some (s, Returned tt)
  end.

(** [asyncio.gather(logger.shutdown(), ..., logger.shutdown())],
    [m] calls. *)
Definition shutdowns (m : nat) (s : State) : Loop (S := State) unit :=
  MkLoop s (replicate m shutdown).

(** *** The places where a [shutdown] task can be parked *)

Inductive Stage : Type :=
| Fresh                               (* created, no turn yet *)
| Seeking (hs : list Ref)             (* in front of the handlers [hs] *)
| AtFlush (h : Ref) (rest : list Ref) (* in handler.flush() *)
| AtClose (h : Ref) (rest : list Ref) (* in handler.close() *)
| Done.

(** In front of [handler.close()], inside the [try]. *)
Definition closing (h : Ref) : Co unit :=
  try_except (lift (ask (Close h))) (fun _ => mret tt).

(** In front of [handler.flush()], inside the [try]. *)
Definition flushing (h : Ref) : Co unit :=
  try_except (lift (ask (Flush h));; lift (ask (Close h))) (fun _ => mret tt).

Definition task_of (st : Stage) : Co unit :=
  match st with
  | Fresh => shutdown
  | Seeking hs => teardown hs
  | AtFlush h rest => flushing h;; teardown rest
  | AtClose h rest => closing h;; teardown rest
  | Done => Ret tt
  end.

(** From the handlers [hs] on, to the first one that is initialized and
    that nobody has taken charge of. *)
Fixpoint seek (hs : list Ref) (s : State) : State * Stage :=
  match hs with
  | [] => (s, Done)
  | h :: hs' =>
      match heap s !! h with
      | None => (s, Seeking hs)
      | Some obj =>
          if h_initialized obj then
            if bool_decide (h ∈ guards s) then seek hs' s
            else (with_guards (h :: guards s) s, AtFlush h hs')
          else seek hs' s
      end
  end.

(** One turn of a [shutdown] task, told place by place. *)
Definition stage_step (st : Stage) (s : State) : State * Stage :=
  match st with
  | Fresh => seek (handlers s) s
  | Seeking hs => seek hs s
  | AtFlush h rest =>
      match on_handler h_flush h s with
      | None => (s, st)
      | Some (s', inr _) => (s', AtClose h rest)
      | Some (s', inl _) => seek rest s'
      end
  | AtClose h rest =>
      match on_handler h_close h s with
      | None => (s, st)
      | Some (s', _) => seek rest s'
      end
  | Done => (s, Done)
  end.

Definition stage_turn (c : State * list Stage) (i : nat)
    : State * list Stage :=
  match c.2 !! i with
  | Some st =>
      let '(s', st') := stage_step st c.1 in
      (s', <[i := st']> c.2)
  | None => c
  end.

(** The handlers a task at [st] has still to look at. *)
Definition remaining (all : list Ref) (st : Stage) : list Ref :=
  match st with
  | Fresh => all
  | Seeking hs => hs
  | AtFlush _ rest | AtClose _ rest => rest
  | Done => []
  end.

Definition in_flush (h : Ref) (st : Stage) : nat :=
  match st with
  | AtFlush h' _ => if bool_decide (h' = h) then 1 else 0
  | _ => 0
  end.

Definition in_close (h : Ref) (st : Stage) : nat :=
  match st with
  | AtClose h' _ => if bool_decide (h' = h) then 1 else 0
  | _ => 0
  end.

(** How many tasks of the pool are parked at a place counted by [f]. *)
Definition parked (f : Stage -> nat) (ps : list Stage) : nat :=
  sum_list_with f ps.

End WithHandlers.

Arguments State H : clear implicits.

(** [Logger.with_default_handlers()] as the tests observe it: a handler
    for stdout with level DEBUG and one for stderr with level WARNING,
    neither of them initialized.  (The filter the stdout handler is
    constructed with is not modelled; the tests show that it lets the
    records below WARNING through.) *)
Definition with_default_handlers : State StreamHandler :=
  MkState "aiologger" LogLevel.NOTSET false [] [0; 1] []
          [MkStreamHandler LogLevel.DEBUG AsyncStreamHandler.init;
           MkStreamHandler LogLevel.WARNING AsyncStreamHandler.init].

(** The threshold of the mock admits the record. *)
Definition admits (r : LogRecord) (m : Mock) : bool :=
  (m_level m <=? levelno r)%nat.

(** The registered handlers whose threshold admits the record. *)
Definition admitted (s : State Mock) (r : LogRecord) (hs : list Ref)
    : list Ref :=
  List.filter
    (fun h => match heap s !! h with Some m => admits r m | None => false end)
    hs.

(** The calls [shutdown] makes on a mock whose turn has come: [flush],
    and [close] if the flush did not raise. *)
Definition teardown_calls (m : Mock) : list MockCall :=
  if m_initialized m then
    CFlush :: match m_flush_effect m with None => [CClose] | Some _ => [] end
  else [].

(** The same mock, calls apart. *)
Definition same_mock (m m' : Mock) : Prop :=
  m_level m' = m_level m /\ m_initialized m' = m_initialized m
  /\ m_handle_effect m' = m_handle_effect m
  /\ m_flush_effect m' = m_flush_effect m
  /\ m_close_effect m' = m_close_effect m.

(** What holds of the mock behind [h] while [shutdown] tasks are under
    way: nothing happened to it as long as no task took charge of it;
    afterwards exactly one task is in its flush, or exactly one is in its
    close after a flush that returned, or none is at it any more and it
    received its calls. *)
Definition torn_once (s0 s : State Mock) (ps : list Stage) (h : Ref) : Prop :=
  forall m0, heap s0 !! h = Some m0 ->
  exists m, heap s !! h = Some m /\ same_mock m0 m
  /\ if bool_decide (h ∈ guards s) then
       m_initialized m0 = true
       /\ ((parked (in_flush h) ps = 1 /\ parked (in_close h) ps = 0
            /\ m_calls m = m_calls m0)
           \/ (parked (in_flush h) ps = 0 /\ parked (in_close h) ps = 1
               /\ m_calls m = m_calls m0 ++ [CFlush]
               /\ m_flush_effect m0 = None)
           \/ (parked (in_flush h) ps = 0 /\ parked (in_close h) ps = 0
               /\ m_calls m = m_calls m0 ++ teardown_calls m0))
     else
       parked (in_flush h) ps = 0 /\ parked (in_close h) ps = 0
       /\ m_calls m = m_calls m0.

(** Every initialized handler a task has passed is in somebody's
    charge, and so is the handler the task is at. *)
Definition passed (s0 s : State Mock) (st : Stage) : Prop :=
  (forall h, h ∈ remaining (handlers s0) st -> h < length (heap s0))
  /\ (forall h m0, h ∈ handlers s0 -> heap s0 !! h = Some m0 ->
      m_initialized m0 = true ->
      h ∈ guards s \/ h ∈ remaining (handlers s0) st)
  /\ match st with
     | AtFlush h _ | AtClose h _ => h ∈ guards s /\ h < length (heap s0)
     | _ => True
     end.

Definition shutdown_inv (s0 s : State Mock) (ps : list Stage) : Prop :=
  handlers s = handlers s0
  /\ length (heap s) = length (heap s0)
  /\ (forall h, torn_once s0 s ps h)
  /\ Forall (passed s0 s) ps.

End Logger.

(** * One caller is one task

    A coroutine that the sequential semantics runs to its end is run to
    the same end by the loop, whatever the other tasks of the pool are,
    when the loop gives it enough turns in a row: at most one per call. *)

Section RunExec.
Context {Op : Type} {Resp : Op -> Type} {S : Type}.
Variable perform : forall o : Op, S -> option (S * Resp o).
Variable yields : Op -> S -> bool.

Implicit Types (s : S) (n i : nat).

Lemma turns_finished {A} n (p : Coro Op Resp A) s :
  finished p = true -> turns perform yields n p s = (s, p).
Proof.
  intros Hfin. induction n as [|n IH]; [done|].
  destruct p; try done; cbn; by rewrite IH.
Qed.

Lemma turns_add {A} n m (p : Coro Op Resp A) s :
  turns perform yields (n + m) p s
  = let '(s', p') := turns perform yields n p s in
    turns perform yields m p' s'.
Proof.
  revert p s. induction n as [|n IH]; intros p s; [done|].
  cbn [Nat.add turns]. destruct (resume perform yields p s) as [s' p']. apply IH.
Qed.

Lemma advance_reaches {A} (p : Coro Op Resp A) : forall s s' out,
  run perform p s = Some (s', out) ->
  exists n,
    (let '(s1, p1) := advance perform yields p s in
     turns perform yields n p1 s1) = (s', ended out).
Proof.
  induction p as [a|e|o k IH]; intros s s' out Hrun.
  - exists 0. cbn in *. by simplify_eq.
  - exists 0. cbn in *. by simplify_eq.
  - cbn [run] in Hrun. destruct (perform o s) as [[s1 x]|] eqn:Hp; [|done].
    destruct (IH x s1 s' out Hrun) as [n Hn].
    cbn [advance]. destruct (yields o s).
    + exists (Datatypes.S n). cbn [turns resume]. by rewrite Hp.
    + rewrite Hp. by exists n.
Qed.

(** What [run] computes, [turns] reaches. *)
Lemma run_turns {A} (p : Coro Op Resp A) s s' out :
  run perform p s = Some (s', out) ->
  exists n, turns perform yields n p s = (s', ended out).
Proof.
  destruct p as [a|e|o k]; intros Hrun.
  - exists 0. cbn in *. by simplify_eq.
  - exists 0. cbn in *. by simplify_eq.
  - cbn [run] in Hrun. destruct (perform o s) as [[s1 x]|] eqn:Hp; [|done].
    destruct (advance_reaches (k x) s1 s' out Hrun) as [n Hn].
    exists (Datatypes.S n). cbn [turns resume]. by rewrite Hp.
Qed.

(** Turns in a row of task [i] leave the other tasks alone. *)
Lemma exec_replicate {A} n i (p : Coro Op Resp A) s tasks :
  tasks !! i = Some p ->
  exec perform yields (replicate n i) (MkLoop s tasks)
  = let '(s', p') := turns perform yields n p s in
    MkLoop s' (<[i := p']> tasks).
Proof.
  revert p s tasks. induction n as [|n IH]; intros p s tasks Hi.
  - cbn. by rewrite list_insert_id.
  - cbn [replicate turns]. unfold exec in *. cbn [foldl].
    unfold turn at 2. cbn [pool shared]. rewrite Hi.
    destruct (resume perform yields p s) as [s1 p1].
    rewrite (IH p1).
    + destruct (turns perform yields n p1 s1) as [s' p'].
      by rewrite list_insert_insert_eq.
    + apply list_lookup_insert_eq. by eapply lookup_lt_Some.
Qed.

Lemma run_exec {A} (p : Coro Op Resp A) i s s' out tasks :
  tasks !! i = Some p ->
  run perform p s = Some (s', out) ->
  exists n,
    exec perform yields (replicate n i) (MkLoop s tasks)
    = MkLoop s' (<[i := ended out]> tasks).
Proof.
  intros Hi Hrun. destruct (run_turns p s s' out Hrun) as [n Hn].
  exists n. by rewrite (exec_replicate n i p), Hn.
Qed.

Lemma exec_app {A} sch1 sch2 (l : Loop (S := S) A) :
  exec perform yields (sch1 ++ sch2) l
  = exec perform yields sch2 (exec perform yields sch1 l).
Proof. unfold exec. by rewrite foldl_app. Qed.

End RunExec.

(** * Properties of the stream handler, one caller at a time *)

Section HandlerSequential.
Import AsyncStreamHandler.

Implicit Types (env : Env) (s : State) (tr pre : list Event)
  (w : Writer) (r : LogRecord) (lk : bool).

Lemma acquisitions_app tr tr' :
  acquisitions (tr ++ tr') = acquisitions tr + acquisitions tr'.
Proof. unfold acquisitions. by rewrite List.filter_app, length_app. Qed.

Lemma releases_app tr tr' :
  releases (tr ++ tr') = releases tr + releases tr'.
Proof. unfold releases. by rewrite List.filter_app, length_app. Qed.

Lemma written_app tr tr' : written (tr ++ tr') = written tr ++ written tr'.
Proof.
  induction tr as [|ev tr IH]; [done|].
  destruct ev as [| ? ? [|] | | |]; simpl; rewrite IH; try done.
  by rewrite app_assoc.
Qed.

Lemma pending_app w buf tr tr' :
  pending w buf (tr ++ tr') = pending w (pending w buf tr) tr'.
Proof.
  revert buf. induction tr as [|ev tr IH]; intros buf; [done|].
  destruct ev as [| ? ? [|] | ? [|] | |]; simpl; by rewrite ?IH.
Qed.

(** The bytes of a concatenation, and the line of a text: its bytes and
    a line feed. *)
Lemma encode_app (s1 s2 : string) :
  encode (s1 ++ s2)%string = encode s1 ++ encode s2.
Proof.
  unfold encode, list_byte_of_string.
  induction s1 as [|c s1 IH]; [done|]. cbn. by rewrite IH.
Qed.

Lemma line_bytes (text : string) : line text = encode text ++ ["010"%byte].
Proof. unfold line. by rewrite encode_app. Qed.

(** A drain that completed leaves nothing of [w] undelivered. *)
Lemma pending_drained w tr : pending w [] (tr ++ [EDrain w (inr tt)]) = [].
Proof. rewrite pending_app. simpl. by rewrite decide_True. Qed.

(** What [flush] does, in every state. *)
Lemma flush_run env s :
  run (perform env) flush s =
  match writer s with
  | None => Some (s, Raised AttributeError)
  | Some w =>
      let res := writer_drain env (trace s) w in
      Some (note (EDrain w res) s, result_outcome res)
  end.
Proof.
  destruct s as [[w|] lk tr]; cbn; [|done].
  by destruct (writer_drain env tr w).
Qed.

(** What [close] does on a handler without a writer. *)
Lemma close_uninitialized env lk tr :
  run (perform env) close (MkState None lk tr)
  = Some (MkState None lk tr, Returned tt).
Proof. done. Qed.

(** What [close] does on a handler with a writer when the drain and
    the release succeed. *)
Lemma close_initialized env w lk tr :
  writer_drain env tr w = inr tt ->
  writer_close env (tr ++ [EDrain w (inr tt)]) w = inr tt ->
  run (perform env) close (MkState (Some w) lk tr)
  = Some (MkState None lk (tr ++ [EDrain w (inr tt); EClose w (inr tt)]),
          Returned tt).
Proof.
  intros Hd Hc. cbn. rewrite Hd. cbn. rewrite Hc. cbn.
  by rewrite <- app_assoc.
Qed.

Lemma run_bind {A B} env (p : Co A) (f : A -> Co B) s :
  run (perform env) (bind p f) s =
  match run (perform env) p s with
  | Some (s', Returned a) => run (perform env) (f a) s'
  | Some (s', Raised e) => Some (s', Raised e)
  | None => None
  end.
Proof.
  revert s. induction p as [a|e|o k IH]; intros s; simpl; try done.
  destruct (perform env o s) as [[s' x]|]; [apply IH | done].
Qed.

(** The answers of the collaborators depend on the past only: a run
    that starts after [pre] is a run from an empty history against
    the collaborators as they are after [pre]. *)
Lemma perform_after env pre o s :
  perform env o (after pre s)
  = (fun '(s', x) => (after pre s', x)) <$> perform (shift pre env) o s.
Proof.
  destruct s as [wr lk tr].
  destruct o; cbn; try done; unfold after, note; cbn;
    rewrite ?app_assoc; try done.
  by destruct lk.
Qed.

Lemma run_after {A} env pre (p : Co A) s :
  run (perform env) p (after pre s)
  = (fun '(s', x) => (after pre s', x)) <$> run (perform (shift pre env)) p s.
Proof.
  revert s. induction p as [a|e|o k IH]; intros s; simpl; try done.
  rewrite perform_after.
  destruct (perform (shift pre env) o s) as [[s' x]|]; simpl; [apply IH|done].
Qed.

(** What [emit] does on a handler that has a writer. *)
Lemma emit_initialized env r w lk tr :
  run (perform env) (emit r) (MkState (Some w) lk tr)
  = Some (MkState (Some w) lk
            (tr ++
             match format env r with
             | inl e => [EHandleError r e]
             | inr text =>
                 match writer_write env tr w (line text) with
                 | inl e => [EWrite w (line text) (inl e); EHandleError r e]
                 | inr _ =>
                     match writer_drain env (tr ++ [EWrite w (line text) (inr tt)]) w with
                     | inl e => [EWrite w (line text) (inr tt);
                                 EDrain w (inl e); EHandleError r e]
                     | inr _ => [EWrite w (line text) (inr tt); EDrain w (inr tt)]
                     end
                 end
             end),
          Returned tt).
Proof.
  unfold line. cbn. destruct (format env r) as [e|text]; cbn; [done|].
  destruct (writer_write env tr w _) as [e|[]]; cbn.
  { unfold note; cbn. by rewrite <- app_assoc. }
  destruct (writer_drain _ _ w) as [e|[]]; cbn;
    unfold note; cbn; by rewrite <- !app_assoc.
Qed.

(** What [emit] does on a handler without a writer whose lock is free. *)
Lemma emit_uninitialized env r tr :
  run (perform env) (emit r) (MkState None false tr)
  = match connect_write_pipe env tr with
    | inl e => Some (MkState None false (tr ++ [EConnect (inl e)]), Raised e)
    | inr w =>
        run (perform env) (emit r)
          (MkState (Some w) false (tr ++ [EConnect (inr w)]))
    end.
Proof. cbn. by destruct (connect_write_pipe env tr) as [e|w]. Qed.

End HandlerSequential.

(** * Results: one handler, one caller (C2, C3, C6, C10) *)

Section HandlerResults.
Import AsyncStreamHandler.

Implicit Types (env : Env) (s : State) (tr pre : list Event)
  (w : Writer) (r : LogRecord) (lk : bool).

(** C3, as stated, fails: [flush()] on a handler that was never
    initialized is not a no-op, it raises [AttributeError] (the writer
    is [None]). *)
Lemma C3_flush_uninitialized_raises :
  run (perform ok_env) flush init = Some (init, Raised AttributeError)
  /\ ~ (exists s', run (perform ok_env) flush init = Some (s', Returned tt)).
Proof. split; [done|]. intros [s' H]. discriminate H. Qed.

(** C3, amended: on a handler without a writer [flush()] raises
    [AttributeError] and touches nothing, and it is [close()] that
    checks [initialized] and returns before flushing; on a handler with
    writer [w], [flush()] awaits [w.drain()] and ends as the drain
    ends, and when it returns nothing handed to [w] is left
    undelivered. *)
Theorem C3_flush_needs_writer env lk tr :
  run (perform env) flush (MkState None lk tr)
    = Some (MkState None lk tr, Raised AttributeError)
  /\ run (perform env) close (MkState None lk tr)
    = Some (MkState None lk tr, Returned tt)
  /\ forall w,
      run (perform env) flush (MkState (Some w) lk tr)
        = Some (MkState (Some w) lk (tr ++ [EDrain w (writer_drain env tr w)]),
                result_outcome (writer_drain env tr w))
      /\ forall s',
          run (perform env) flush (MkState (Some w) lk tr)
            = Some (s', Returned tt) ->
          pending w [] (trace s') = [].
Proof.
  split; [done|]. split; [done|].
  intros w. rewrite flush_run. cbn [writer trace]. split; [done|].
  intros s'. destruct (writer_drain env tr w) as [e|[]]; intros Hret;
    [discriminate Hret|].
  injection Hret as <-. apply pending_drained.
Qed.

Lemma C3_flush_needs_writer_witness :
  pending 0 []
    (trace (MkState (Some 0) false
              [EWrite 0 (encode "a") (inr tt); EDrain 0 (inr tt)])) = [].
Proof.
  destruct (C3_flush_needs_writer ok_env false [EWrite 0 (encode "a") (inr tt)])
    as (_ & _ & H).
  destruct (H 0) as [_ Hpend].
  apply Hpend. reflexivity.
Defined.

Lemma closes_uninitialized env n lk tr :
  run (perform env) (closes n) (MkState None lk tr)
  = Some (MkState None lk tr, Returned tt).
Proof.
  induction n as [|n IH]; [done|].
  cbn [closes]. unfold mbind, Co_bind. rewrite run_bind.
  by rewrite close_uninitialized.
Qed.

(** C6: with a writer that drains and closes without failing, [n >= 1]
    calls of [close()] in a row all return normally and release the
    writer exactly once: on a handler with writer [w] the first call
    drains [w], closes [w] and sets [self.writer = None], every other
    call (and every call on a handler without a writer) does nothing. *)
Theorem C6_close_releases_once env s n :
  (forall tr w, writer_drain env tr w = inr tt) ->
  (forall tr w, writer_close env tr w = inr tt) ->
  1 <= n ->
  exists s',
    run (perform env) (closes n) s = Some (s', Returned tt)
    /\ writer s' = None
    /\ trace s' = trace s ++
         match writer s with
         | Some w => [EDrain w (inr tt); EClose w (inr tt)]
         | None => []
         end
    /\ releases (trace s') = releases (trace s) +
         match writer s with Some _ => 1 | None => 0 end.
Proof.
  intros Hd Hc Hn. destruct n as [|n]; [lia|].
  destruct s as [[w|] lk tr].
  - eexists. split.
    + cbn [closes]. unfold mbind, Co_bind. rewrite run_bind.
      rewrite close_initialized by done.
      apply closes_uninitialized.
    + cbn [writer trace]. split; [done|]. split; [done|].
      by rewrite releases_app.
  - exists (MkState None lk tr). rewrite closes_uninitialized. cbn.
    rewrite app_nil_r. split; [done|]. split; [done|]. split; [done|]. lia.
Qed.

Lemma C6_close_releases_once_witness :
  exists s',
    run (perform ok_env) (closes 3) (MkState (Some 0) false [EConnect (inr 0)])
      = Some (s', Returned tt)
    /\ writer s' = None
    /\ trace s' = [EConnect (inr 0); EDrain 0 (inr tt); EClose 0 (inr tt)]
    /\ releases (trace s') = 1.
Proof.
  apply (C6_close_releases_once ok_env (MkState (Some 0) false [EConnect (inr 0)]) 3);
    [reflexivity | reflexivity | lia].
Defined.

(** C2, as stated, fails: when the pipe cannot be acquired during the
    lazy initialization, [emit] raises the failure to its caller and
    the error hook is not called. *)
Lemma C2_acquisition_failure_propagates :
  run (perform (refusing_env (External 1))) (emit xablau) init
    = Some (MkState None false [EConnect (inl (External 1))],
            Raised (External 1))
  /\ ~ (exists s',
         run (perform (refusing_env (External 1))) (emit xablau) init
           = Some (s', Returned tt)
         /\ EHandleError xablau (External 1) ∈ trace s').
Proof.
  split; [done|]. intros (s' & H & _). discriminate H.
Qed.

(** C2, amended: on a handler with a writer, [emit] always returns
    normally and a failure of the formatter, of the write or of the
    drain is handed to [handle_error(record, failure)], which is the
    last thing that happens; on a handler without a writer, a failure to
    acquire the pipe is raised to the caller of [emit], the hook is not
    called, [self.writer] stays [None] and the lock is free again, and
    every [emit] on a handler without a writer starts by asking for the
    pipe, so the next [emit] tries the acquisition again; when the pipe
    is acquired, [emit] installs the writer [w] it was given and goes on
    as on a handler with a writer: it returns normally, and a failure
    of the formatter, of the write on [w] or of the drain of [w] is
    handed to [handle_error(record, failure)], the last thing that
    happens. *)
Theorem C2_emit_failures env r tr :
  (forall w lk, exists tr',
      run (perform env) (emit r) (MkState (Some w) lk tr)
        = Some (MkState (Some w) lk (tr ++ tr'), Returned tt)
      /\ (forall e, format env r = inl e -> tr' = [EHandleError r e])
      /\ (forall text e,
            format env r = inr text ->
            writer_write env tr w (encode text ++ ["010"%byte]) = inl e ->
            tr' = [EWrite w (encode text ++ ["010"%byte]) (inl e);
                   EHandleError r e])
      /\ (forall text e,
            format env r = inr text ->
            writer_write env tr w (encode text ++ ["010"%byte]) = inr tt ->
            writer_drain env
              (tr ++ [EWrite w (encode text ++ ["010"%byte]) (inr tt)]) w
              = inl e ->
            tr' = [EWrite w (encode text ++ ["010"%byte]) (inr tt);
                   EDrain w (inl e); EHandleError r e]))
  /\ (forall e,
        connect_write_pipe env tr = inl e ->
        run (perform env) (emit r) (MkState None false tr)
          = Some (MkState None false (tr ++ [EConnect (inl e)]), Raised e))
  /\ (exists s' out rest,
        run (perform env) (emit r) (MkState None false tr) = Some (s', out)
        /\ trace s' = tr ++ EConnect (connect_write_pipe env tr) :: rest)
  /\ (forall w,
        connect_write_pipe env tr = inr w ->
        let tr1 := tr ++ [EConnect (inr w)] in
        exists tr',
          run (perform env) (emit r) (MkState None false tr)
            = Some (MkState (Some w) false (tr1 ++ tr'), Returned tt)
          /\ (forall e, format env r = inl e -> tr' = [EHandleError r e])
          /\ (forall text e,
                format env r = inr text ->
                writer_write env tr1 w (encode text ++ ["010"%byte]) = inl e ->
                tr' = [EWrite w (encode text ++ ["010"%byte]) (inl e);
                       EHandleError r e])
          /\ (forall text e,
                format env r = inr text ->
                writer_write env tr1 w (encode text ++ ["010"%byte]) = inr tt ->
                writer_drain env
                  (tr1 ++ [EWrite w (encode text ++ ["010"%byte]) (inr tt)]) w
                  = inl e ->
                tr' = [EWrite w (encode text ++ ["010"%byte]) (inr tt);
                       EDrain w (inl e); EHandleError r e])
          /\ (forall text,
                format env r = inr text ->
                writer_write env tr1 w (encode text ++ ["010"%byte]) = inr tt ->
                writer_drain env
                  (tr1 ++ [EWrite w (encode text ++ ["010"%byte]) (inr tt)]) w
                  = inr tt ->
                tr' = [EWrite w (encode text ++ ["010"%byte]) (inr tt);
                       EDrain w (inr tt)])).
Proof.
  split; [|split; [|split]].
  - intros w lk. eexists. split; [apply emit_initialized|].
    split; [|split].
    + by intros e ->.
    + intros text e ->. rewrite <- line_bytes. by intros ->.
    + intros text e ->. rewrite <- line_bytes. by intros -> ->.
  - intros e He. by rewrite emit_uninitialized, He.
  - rewrite emit_uninitialized.
    destruct (connect_write_pipe env tr) as [e|w].
    + by eexists _, _, [].
    + rewrite emit_initialized. eexists _, _, _. split; [done|].
      cbn [trace]. by rewrite <- app_assoc.
  - intros w Hw tr1. rewrite emit_uninitialized, Hw. fold tr1.
    eexists. split; [apply emit_initialized|].
    split; [|split; [|split]].
    + by intros e ->.
    + intros text e ->. rewrite <- line_bytes. by intros ->.
    + intros text e ->. rewrite <- line_bytes. by intros -> ->.
    + intros text ->. rewrite <- line_bytes. by intros -> ->.
Qed.

Lemma C2_emit_failures_witness :
  run (perform (refusing_env (External 1))) (emit xablau) (MkState None false [])
    = Some (MkState None false ([] ++ [EConnect (inl (External 1))]),
            Raised (External 1))
  /\ (exists tr',
      run (perform (MkEnv (connect_write_pipe ok_env)
                          (fun _ => inl (External 2))
                          (writer_write ok_env) (writer_drain ok_env)
                          (writer_close ok_env)))
          (emit xablau) (MkState (Some 0) false [EConnect (inr 0)])
        = Some (MkState (Some 0) false ([EConnect (inr 0)] ++ tr'), Returned tt)
      /\ tr' = [EHandleError xablau (External 2)])
  /\ (exists tr',
      run (perform (MkEnv (connect_write_pipe ok_env)
                          (format ok_env)
                          (writer_write ok_env)
                          (fun _ _ => inl (External 3))
                          (writer_close ok_env)))
          (emit xablau) (MkState None false [])
        = Some (MkState (Some 0) false (([] ++ [EConnect (inr 0)]) ++ tr'),
                Returned tt)
      /\ tr' = [EWrite 0 (encode "Xablau" ++ ["010"%byte]) (inr tt);
                EDrain 0 (inl (External 3));
                EHandleError xablau (External 3)]).
Proof.
  split; [|split].
  - destruct (C2_emit_failures (refusing_env (External 1)) xablau [])
      as (_ & H & _).
    apply H. reflexivity.
  - destruct (C2_emit_failures
                (MkEnv (connect_write_pipe ok_env) (fun _ => inl (External 2))
                       (writer_write ok_env) (writer_drain ok_env)
                       (writer_close ok_env))
                xablau [EConnect (inr 0)]) as (H & _ & _).
    destruct (H 0 false) as (tr' & Hrun & Hfmt & _).
    exists tr'. split; [exact Hrun|]. apply (Hfmt (External 2)). reflexivity.
  - destruct (C2_emit_failures
                (MkEnv (connect_write_pipe ok_env) (format ok_env)
                       (writer_write ok_env) (fun _ _ => inl (External 3))
                       (writer_close ok_env))
                xablau []) as (_ & _ & _ & H).
    destruct (H 0 eq_refl) as (tr' & Hrun & _ & _ & Hdrain & _).
    exists tr'. split; [exact Hrun|].
    apply (Hdrain "Xablau"%string (External 3)); reflexivity.
Defined.

(** C10, as stated, fails: a subsequent [emit] on a closed handler can
    fail.  When closing the writer closed the stream under it,
    [connect_write_pipe] raises in the lazy initialization that [emit]
    runs again, and [emit] raises to its caller with nothing written,
    where [emit] on a newly constructed handler, with the same
    collaborators, returns with the line written. *)
Lemma C10_emit_after_close_can_fail :
  let past := [EConnect (inr 0); EDrain 0 (inr tt); EClose 0 (inr tt)] in
  run (perform closed_stream_env) close (MkState (Some 0) false [EConnect (inr 0)])
    = Some (MkState None false past, Returned tt)
  /\ run (perform closed_stream_env) (emit xablau) (MkState None false past)
    = Some (MkState None false (past ++ [EConnect (inl (External 9))]),
            Raised (External 9))
  /\ ~ (exists s',
         run (perform closed_stream_env) (emit xablau) (MkState None false past)
           = Some (s', Returned tt))
  /\ run (perform closed_stream_env) (emit xablau) init
    = Some (MkState (Some 0) false
              [EConnect (inr 0);
               EWrite 0 (encode "Xablau" ++ ["010"%byte]) (inr tt);
               EDrain 0 (inr tt)],
            Returned tt).
Proof.
  cbn zeta. split; [done|]. split; [done|]. split; [|done].
  intros [s' H]. discriminate H.
Qed.

(** C10, amended: [close()] on a handler with a writer (drain and
    release succeeding) leaves [self.writer = None], so [initialized] is
    false again and a subsequent [emit] re-runs the lazy initialization:
    it asks for the pipe once more.  If that acquisition fails, the
    failure is raised to the caller of [emit], nothing is written and
    the handler stays without a writer; if it gives writer [w'], [emit]
    installs [w'], formats the record, writes the encoded text followed
    by a line feed to [w'] in one write and drains [w'], a failure of
    one of the three going to [handle_error], and returns normally.
    This is what [emit] does on every handler that has no writer and a
    free lock, whatever happened before, a newly constructed one
    included: [emit] after [close] runs as [emit] after construction
    runs against the collaborators as they are after what happened. *)
Theorem C10_emit_after_close env w tr r :
  writer_drain env tr w = inr tt ->
  writer_close env (tr ++ [EDrain w (inr tt)]) w = inr tt ->
  let past := tr ++ [EDrain w (inr tt); EClose w (inr tt)] in
  let emitted := fun pre =>
    match connect_write_pipe env pre with
    | inl e => (MkState None false (pre ++ [EConnect (inl e)]), Raised e)
    | inr w' =>
        let tr1 := pre ++ [EConnect (inr w')] in
        (MkState (Some w') false
           (tr1 ++
            match format env r with
            | inl e => [EHandleError r e]
            | inr text =>
                let data := encode text ++ ["010"%byte] in
                match writer_write env tr1 w' data with
                | inl e => [EWrite w' data (inl e); EHandleError r e]
                | inr _ =>
                    match writer_drain env (tr1 ++ [EWrite w' data (inr tt)]) w' with
                    | inl e => [EWrite w' data (inr tt); EDrain w' (inl e);
                                EHandleError r e]
                    | inr _ => [EWrite w' data (inr tt); EDrain w' (inr tt)]
                    end
                end
            end),
         Returned tt)
    end in
  run (perform env) close (MkState (Some w) false tr)
    = Some (MkState None false past, Returned tt)
  /\ run (perform env) initialized (MkState None false past)
    = Some (MkState None false past, Returned false)
  /\ run (perform env) (emit r) (MkState None false past) = Some (emitted past)
  /\ (forall pre,
        run (perform env) (emit r) (MkState None false pre) = Some (emitted pre))
  /\ run (perform env) (emit r) (after past init)
    = (fun '(s', x) => (after past s', x))
        <$> run (perform (shift past env)) (emit r) init.
Proof.
  intros Hd Hc past emitted.
  assert (Hemit : forall pre,
            run (perform env) (emit r) (MkState None false pre)
            = Some (emitted pre)).
  { intros pre. rewrite emit_uninitialized. subst emitted. cbn beta.
    destruct (connect_write_pipe env pre) as [e|w']; [done|].
    rewrite emit_initialized. cbn zeta.
    destruct (format env r) as [e|text]; [done|]. by rewrite line_bytes. }
  split; [by apply close_initialized|]. split; [done|].
  split; [apply Hemit|]. split; [exact Hemit|]. apply run_after.
Qed.

Lemma C10_emit_after_close_witness :
  run (perform ok_env) close (MkState (Some 0) false [EConnect (inr 0)])
    = Some (MkState None false
              [EConnect (inr 0); EDrain 0 (inr tt); EClose 0 (inr tt)],
            Returned tt)
  /\ run (perform ok_env) (emit xablau)
       (MkState None false
          [EConnect (inr 0); EDrain 0 (inr tt); EClose 0 (inr tt)])
     = Some (MkState (Some 1) false
               [EConnect (inr 0); EDrain 0 (inr tt); EClose 0 (inr tt);
                EConnect (inr 1);
                EWrite 1 (encode "Xablau" ++ ["010"%byte]) (inr tt);
                EDrain 1 (inr tt)],
             Returned tt).
Proof.
  destruct (C10_emit_after_close ok_env 0 [EConnect (inr 0)] xablau)
    as (Hclose & _ & Hemit & _); [reflexivity | reflexivity |].
  split; [exact Hclose | exact Hemit].
Defined.

End HandlerResults.

(** * The stream handler under concurrent callers *)

Section HandlerConcurrent.
Import AsyncStreamHandler.

Implicit Types (env : Env) (s : State) (tr : list Event)
  (w : Writer) (r : LogRecord) (st : Stage) (sch : list nat).

(** The [try] block of [emit], run from its start on a handler whose
    writer is [w], goes as [write_step] says. *)
Lemma advance_emit_try env r w lk tr :
  advance (perform env) yields (emit_try r) (MkState (Some w) lk tr)
  = let '(s', st') := write_step env r w (MkState (Some w) lk tr) in
    (s', task_of r st').
Proof.
  unfold write_step, line. cbn.
  destruct (format env r) as [e|text]; cbn; [done|].
  by destruct (writer_write env tr w _) as [e|[]].
Qed.

(** A turn of a task parked at [st] is a step of the stage machine. *)
Lemma resume_task_of env r st s :
  resume (perform env) yields (task_of r st) s
  = let '(s', st') := stage_step env r st s in (s', task_of r st').
Proof.
  destruct s as [wr lk tr].
  destruct st as [| | |w|e|[[]|e]]; try done.
  - (* Fresh *)
    destruct wr as [w|].
    + apply advance_emit_try.
    + by destruct lk.
  - (* AtLock *)
    by destruct lk.
  - (* AtConnect *)
    cbn. destruct (connect_write_pipe env tr) as [e|w]; [done|].
    apply advance_emit_try.
  - (* AtDrain *)
    cbn. by destruct (writer_drain env tr w) as [e|[]].
Qed.

Lemma turn_tasks env s ps i :
  turn (perform env) yields (MkLoop s (tasks ps)) i
  = let '(s', ps') := stage_turn env (s, ps) i in MkLoop s' (tasks ps').
Proof.
  unfold turn, stage_turn, tasks. cbn [pool shared fst snd].
  rewrite list_lookup_fmap.
  destruct (ps !! i) as [[r st]|]; cbn [fmap option_fmap option_map]; [|done].
  cbn [fst snd]. rewrite resume_task_of.
  destruct (stage_step env r st s) as [s' st'].
  by rewrite list_fmap_insert.
Qed.

Lemma exec_tasks env sch s ps :
  exec (perform env) yields sch (MkLoop s (tasks ps))
  = let '(s', ps') := foldl (stage_turn env) (s, ps) sch in
    MkLoop s' (tasks ps').
Proof.
  unfold exec. revert s ps. induction sch as [|i sch IH]; intros s ps; [done|].
  cbn [foldl]. rewrite turn_tasks.
  destruct (stage_turn env (s, ps) i) as [s' ps']. apply IH.
Qed.

Lemma gather_tasks s rs : gather s rs = MkLoop s (tasks ((., Fresh) <$> rs)).
Proof.
  unfold gather, tasks. f_equal. rewrite <- list_fmap_compose.
  by apply list_fmap_ext.
Qed.

Lemma finished_task_of r st :
  finished (task_of r st) = match st with Done _ => true | _ => false end.
Proof. by destruct st as [| | | | |[[]|]]. Qed.

Lemma stage_turn_two env s r1 r2 st0 st1 i :
  stage_turn env (s, [(r1, st0); (r2, st1)]) i
  = match i with
    | 0 => let '(s', st') := stage_step env r1 st0 s in
           (s', [(r1, st'); (r2, st1)])
    | 1 => let '(s', st') := stage_step env r2 st1 s in
           (s', [(r1, st0); (r2, st')])
    | _ => (s, [(r1, st0); (r2, st1)])
    end.
Proof.
  by destruct i as [|[|i]].
Qed.

(** A write never raises the number of acquisitions. *)
Lemma write_step_spec env r w s :
  let '(s', st') := write_step env r w s in
  past_init st' = true /\ locked s' = locked s /\ writer s' = writer s
  /\ acquisitions (trace s') = acquisitions (trace s).
Proof.
  unfold write_step. destruct (format env r) as [e|text]; [done|].
  destruct (writer_write _ _ _ _) as [e|[]]; unfold note;
    cbn [trace writer locked]; rewrite acquisitions_app; cbn; repeat split; lia.
Qed.

(** A task that has left [_init_writer] never asks for the pipe again
    and never touches the lock. *)
Lemma stage_step_past_init env r st s :
  past_init st = true ->
  let '(s', st') := stage_step env r st s in
  past_init st' = true /\ locked s' = locked s
  /\ acquisitions (trace s') = acquisitions (trace s).
Proof.
  destruct st as [| | |w|e|out]; try done; intros _;
    unfold stage_step, note.
  - destruct (writer_drain env (trace s) w) as [e|[]];
      cbn [trace writer locked];
      rewrite acquisitions_app; cbn; repeat split; lia.
  - cbn [trace writer locked].
    rewrite acquisitions_app; cbn; repeat split; lia.
Qed.

(** A task parked in front of [connect_write_pipe] asks for the pipe
    when it gets its turn, whatever [self.writer] is by then. *)
Lemma stage_step_connect env r s :
  let '(s', st') := stage_step env r AtConnect s in
  past_init st' = true /\ locked s' = false
  /\ acquisitions (trace s') = acquisitions (trace s) + 1.
Proof.
  unfold stage_step. destruct (connect_write_pipe env (trace s)) as [e|w].
  - cbn [trace writer locked]. rewrite acquisitions_app. done.
  - pose proof (write_step_spec env r w
                  (MkState (Some w) false (trace s ++ [EConnect (inr w)]))) as H.
    destruct (write_step _ _ _ _) as [s' st']. cbn [trace writer locked] in H.
    destruct H as (? & ? & _ & ->). rewrite acquisitions_app. done.
Qed.

Lemma count_insert f ps i r st st' :
  ps !! i = Some (r, st) ->
  count f (<[i := (r, st')]> ps) + f st = count f ps + f st'.
Proof.
  unfold count. revert i. induction ps as [|p ps IH]; intros [|i] Hi;
    (simplify_eq/=); [lia|].
  specialize (IH i Hi). lia.
Qed.

Lemma count_ge f ps i r st : ps !! i = Some (r, st) -> f st <= count f ps.
Proof.
  intros Hi. unfold count.
  apply (sum_list_with_in (r, st) (fun p => f p.2)).
  by eapply list_elem_of_lookup_2.
Qed.

Lemma count_all f ps n :
  Forall (fun p => f p.2 = n) ps -> count f ps = length ps * n.
Proof.
  unfold count. induction 1 as [|p ps Hp _ IH]; [done|]. cbn. lia.
Qed.

Lemma stage_turn_length env s ps i :
  length (stage_turn env (s, ps) i).2 = length ps.
Proof.
  unfold stage_turn. cbn [fst snd]. destruct (ps !! i) as [[r st]|]; [|done].
  destruct (stage_step env r st s). cbn. by rewrite length_insert.
Qed.

(** The first turn of a task, while nobody has got the pipe. *)
Lemma starting_turn env a j s ps :
  starting_inv a j s ps -> j < length ps ->
  let '(s', ps') := stage_turn env (s, ps) j in starting_inv a (S j) s' ps'.
Proof.
  intros (Hwr & Hacq & Hps & Hcnt) Hj.
  destruct (lookup_lt_is_Some_2 ps j Hj) as [[r st] Hi].
  pose proof (Hps j (r, st) Hi) as Hst.
  rewrite bool_decide_eq_false_2 in Hst by lia. cbn in Hst. subst st.
  unfold stage_turn. cbn [fst snd]. rewrite Hi.
  unfold stage_step. rewrite Hwr.
  assert (Hothers : forall st', st' = AtLock \/ st' = AtConnect ->
            forall i p, <[j := (r, st')]> ps !! i = Some p ->
              if bool_decide (i < S j) then p.2 = AtLock \/ p.2 = AtConnect
              else p.2 = Fresh).
  { intros st' Hst' i p Hp. destruct (decide (i = j)) as [->|Hne].
    - rewrite list_lookup_insert_eq in Hp by done. injection Hp as <-.
      by rewrite bool_decide_eq_true_2 by lia.
    - rewrite list_lookup_insert_ne in Hp by done.
      specialize (Hps i p Hp).
      destruct (decide (i < j)).
      + rewrite bool_decide_eq_true_2 in Hps by done.
        by rewrite bool_decide_eq_true_2 by lia.
      + rewrite bool_decide_eq_false_2 in Hps by done.
        by rewrite bool_decide_eq_false_2 by lia. }
  destruct (locked s) eqn:Hlk.
  - (* the lock is held: the task waits *)
    split; [done|]. split; [done|]. split; [apply Hothers; by left|].
    rewrite Hlk.
    pose proof (count_insert at_connect ps j r Fresh AtLock Hi). cbn in *. lia.
  - (* the lock is free: the task takes it *)
    cbn [writer locked trace]. split; [done|]. split; [done|].
    split; [apply Hothers; by right|].
    pose proof (count_insert at_connect ps j r Fresh AtConnect Hi). cbn in *. lia.
Qed.

Lemma starting_run env a n : forall j s ps,
  starting_inv a j s ps -> j + n = length ps ->
  let '(s', ps') := foldl (stage_turn env) (s, ps) (seq j n) in
  starting_inv a (j + n) s' ps' /\ length ps' = length ps.
Proof.
  induction n as [|n IH]; intros j s ps Hinv Hlen.
  - cbn. by rewrite Nat.add_0_r.
  - cbn [seq foldl].
    pose proof (starting_turn env a j s ps Hinv ltac:(lia)) as Hturn.
    pose proof (stage_turn_length env s ps j) as Hl.
    destruct (stage_turn env (s, ps) j) as [s1 ps1]. cbn [snd] in Hl.
    specialize (IH (S j) s1 ps1 Hturn ltac:(lia)).
    destruct (foldl (stage_turn env) (s1, ps1) (seq (S j) n)) as [s' ps'].
    replace (j + S n) with (S j + n) by lia. rewrite <- Hl. done.
Qed.

(** When all have started, the race is on. *)
Lemma starting_racing a s ps :
  starting_inv a (length ps) s ps -> racing_inv a s ps.
Proof.
  intros (Hwr & Hacq & Hps & Hcnt).
  assert (Hall : Forall (fun p => p.2 = AtLock \/ p.2 = AtConnect) ps).
  { apply Forall_lookup. intros i p Hp. specialize (Hps i p Hp).
    rewrite bool_decide_eq_true_2 in Hps; [done|]. by eapply lookup_lt_Some. }
  split; [|split; [done|]].
  - eapply Forall_impl; [done|]. intros p [-> | ->]; done.
  - rewrite (count_all left_init ps 0); [lia|].
    eapply Forall_impl; [done|]. intros p [-> | ->]; done.
Qed.

(** Every turn of the race keeps its invariant. *)
Lemma racing_turn env a s ps i :
  racing_inv a s ps ->
  let '(s', ps') := stage_turn env (s, ps) i in racing_inv a s' ps'.
Proof.
  intros (Hstarted & Hcnt & Hacq). unfold stage_turn. cbn [fst snd].
  destruct (ps !! i) as [[r st]|] eqn:Hi; [|done].
  pose proof (proj1 (Forall_lookup _ _) Hstarted i _ Hi) as Hst. cbn in Hst.
  assert (Hkeep : forall st', st' <> Fresh ->
            Forall (fun p => p.2 <> Fresh) (<[i := (r, st')]> ps)).
  { intros st' Hst'. by apply Forall_insert. }
  destruct (past_init st) eqn:Hp.
  - (* the task has left [_init_writer] *)
    pose proof (stage_step_past_init env r st s Hp) as H.
    destruct (stage_step env r st s) as [s' st'].
    destruct H as (Hp' & Hl & Ha).
    pose proof (count_insert at_connect ps i r st st' Hi).
    pose proof (count_insert left_init ps i r st st' Hi).
    assert (at_connect st = 0) by (by destruct st).
    assert (at_connect st' = 0) by (by destruct st').
    assert (left_init st = 1) by (unfold left_init; by rewrite Hp).
    assert (left_init st' = 1) by (unfold left_init; by rewrite Hp').
    split; [apply Hkeep; by destruct st'|]. rewrite Hl, Ha. split; lia.
  - destruct st; try done.
    + (* it waits for the lock *)
      unfold stage_step. destruct (locked s) eqn:Hlk.
      * rewrite list_insert_id by done.
        split; [done|]. split; [by rewrite Hlk | done].
      * unfold racing_inv. cbn [locked trace]. split; [by apply Hkeep|].
        pose proof (count_insert at_connect ps i r AtLock AtConnect Hi).
        pose proof (count_insert left_init ps i r AtLock AtConnect Hi).
        assert (left_init AtConnect = 0) by done.
        assert (at_connect AtConnect = 1) by done.
        assert (left_init AtLock = 0) by done.
        assert (at_connect AtLock = 0) by done.
        split; lia.
    + (* it holds the lock and asks for the pipe *)
      pose proof (stage_step_connect env r s) as H.
      destruct (stage_step env r AtConnect s) as [s' st'].
      destruct H as (Hp' & Hl & Ha).
      pose proof (count_insert at_connect ps i r AtConnect st' Hi).
      pose proof (count_insert left_init ps i r AtConnect st' Hi).
      pose proof (count_ge at_connect ps i r AtConnect Hi).
      assert (at_connect st' = 0) by (by destruct st').
      assert (left_init st' = 1) by (unfold left_init; by rewrite Hp').
      assert (left_init AtConnect = 0) by done.
      assert (at_connect AtConnect = 1) by done.
      split; [apply Hkeep; by destruct st'|]. rewrite Hl, Ha.
      destruct (locked s); split; lia.
Qed.

Lemma racing_run env a sch : forall s ps,
  racing_inv a s ps ->
  let '(s', ps') := foldl (stage_turn env) (s, ps) sch in
  racing_inv a s' ps' /\ length ps' = length ps.
Proof.
  induction sch as [|i sch IH]; intros s ps Hinv; [done|].
  cbn [foldl]. pose proof (racing_turn env a s ps i Hinv) as Hturn.
  pose proof (stage_turn_length env s ps i) as Hl.
  destruct (stage_turn env (s, ps) i) as [s1 ps1]. cbn [snd] in Hl.
  specialize (IH s1 ps1 Hturn).
  destruct (foldl (stage_turn env) (s1, ps1) sch) as [s' ps'].
  by rewrite <- Hl.
Qed.

(** Tasks that all had their first turn before the pipe was connected:
    when all are finished, each of them has asked for the pipe. *)
Lemma racing_emits_acquire_each env (rs : list LogRecord) tr0 sch :
  let l := exec (perform env) yields (seq 0 (length rs) ++ sch)
             (gather (MkState None false tr0) rs) in
  all_finished l = true ->
  acquisitions (trace (shared l)) = acquisitions tr0 + length rs.
Proof.
  cbn zeta. rewrite gather_tasks, exec_tasks, foldl_app.
  assert (Hstart : starting_inv (acquisitions tr0) 0 (MkState None false tr0)
                     ((., Fresh) <$> rs)).
  { split; [done|]. split; [done|]. split.
    - intros i p Hp. apply list_lookup_fmap_Some in Hp as (r & -> & _).
      by rewrite bool_decide_eq_false_2 by lia.
    - cbn [locked]. rewrite (count_all at_connect _ 0); [lia|].
      apply Forall_fmap, Forall_forall. by intros r _. }
  pose proof (starting_run env _ (length rs) 0 _ _ Hstart) as Hrun.
  rewrite length_fmap in Hrun. specialize (Hrun eq_refl).
  destruct (foldl (stage_turn env) _ (seq 0 (length rs))) as [s1 ps1].
  destruct Hrun as [Hinv1 Hlen1]. cbn [Nat.add] in Hinv1.
  rewrite <- Hlen1 in Hinv1. apply starting_racing in Hinv1.
  pose proof (racing_run env _ sch s1 ps1 Hinv1) as Hrace.
  destruct (foldl (stage_turn env) (s1, ps1) sch) as [s' ps'].
  destruct Hrace as [(_ & _ & Hacq) Hlen]. cbn [shared pool].
  unfold all_finished. cbn [pool]. rewrite forallb_forall. intros Hfin.
  rewrite Hacq, (count_all left_init ps' 1); [lia|].
  apply Forall_forall. intros [r st] Hin.
  assert (Hdone : finished (task_of r st) = true).
  { apply Hfin, list_elem_of_In. unfold tasks.
    apply list_elem_of_fmap. by exists (r, st). }
  rewrite finished_task_of in Hdone. by destruct st.
Qed.

(** With collaborators that do not fail, the [try] block writes the
    line and parks at the drain. *)
Lemma write_step_reliable env r t w s :
  reliable env -> format env r = inr t ->
  write_step env r w s = (note (EWrite w (line t) (inr tt)) s, AtDrain w).
Proof.
  intros (_ & Hw & _) Hf. unfold write_step. by rewrite Hf, Hw.
Qed.

Lemma handed_app tr tr' : handed (tr ++ tr') = handed tr ++ handed tr'.
Proof.
  induction tr as [|ev tr IH]; [done|].
  destruct ev as [| ? ? [|] | | |]; simpl; by rewrite IH.
Qed.

Lemma handed_note_write w data s :
  handed (trace (note (EWrite w data (inr tt)) s)) = handed (trace s) ++ [(w, data)].
Proof. unfold note. cbn [trace]. by rewrite handed_app. Qed.

(** What the writers were handed does not change when an event that is
    not an accepted write is recorded. *)
Lemma handed_note_other ev s :
  match ev with EWrite _ _ (inr _) => False | _ => True end ->
  handed (trace (note ev s)) = handed (trace s).
Proof.
  intros Hev. unfold note. cbn [trace]. rewrite handed_app.
  destruct ev as [| ? ? [|] | | |]; try done; cbn; by rewrite app_nil_r.
Qed.

(** What one writer was handed, from what all were handed. *)
Lemma written_to_handed w tr tr' (hs : list (Writer * list byte)) :
  handed tr' = handed tr ++ hs ->
  written_to w tr'
  = written_to w tr ++ concat ((fun p => if decide (p.1 = w) then p.2 else []) <$> hs).
Proof. intros H. unfold written_to. by rewrite H, fmap_app, concat_app. Qed.

(** A turn of one of two tasks on a handler that has a writer, the
    first having written its line. *)
Lemma ordered_turn env w H t1 t2 r1 r2 s st0 st1 i :
  reliable env -> format env r1 = inr t1 -> format env r2 = inr t2 ->
  ordered_inv w H (line t1) (line t2) s st0 st1 ->
  exists s' st0' st1',
    stage_turn env (s, [(r1, st0); (r2, st1)]) i
      = (s', [(r1, st0'); (r2, st1')])
    /\ ordered_inv w H (line t1) (line t2) s' st0' st1'.
Proof.
  intros Hrel Hf1 Hf2 (Hw & Hst0 & Hst1). rewrite stage_turn_two.
  pose proof Hrel as (_ & _ & Hdrain).
  assert (Hdone : forall r st,
    wrote st = true ->
    exists s' st',
      stage_step env r st s = (s', st')
      /\ wrote st' = true /\ writer s' = writer s
      /\ handed (trace s') = handed (trace s)).
  { intros r st Hst. destruct st as [| | |w0|e0|[[]|e0]]; try done.
    - unfold stage_step. rewrite Hdrain. eexists _, _. split; [done|].
      by rewrite handed_note_other.
    - by eexists _, _. }
  destruct i as [|[|i]]; [| |by exists s, st0, st1].
  - destruct (Hdone r1 st0 Hst0) as (s' & st0' & -> & Hst0' & Hw' & Hh').
    eexists _, _, _. split; [done|]. unfold ordered_inv.
    rewrite Hw', Hh'. done.
  - destruct Hst1 as [[-> Hh] | [Hst1 Hh]].
    + unfold stage_step. rewrite Hw.
      rewrite (write_step_reliable env r2 t2) by done.
      eexists _, _, _. split; [done|]. split; [done|]. split; [done|].
      right. split; [done|]. by rewrite handed_note_write, Hh, <- app_assoc.
    + destruct (Hdone r2 st1 Hst1) as (s' & st1' & -> & Hst1' & Hw' & Hh').
      eexists _, _, _. split; [done|]. unfold ordered_inv.
      rewrite Hw', Hh'. by eauto.
Qed.

Lemma ordered_run env w H t1 t2 r1 r2 sch : forall s st0 st1,
  reliable env -> format env r1 = inr t1 -> format env r2 = inr t2 ->
  ordered_inv w H (line t1) (line t2) s st0 st1 ->
  exists s' st0' st1',
    foldl (stage_turn env) (s, [(r1, st0); (r2, st1)]) sch
      = (s', [(r1, st0'); (r2, st1')])
    /\ ordered_inv w H (line t1) (line t2) s' st0' st1'.
Proof.
  induction sch as [|i sch IH]; intros s st0 st1 Hrel Hf1 Hf2 Hinv.
  - by eauto.
  - cbn [foldl].
    destruct (ordered_turn env w H t1 t2 r1 r2 s st0 st1 i Hrel Hf1 Hf2 Hinv)
      as (s' & st0' & st1' & -> & Hinv').
    by apply IH.
Qed.

(** A turn of one of two tasks that both started on a handler without
    a writer before the pipe was connected. *)
Lemma racing2_turn env tr0 t1 t2 r1 r2 s st0 st1 i :
  reliable env -> format env r1 = inr t1 -> format env r2 = inr t2 ->
  racing_inv2 env tr0 (line t1) (line t2) s st0 st1 ->
  exists s' st0' st1',
    stage_turn env (s, [(r1, st0); (r2, st1)]) i
      = (s', [(r1, st0'); (r2, st1')])
    /\ racing_inv2 env tr0 (line t1) (line t2) s' st0' st1'.
Proof.
  intros Hrel Hf1 Hf2 Hinv. rewrite stage_turn_two.
  pose proof Hrel as (Hconn & _ & Hdrain).
  assert (Hdone : forall r st,
    wrote st = true ->
    exists s' st',
      stage_step env r st s = (s', st')
      /\ wrote st' = true /\ writer s' = writer s /\ locked s' = locked s
      /\ handed (trace s') = handed (trace s)
      /\ acquisitions (trace s') = acquisitions (trace s)).
  { intros r st Hst. destruct st as [| | |w0|e0|[[]|e0]]; try done.
    - unfold stage_step. rewrite Hdrain. eexists _, _. split; [done|].
      rewrite handed_note_other by done. unfold note. cbn [trace writer locked].
      rewrite acquisitions_app. cbn. repeat split; (done || lia).
    - by eexists _, _. }
  destruct i as [|[|i]]; [| |by exists s, st0, st1].
  - (* the first task has its turn *)
    destruct Hinv as [(-> & -> & Hw & Hlk & Htr) | (Hst0 & w1 & Hw1 & Hst1)].
    + (* it gets its writer and hands it its line *)
      destruct (Hconn tr0) as [w1 Hw1].
      unfold stage_step. rewrite Htr, Hw1.
      rewrite (write_step_reliable env r1 t1) by done.
      eexists _, _, _. split; [done|]. right. split; [done|].
      exists w1. split; [done|]. left. split; [done|]. split; [done|].
      rewrite handed_note_write. unfold note. cbn [trace].
      rewrite handed_app, !acquisitions_app. cbn.
      rewrite app_nil_r. split; [done|lia].
    + destruct (Hdone r1 st0 Hst0) as (s' & st0' & -> & Hst0' & Hw' & Hl' & Hh' & Ha').
      eexists _, _, _. split; [done|]. right. split; [done|].
      exists w1. split; [done|]. rewrite Hw', Hl', Hh', Ha'. done.
  - (* the second task has its turn *)
    destruct Hinv as [(-> & -> & Hw & Hlk & Htr) | (Hst0 & w1 & Hw1 & Hst1)].
    + (* the first one holds the lock: the second can only wait *)
      unfold stage_step. rewrite Hlk.
      eexists _, _, _. split; [done|]. by left.
    + destruct Hst1 as [(-> & Hlk & Hh & Ha)
                       | [(-> & Hlk & Hh & Ha) | (Hst1 & w2 & Hw2 & Hh & Ha)]].
      * (* the lock is free: the second takes it *)
        unfold stage_step. rewrite Hlk.
        eexists _, _, _. split; [done|]. right. split; [done|].
        exists w1. split; [done|]. right. left. by cbn [locked trace].
      * (* it acquires a writer of its own and hands it its line *)
        destruct (Hconn (trace s)) as [w2 Hw2].
        unfold stage_step. rewrite Hw2.
        rewrite (write_step_reliable env r2 t2) by done.
        eexists _, _, _. split; [done|]. right. split; [done|].
        exists w1. split; [done|]. right. right. split; [done|].
        exists w2. split; [done|].
        rewrite handed_note_write. unfold note. cbn [trace].
        rewrite handed_app, !acquisitions_app, Hh, Ha. cbn.
        rewrite app_nil_r, <- app_assoc. split; [done|lia].
      * destruct (Hdone r2 st1 Hst1)
          as (s' & st1' & -> & Hst1' & Hw' & Hl' & Hh' & Ha').
        eexists _, _, _. split; [done|]. right. split; [done|].
        exists w1. split; [done|]. right. right. split; [done|].
        exists w2. rewrite Hw', Hh', Ha'. done.
Qed.

Lemma racing2_run env tr0 t1 t2 r1 r2 sch : forall s st0 st1,
  reliable env -> format env r1 = inr t1 -> format env r2 = inr t2 ->
  racing_inv2 env tr0 (line t1) (line t2) s st0 st1 ->
  exists s' st0' st1',
    foldl (stage_turn env) (s, [(r1, st0); (r2, st1)]) sch
      = (s', [(r1, st0'); (r2, st1')])
    /\ racing_inv2 env tr0 (line t1) (line t2) s' st0' st1'.
Proof.
  induction sch as [|i sch IH]; intros s st0 st1 Hrel Hf1 Hf2 Hinv.
  - by eauto.
  - cbn [foldl].
    destruct (racing2_turn env tr0 t1 t2 r1 r2 s st0 st1 i Hrel Hf1 Hf2 Hinv)
      as (s' & st0' & st1' & -> & Hinv').
    by apply IH.
Qed.

(** In one turn a task hands the writer nothing, or its whole line in
    one accepted write, and then it is parked at the drain of that
    writer. *)
Lemma stage_step_handed env r st s :
  let '(s', st') := stage_step env r st s in
  handed (trace s') = handed (trace s)
  \/ exists t w,
      format env r = inr t
      /\ handed (trace s') = handed (trace s) ++ [(w, line t)]
      /\ st' = AtDrain w.
Proof.
  assert (Hws : forall w s0,
    let '(s', st') := write_step env r w s0 in
    handed (trace s') = handed (trace s0)
    \/ exists t w,
        format env r = inr t
        /\ handed (trace s') = handed (trace s0) ++ [(w, line t)]
        /\ st' = AtDrain w).
  { intros w s0. unfold write_step.
    destruct (format env r) as [e|t]; [by left|].
    destruct (writer_write _ _ _ _) as [e|[]].
    - left. by rewrite handed_note_other.
    - right. exists t, w. by rewrite handed_note_write. }
  destruct st as [| | |w|e|out]; unfold stage_step.
  - destruct (writer s) as [w|]; [apply Hws|]. destruct (locked s); by left.
  - destruct (locked s); by left.
  - cbn zeta. destruct (connect_write_pipe env (trace s)) as [e|w].
    + left. cbn [trace]. rewrite handed_app. cbn. by rewrite app_nil_r.
    + specialize (Hws w (MkState (Some w) false (trace s ++ [EConnect (inr w)]))).
      destruct (write_step _ _ _ _) as [s' st']. cbn [trace] in Hws.
      rewrite handed_app in Hws. cbn [handed] in Hws.
      by rewrite app_nil_r in Hws.
  - cbn zeta. destruct (writer_drain _ _ _) as [e|[]]; left;
      by rewrite handed_note_other.
  - cbn beta iota zeta. left. by rewrite handed_note_other.
  - by left.
Qed.

End HandlerConcurrent.

(** * Lines are never interleaved *)

Section WholeLines.
Import AsyncStreamHandler.

Implicit Types (env : Env) (s : State) (r : LogRecord) (sch : list nat).

(** Any number of [emit] tasks on one handler, any collaborators, any
    schedule: what the writers were handed is a sequence of whole
    lines, each the line of one of the records, handed to one writer in
    one write. *)
Lemma lines_never_interleave env (rs : list LogRecord) s0 sch :
  exists ws : list (Writer * string),
    handed (trace (shared (exec (perform env) yields sch (gather s0 rs))))
      = handed (trace s0) ++ ((fun p => (p.1, line p.2)) <$> ws)
    /\ Forall (fun p => exists r, r ∈ rs /\ format env r = inr p.2) ws.
Proof.
  rewrite gather_tasks, exec_tasks.
  assert (Hgen : forall ps s,
    Forall (fun p => p.1 ∈ rs) ps ->
    (exists ws : list (Writer * string),
       handed (trace s) = handed (trace s0) ++ ((fun p => (p.1, line p.2)) <$> ws)
       /\ Forall (fun p => exists r, r ∈ rs /\ format env r = inr p.2) ws) ->
    let '(s', ps') := foldl (stage_turn env) (s, ps) sch in
    exists ws : list (Writer * string),
      handed (trace s') = handed (trace s0) ++ ((fun p => (p.1, line p.2)) <$> ws)
      /\ Forall (fun p => exists r, r ∈ rs /\ format env r = inr p.2) ws).
  { induction sch as [|i sch IH]; intros ps s Hps Hinv; [done|].
    cbn [foldl]. unfold stage_turn at 2. cbn [fst snd].
    destruct (ps !! i) as [[r st]|] eqn:Hi; [|by apply IH].
    pose proof (stage_step_handed env r st s) as Hstep.
    destruct (stage_step env r st s) as [s' st'].
    assert (Hr : r ∈ rs).
    { by apply (proj1 (Forall_lookup _ _) Hps i (r, st)). }
    apply IH; [by apply Forall_insert|].
    destruct Hinv as (ws & Hw & Hws).
    destruct Hstep as [-> | (t & w & Ht & -> & _)]; [by eauto|].
    exists (ws ++ [(w, t)]). split.
    - rewrite Hw, fmap_app. cbn. by rewrite app_assoc.
    - apply Forall_app. split; [done|]. apply Forall_singleton. by eauto. }
  specialize (Hgen ((., Fresh) <$> rs) s0).
  destruct (foldl (stage_turn env) _ sch) as [s' ps']. cbn [shared].
  apply Hgen.
  - apply Forall_fmap, Forall_forall. by intros r Hr.
  - exists []. cbn. by rewrite app_nil_r.
Qed.

End WholeLines.

(** * The loop can always bring the tasks to their end *)

Section HandlerCompletion.
Import AsyncStreamHandler.

Implicit Types (env : Env) (s : State) (tr : list Event) (r : LogRecord).

(** [emit] on a handler whose lock is free always ends, and leaves the
    lock free. *)
Lemma emit_total env r wr tr :
  exists wr' tr' out,
    run (perform env) (emit r) (MkState wr false tr)
    = Some (MkState wr' false tr', out).
Proof.
  destruct wr as [w|].
  - rewrite emit_initialized. by eauto.
  - rewrite emit_uninitialized.
    destruct (connect_write_pipe env tr) as [e|w]; [by eauto|].
    rewrite emit_initialized. by eauto.
Qed.

Lemma finished_ended {A} (out : Outcome A) :
  finished (Op := Op) (Resp := Resp) (ended out) = true.
Proof. by destruct out. Qed.

(** Two [emit] tasks, the first running to its end and then the second. *)
Lemma gather_two_complete env r1 r2 wr tr0 :
  exists sch,
    all_finished (exec (perform env) yields (0 :: sch)
                    (gather (MkState wr false tr0) [r1; r2])) = true.
Proof.
  destruct (emit_total env r1 wr tr0) as (wr1 & tr1 & out1 & Hrun1).
  destruct (emit_total env r2 wr1 tr1) as (wr2 & tr2 & out2 & Hrun2).
  destruct (run_turns (perform env) yields _ _ _ _ Hrun1) as [n1 Hn1].
  destruct (run_turns (perform env) yields _ _ _ _ Hrun2) as [n2 Hn2].
  exists (replicate n1 0 ++ replicate n2 1).
  change (0 :: replicate n1 0 ++ replicate n2 1)
    with (replicate (Datatypes.S n1) 0 ++ replicate n2 1).
  rewrite exec_app. unfold gather. cbn [fmap list_fmap].
  rewrite (exec_replicate _ _ _ 0 (emit r1)) by done.
  replace (Datatypes.S n1) with (n1 + 1) by lia.
  rewrite turns_add, Hn1, turns_finished by apply finished_ended.
  cbn [list_insert insert].
  rewrite (exec_replicate _ _ _ 1 (emit r2)) by done.
  rewrite Hn2. unfold all_finished. cbn. by rewrite !finished_ended.
Qed.

(** After the lock was taken, [_init_writer] and the rest of [emit]
    always end and leave the lock free. *)
Lemma connecting_total env r wr lk tr :
  exists wr' tr' out,
    run (perform env) (task_of r AtConnect) (MkState wr lk tr)
    = Some (MkState wr' false tr', out).
Proof.
  cbn. destruct (connect_write_pipe env tr) as [e|w]; cbn; [by eauto|].
  pose proof (emit_initialized env r w false (tr ++ [EConnect (inr w)])) as H.
  cbn in H. rewrite H. by eauto.
Qed.

Lemma waiting_total env r wr tr :
  exists wr' tr' out,
    run (perform env) (task_of r AtLock) (MkState wr false tr)
    = Some (MkState wr' false tr', out).
Proof.
  pose proof (connecting_total env r wr true tr) as H. cbn in *. exact H.
Qed.

(** Two [emit] tasks that both started on a handler without a writer:
    the first ends, then the second. *)
Lemma racing_emits_complete env r1 r2 tr0 :
  exists sch,
    all_finished (exec (perform env) yields (0 :: 1 :: sch)
                    (gather (MkState None false tr0) [r1; r2])) = true.
Proof.
  destruct (connecting_total env r1 None true tr0) as (wr1 & tr1 & out1 & Hrun1).
  destruct (waiting_total env r2 wr1 tr1) as (wr2 & tr2 & out2 & Hrun2).
  destruct (run_turns (perform env) yields _ _ _ _ Hrun1) as [n1 Hn1].
  destruct (run_turns (perform env) yields _ _ _ _ Hrun2) as [n2 Hn2].
  exists (replicate n1 0 ++ replicate n2 1).
  change (0 :: 1 :: replicate n1 0 ++ replicate n2 1)
    with ([0; 1] ++ (replicate n1 0 ++ replicate n2 1)).
  rewrite exec_app, exec_app.
  assert (Hstart : exec (perform env) yields [0; 1]
                     (gather (MkState None false tr0) [r1; r2])
                   = MkLoop (MkState None true tr0)
                            [task_of r1 AtConnect; task_of r2 AtLock]).
  { rewrite gather_tasks, exec_tasks. cbn [foldl fmap list_fmap].
    rewrite stage_turn_two. cbn [stage_step writer locked trace].
    rewrite stage_turn_two. by cbn [stage_step writer locked trace]. }
  rewrite Hstart.
  rewrite (exec_replicate _ _ _ 0 (task_of r1 AtConnect)) by done.
  rewrite Hn1. cbn [list_insert insert].
  rewrite (exec_replicate _ _ _ 1 (task_of r2 AtLock)) by done.
  rewrite Hn2. unfold all_finished. cbn. by rewrite !finished_ended.
Qed.

End HandlerCompletion.

(** * Results: one handler, concurrent callers (C1, C8) *)

Section ConcurrencyResults.
Import AsyncStreamHandler.

(** C1 fails on the code.  [emit] tasks that all had their first turn
    before the pipe was connected all acquire the pipe: those that find
    the lock taken wait for it, and once a task has the lock
    [_init_writer] connects without looking at [self.writer] again.
    Whatever the collaborators answer and however the loop schedules
    the tasks afterwards, when all are finished the pipe was asked for
    once per task, so twice for two tasks; and the loop can bring two
    such tasks to their end. *)
Theorem C1_racing_emits_acquire_twice (env : Env) (tr0 : list Event) :
  (forall (rs : list LogRecord) (sch : list nat),
     let l := exec (perform env) yields (seq 0 (length rs) ++ sch)
                (gather (MkState None false tr0) rs) in
     all_finished l = true ->
     acquisitions (trace (shared l)) = acquisitions tr0 + length rs)
  /\ (forall (r1 r2 : LogRecord) (sch : list nat),
        let l := exec (perform env) yields (0 :: 1 :: sch)
                   (gather (MkState None false tr0) [r1; r2]) in
        all_finished l = true ->
        acquisitions (trace (shared l)) = acquisitions tr0 + 2)
  /\ (forall (r1 r2 : LogRecord),
        exists sch,
          all_finished (exec (perform env) yields (0 :: 1 :: sch)
                          (gather (MkState None false tr0) [r1; r2])) = true).
Proof.
  split; [|split].
  - intros rs sch. apply racing_emits_acquire_each.
  - intros r1 r2 sch. apply (racing_emits_acquire_each env [r1; r2] tr0 sch).
  - intros r1 r2. apply racing_emits_complete.
Qed.

Lemma C1_racing_emits_acquire_twice_witness :
  let l := exec (perform ok_env) yields [0; 1; 0; 1; 0; 1; 1]
             (gather init [xablau; xablau]) in
  all_finished l = true /\ acquisitions (trace (shared l)) = 2.
Proof.
  split; [reflexivity|].
  destruct (C1_racing_emits_acquire_twice ok_env []) as (_ & Htwo & _).
  apply (Htwo xablau xablau [0; 1; 0; 1; 1]). reflexivity.
Defined.

(** C8 holds on a handler that has a writer and fails on one that has
    none.  Two [emit] tasks on one handler, the task of the first record
    having its turn first, collaborators that do not fail.  On a handler
    with writer [w]: however the loop schedules the two afterwards, when
    both are finished [w] was handed the whole line of the first record
    and then the whole line of the second, and no other writer was
    handed anything; and the loop can bring both to their end.  On a
    handler without a writer, the second task starting before the pipe
    is connected (as it does when the two calls are issued one right
    after the other): both tasks acquire the pipe, the writer [w2] of
    the second replaces the writer [w1] of the first, and the line of
    the first record is handed to [w1], the line of the second to [w2];
    when the two writers differ no writer is handed both lines.  In
    every turn of an [emit] task, whatever the collaborators do, the
    task hands nothing or the whole line of its record, in one write to
    one writer, after which it is parked at the drain of that writer; so
    for any number of [emit] tasks and any schedule what the writers
    were handed is a sequence of whole lines of their records.  When the
    second call is made only once the first has returned, a handler
    without a writer acquires one writer and hands it the two lines in
    the order of the calls. *)
Theorem C8_lines_in_order (env : Env) (r1 r2 : LogRecord) (t1 t2 : string)
    (tr0 : list Event) :
  reliable env -> format env r1 = inr t1 -> format env r2 = inr t2 ->
  (forall w,
     (exists sch,
        all_finished (exec (perform env) yields (0 :: sch)
                        (gather (MkState (Some w) false tr0) [r1; r2])) = true)
     /\ forall sch,
         let l := exec (perform env) yields (0 :: sch)
                    (gather (MkState (Some w) false tr0) [r1; r2]) in
         all_finished l = true ->
         handed (trace (shared l))
           = handed tr0 ++ [(w, encode t1 ++ ["010"%byte]);
                            (w, encode t2 ++ ["010"%byte])]
         /\ written_to w (trace (shared l))
            = written_to w tr0 ++ (encode t1 ++ ["010"%byte])
                ++ (encode t2 ++ ["010"%byte]))
  /\ ((exists sch,
         all_finished (exec (perform env) yields (0 :: 1 :: sch)
                         (gather (MkState None false tr0) [r1; r2])) = true)
      /\ forall sch,
          let l := exec (perform env) yields (0 :: 1 :: sch)
                     (gather (MkState None false tr0) [r1; r2]) in
          all_finished l = true ->
          exists w1 w2,
            connect_write_pipe env tr0 = inr w1
            /\ writer (shared l) = Some w2
            /\ acquisitions (trace (shared l)) = acquisitions tr0 + 2
            /\ handed (trace (shared l))
               = handed tr0 ++ [(w1, encode t1 ++ ["010"%byte]);
                                (w2, encode t2 ++ ["010"%byte])]
            /\ (w1 <> w2 ->
                written_to w1 (trace (shared l))
                  = written_to w1 tr0 ++ encode t1 ++ ["010"%byte]
                /\ written_to w2 (trace (shared l))
                   = written_to w2 tr0 ++ encode t2 ++ ["010"%byte]))
  /\ (forall st s,
        let '(s', p') := resume (perform env) yields (task_of r1 st) s in
        handed (trace s') = handed (trace s)
        \/ exists w,
            handed (trace s')
              = handed (trace s) ++ [(w, encode t1 ++ ["010"%byte])]
            /\ p' = task_of r1 (AtDrain w))
  /\ (forall (rs : list LogRecord) (s0 : State) (sch : list nat),
      exists ws : list (Writer * string),
        handed (trace (shared (exec (perform env) yields sch (gather s0 rs))))
          = handed (trace s0)
              ++ ((fun p => (p.1, encode p.2 ++ ["010"%byte])) <$> ws)
        /\ Forall (fun p => exists r, r ∈ rs /\ format env r = inr p.2) ws)
  /\ (exists w s',
        connect_write_pipe env tr0 = inr w
        /\ run (perform env) (emits [r1; r2]) (MkState None false tr0)
           = Some (s', Returned tt)
        /\ writer s' = Some w
        /\ acquisitions (trace s') = acquisitions tr0 + 1
        /\ handed (trace s')
           = handed tr0 ++ [(w, encode t1 ++ ["010"%byte]);
                            (w, encode t2 ++ ["010"%byte])]
        /\ written_to w (trace s')
           = written_to w tr0 ++ (encode t1 ++ ["010"%byte])
               ++ (encode t2 ++ ["010"%byte])).
Proof.
  intros Hrel Hf1 Hf2. split; [|split; [|split; [|split]]].
  - (* a handler that has a writer *)
    intros w. split; [apply gather_two_complete|].
    intros sch. cbn zeta.
    rewrite gather_tasks, exec_tasks. cbn [foldl fmap list_fmap].
    rewrite stage_turn_two. cbn [stage_step writer].
    rewrite (write_step_reliable env r1 t1) by done.
    destruct (ordered_run env w (handed tr0) t1 t2 r1 r2 sch
                (note (EWrite w (line t1) (inr tt)) (MkState (Some w) false tr0))
                (AtDrain w) Fresh Hrel Hf1 Hf2)
      as (s' & st0' & st1' & -> & (Hw & Hst0 & Hst1)).
    { split; [done|]. split; [done|]. left. split; [done|].
      by rewrite handed_note_write. }
    unfold all_finished, tasks. cbn. rewrite !finished_task_of. intros Hfin.
    destruct Hst1 as [[-> _] | [Hst1 Hh]].
    { by destruct st0' as [| | | | |[[]|]]. }
    rewrite <- !line_bytes. split; [done|].
    rewrite (written_to_handed w tr0 _ _ Hh). cbn.
    by rewrite !decide_True, app_nil_r by done.
  - (* a handler without a writer, both tasks started *)
    split; [apply racing_emits_complete|].
    intros sch. cbn zeta.
    rewrite gather_tasks, exec_tasks. cbn [foldl fmap list_fmap].
    rewrite stage_turn_two. cbn [stage_step writer locked trace].
    rewrite stage_turn_two. cbn [stage_step writer locked trace].
    destruct (racing2_run env tr0 t1 t2 r1 r2 sch (MkState None true tr0)
                AtConnect AtLock Hrel Hf1 Hf2)
      as (s' & st0' & st1' & -> & Hinv); [by left|].
    unfold all_finished, tasks. cbn. rewrite !finished_task_of. intros Hfin.
    destruct Hinv as [(-> & _) | (Hst0 & w1 & Hw1 & Hst1)]; [done|].
    destruct Hst1 as [(-> & _) | [(-> & _) | (Hst1 & w2 & Hw2 & Hh & Ha)]];
      [by destruct st0' as [| | | | |[[]|]]..|].
    exists w1, w2. rewrite <- !line_bytes.
    split; [done|]. split; [done|]. split; [done|]. split; [done|].
    intros Hne.
    rewrite (written_to_handed w1 tr0 _ _ Hh), (written_to_handed w2 tr0 _ _ Hh).
    cbn.
    rewrite (decide_True (P := w1 = w1)), (decide_True (P := w2 = w2)) by done.
    rewrite (decide_False (P := w2 = w1)) by (by intros ->).
    rewrite (decide_False (P := w1 = w2)) by done.
    by rewrite !app_nil_r.
  - (* one turn *)
    intros st s. rewrite resume_task_of.
    pose proof (stage_step_handed env r1 st s) as H.
    destruct (stage_step env r1 st s) as [s' st'].
    destruct H as [H | (t & w & Ht & H & ->)]; [by left|].
    right. exists w. split; [|done].
    rewrite H, <- line_bytes. congruence.
  - (* any pool *)
    intros rs s0 sch.
    destruct (lines_never_interleave env rs s0 sch) as (ws & Hh & Hws).
    exists ws. split; [|done]. rewrite Hh. f_equal.
    apply list_fmap_ext. intros i p _. by rewrite line_bytes.
  - (* one call awaited after the other, no writer at the start *)
    destruct Hrel as (Hconn & Hwrite & Hdrain).
    destruct (Hconn tr0) as [w Hw]. exists w. eexists.
    split; [done|]. cbn [emits]. unfold mbind, Co_bind.
    rewrite run_bind, emit_uninitialized, Hw, emit_initialized, Hf1, Hwrite,
      Hdrain.
    rewrite run_bind, emit_initialized, Hf2, Hwrite, Hdrain.
    split; [done|]. cbn [writer trace]. split; [done|].
    rewrite <- !line_bytes.
    assert (Hh : handed (((tr0 ++ [EConnect (inr w)])
                            ++ [EWrite w (line t1) (inr tt); EDrain w (inr tt)])
                           ++ [EWrite w (line t2) (inr tt); EDrain w (inr tt)])
                 = handed tr0 ++ [(w, line t1); (w, line t2)]).
    { rewrite !handed_app. cbn. by rewrite app_nil_r, <- app_assoc. }
    split; [|split; [done|]].
    + rewrite !acquisitions_app. cbn. lia.
    + rewrite (written_to_handed w tr0 _ _ Hh). cbn.
      by rewrite !decide_True, app_nil_r by done.
Qed.

Lemma C8_lines_in_order_witness :
  let l := exec (perform ok_env) yields [0; 1; 0; 1; 0; 1; 1]
             (gather (MkState None false [])
                [record_of "first"; record_of "second"]) in
  all_finished l = true
  /\ writer (shared l) = Some 1
  /\ written_to 0 (trace (shared l))
     = written_to 0 [] ++ encode "first" ++ ["010"%byte]
  /\ written_to 1 (trace (shared l))
     = written_to 1 [] ++ encode "second" ++ ["010"%byte].
Proof.
  split; [reflexivity|]. split; [reflexivity|].
  assert (Hrel : reliable ok_env).
  { split; [|split]; [intros tr; eexists; reflexivity | reflexivity | reflexivity]. }
  destruct (C8_lines_in_order ok_env (record_of "first") (record_of "second")
              "first" "second" [] Hrel eq_refl eq_refl) as (_ & [_ Hrace] & _ & _).
  destruct (Hrace [0; 1; 0; 1; 1] eq_refl) as (w1 & w2 & Hc & Hw & _ & _ & Hsplit).
  cbn in Hc. injection Hc as <-. vm_compute in Hw. injection Hw as <-.
  apply Hsplit. discriminate.
Defined.

End ConcurrencyResults.

(** * The logger *)

Section LoggerTasks.
Import Logger.
Context {H : Type} `{HH : Handler H}.

Implicit Types (s : State H) (h : Ref) (hs rest : list Ref) (st : Stage)
  (ps : list Stage) (sch : list nat).

Lemma logger_run_bind {A B} (p : Co A) (f : A -> Co B) s :
  run perform (bind p f) s =
  match run perform p s with
  | Some (s', Returned a) => run perform (f a) s'
  | Some (s', Raised e) => Some (s', Raised e)
  | None => None
  end.
Proof.
  revert s. induction p as [a|e|o k IH]; intros s; simpl; try done.
  destruct (perform o s) as [[s' x]|]; [apply IH | done].
Qed.

(** [teardown hs], run from its start, goes as [seek] says. *)
Lemma advance_teardown hs s :
  advance perform yields (teardown hs) s
  = let '(s', st') := seek hs s in (s', task_of st').
Proof.
  revert s. induction hs as [|h hs IH]; intros s; [done|].
  cbn. destruct (heap s !! h) as [obj|]; cbn; [|done].
  destruct (h_initialized obj); cbn; [|apply IH].
  destruct (bool_decide (h ∈ guards s)); cbn; [apply IH | done].
Qed.

(** A turn of a [shutdown] task parked at [st] is a step of the stage
    machine. *)
Lemma logger_resume_task_of st s :
  resume perform yields (task_of st) s
  = let '(s', st') := stage_step st s in (s', task_of st').
Proof.
  destruct st as [|hs|h rest|h rest|]; try done.
  - (* Fresh *) apply advance_teardown.
  - (* Seeking *)
    destruct hs as [|h hs]; [done|].
    cbn. destruct (heap s !! h) as [obj|]; cbn; [|done].
    destruct (h_initialized obj); cbn; [|apply advance_teardown].
    destruct (bool_decide (h ∈ guards s)); cbn; [apply advance_teardown | done].
  - (* AtFlush *)
    cbn. destruct (on_handler h_flush h s) as [[s' [e|[]]]|]; cbn; try done.
    apply advance_teardown.
  - (* AtClose *)
    cbn. destruct (on_handler h_close h s) as [[s' [e|[]]]|]; cbn; try done;
      apply advance_teardown.
Qed.

Lemma logger_turn_tasks s ps i :
  turn perform yields (MkLoop s (task_of <$> ps)) i
  = let '(s', ps') := stage_turn (s, ps) i in MkLoop s' (task_of <$> ps').
Proof.
  unfold turn, stage_turn. cbn [pool shared fst snd].
  rewrite list_lookup_fmap.
  destruct (ps !! i) as [st|]; cbn [fmap option_fmap option_map]; [|done].
  rewrite logger_resume_task_of.
  destruct (stage_step st s) as [s' st'].
  by rewrite list_fmap_insert.
Qed.

Lemma logger_exec_tasks sch s ps :
  exec perform yields sch (MkLoop s (task_of <$> ps))
  = let '(s', ps') := foldl stage_turn (s, ps) sch in
    MkLoop s' (task_of <$> ps').
Proof.
  unfold exec. revert s ps. induction sch as [|i sch IH]; intros s ps; [done|].
  cbn [foldl]. rewrite logger_turn_tasks.
  destruct (stage_turn (s, ps) i) as [s' ps']. apply IH.
Qed.

Lemma shutdowns_tasks m s :
  shutdowns m s = MkLoop s (task_of <$> replicate m Fresh).
Proof. unfold shutdowns. by rewrite fmap_replicate. Qed.

End LoggerTasks.

Section LoggerSequential.
Import Logger.

Implicit Types (s : State Mock) (h : Ref) (hs : list Ref) (m : Mock)
  (r : LogRecord).

Lemma same_mock_refl m : same_mock m m.
Proof. by repeat split. Qed.

Lemma same_mock_trans m1 m2 m3 :
  same_mock m1 m2 -> same_mock m2 m3 -> same_mock m1 m3.
Proof.
  intros (?&?&?&?&?) (?&?&?&?&?). repeat split; congruence.
Qed.

Lemma with_heap_id s : with_heap (heap s) s = s.
Proof. by destruct s. Qed.

(** What a call on the mock behind [h] does to the logger. *)
Lemma on_handler_mock s h m c (eff : Mock -> option Exc) :
  heap s !! h = Some m ->
  on_handler (fun m => mock_call c (eff m) m) h s
  = Some (with_heap
            (<[h := MkMock (m_level m) (m_initialized m) (m_handle_effect m)
                           (m_flush_effect m) (m_close_effect m)
                           (m_calls m ++ [c])]> (heap s)) s,
          match eff m with Some e => inl e | None => inr tt end).
Proof.
  intros Hm. unfold on_handler. rewrite Hm. cbn. by destruct (eff m).
Qed.

(** The loop of the dispatch over handlers that are registered once and
    whose [handle] returns: every handler whose threshold admits the
    record receives the record, once, the others receive nothing, and
    the loop counts the former. *)
Lemma dispatch_run r hs : forall s,
  NoDup hs ->
  (forall h, h ∈ hs -> exists m, heap s !! h = Some m /\ m_handle_effect m = None) ->
  exists hp,
    run perform (dispatch hs r) s
      = Some (with_heap hp s, Returned (length (admitted s r hs)))
    /\ length hp = length (heap s)
    /\ forall h m, heap s !! h = Some m ->
        exists m', hp !! h = Some m' /\ same_mock m m'
          /\ m_calls m' = m_calls m ++
               if bool_decide (h ∈ hs) && admits r m then [CHandle r] else [].
Proof.
  induction hs as [|h0 hs IH]; intros s Hnd Hok.
  - exists (heap s). rewrite with_heap_id. split; [done|]. split; [done|].
    intros h m Hm. exists m. rewrite app_nil_r. by auto using same_mock_refl.
  - apply NoDup_cons in Hnd as [Hnotin Hnd].
    destruct (Hok h0) as (m0 & Hm0 & Heff0); [by left|].
    assert (Hlt : h0 < length (heap s)) by (by eapply lookup_lt_Some).
    cbn [dispatch admitted List.filter]. fold (admitted s r hs).
    rewrite Hm0. unfold mbind, Co_bind, ask, call. cbn [bind run perform].
    rewrite Hm0. cbn [fmap option_fmap option_map h_level Mock_handler].
    fold (admits r m0). destruct (admits r m0) eqn:Hadm.
    + (* the handler is contacted *)
      cbn [bind lift run perform h_handle Mock_handler].
      rewrite (on_handler_mock s h0 m0 (CHandle r) m_handle_effect Hm0), Heff0.
      set (m0' := MkMock _ _ _ _ _ _).
      set (s1 := with_heap _ s).
      destruct (IH s1 Hnd) as (hp & Hrun & Hlen & Hhp).
      { intros h Hh. destruct (Hok h) as (m & Hm & Heff); [by right|].
        exists m. split; [|done]. unfold s1. cbn.
        rewrite list_lookup_insert_ne; [done|]. by intros ->. }
      exists hp. cbn [bind]. rewrite logger_run_bind, Hrun. cbn [run mret Co_ret].
      assert (Hadm1 : admitted s1 r hs = admitted s r hs).
      { unfold admitted. apply List.filter_ext_in. intros h Hh.
        unfold s1. cbn. rewrite list_lookup_insert_ne; [done|].
        intros ->. by apply Hnotin, list_elem_of_In. }
      rewrite Hadm1. split; [by destruct s|]. split.
      { rewrite Hlen. unfold s1. cbn. by rewrite length_insert. }
      intros h m Hm. destruct (decide (h = h0)) as [->|Hne].
      * assert (m = m0) as -> by (apply (inj Some); by rewrite <- Hm, <- Hm0).
        destruct (Hhp h0 m0') as (m' & Hm' & Hsame & Hcalls).
        { unfold s1. cbn. by apply list_lookup_insert_eq. }
        exists m'. split; [done|]. split.
        { eapply same_mock_trans; [|done]. by repeat split. }
        rewrite Hcalls. rewrite (bool_decide_eq_false_2 (h0 ∈ hs)) by done.
        rewrite bool_decide_eq_true_2 by left. cbn. fold (admits r m0).
        rewrite Hadm. by rewrite app_nil_r.
      * destruct (Hhp h m) as (m' & Hm' & Hsame & Hcalls).
        { unfold s1. cbn. by rewrite list_lookup_insert_ne. }
        exists m'. split; [done|]. split; [done|]. rewrite Hcalls.
        assert (Hdec : bool_decide (h ∈ h0 :: hs) = bool_decide (h ∈ hs)).
        { apply bool_decide_ext. rewrite elem_of_cons.
          split; [by intros [?|?] | by right]. }
        by rewrite Hdec.
    + (* the handler is passed over *)
      destruct (IH s Hnd) as (hp & Hrun & Hlen & Hhp).
      { intros h Hh. apply Hok. by right. }
      exists hp. split; [done|]. split; [done|].
      intros h m Hm. destruct (Hhp h m Hm) as (m' & Hm' & Hsame & Hcalls).
      exists m'. split; [done|]. split; [done|]. rewrite Hcalls.
      destruct (decide (h = h0)) as [->|Hne].
      * assert (m = m0) as -> by (apply (inj Some); by rewrite <- Hm, <- Hm0). rewrite Hadm.
        by rewrite !andb_false_r.
      * assert (Hdec : bool_decide (h ∈ h0 :: hs) = bool_decide (h ∈ hs)).
        { apply bool_decide_ext. rewrite elem_of_cons.
          split; [by intros [?|?] | by right]. }
        by rewrite Hdec.
Qed.

(** What [teardown] does with the first handler of its list. *)
Lemma teardown_cons_run h0 hs s m0 :
  heap s !! h0 = Some m0 ->
  run perform (teardown (h0 :: hs)) s =
  if m_initialized m0 && negb (bool_decide (h0 ∈ guards s)) then
    let flushed :=
      MkMock (m_level m0) (m_initialized m0) (m_handle_effect m0)
             (m_flush_effect m0) (m_close_effect m0) (m_calls m0 ++ [CFlush]) in
    let closed :=
      MkMock (m_level m0) (m_initialized m0) (m_handle_effect m0)
             (m_flush_effect m0) (m_close_effect m0)
             (m_calls m0 ++ [CFlush; CClose]) in
    let s1 := with_guards (h0 :: guards s) s in
    match m_flush_effect m0 with
    | Some _ =>
        run perform (teardown hs) (with_heap (<[h0 := flushed]> (heap s)) s1)
    | None =>
        run perform (teardown hs) (with_heap (<[h0 := closed]> (heap s)) s1)
    end
  else run perform (teardown hs) s.
Proof.
  intros Hm0.
  assert (Hlt : h0 < length (heap s)) by (by eapply lookup_lt_Some).
  cbn [teardown]. unfold mbind, Co_bind, ask, call. cbn [bind run perform].
  rewrite Hm0. cbn [fmap option_fmap option_map h_initialized Mock_handler].
  destruct (m_initialized m0) eqn:Hini; cbn [andb bind run]; [|done].
  cbn [perform].
  destruct (bool_decide (h0 ∈ guards s)); cbn [negb bind run]; [done|].
  cbn [try_except lift bind run perform h_flush h_close Mock_handler].
  rewrite (on_handler_mock _ h0 m0 CFlush m_flush_effect) by done.
  rewrite Hini.
  destruct (m_flush_effect m0) as [e|] eqn:Hfl; cbn [bind try_except run];
    [done|].
  cbn [perform h_close Mock_handler].
  erewrite (on_handler_mock _ h0 _ CClose m_close_effect).
  2: { cbn. by apply list_lookup_insert_eq. }
  cbn. rewrite list_insert_insert_eq, <- app_assoc. cbn.
  by destruct (m_close_effect m0).
Qed.

(** The tear-down loop over mocks: it always returns; a handler gets its
    calls when it is initialized and nobody was in charge of it, and
    then it is in charge of this call. *)
Lemma teardown_run hs : forall s,
  (forall h, h ∈ hs -> h < length (heap s)) ->
  exists s',
    run perform (teardown hs) s = Some (s', Returned tt)
    /\ handlers s' = handlers s
    /\ length (heap s') = length (heap s)
    /\ (forall h, h ∈ guards s -> h ∈ guards s')
    /\ forall h m, heap s !! h = Some m ->
        exists m', heap s' !! h = Some m' /\ same_mock m m'
          /\ m_calls m' = m_calls m ++
               if bool_decide (h ∈ hs) && negb (bool_decide (h ∈ guards s))
               then teardown_calls m else [].
Proof.
  induction hs as [|h0 hs IH]; intros s Hok.
  - exists s. repeat split; try done.
    intros h m Hm. exists m. rewrite app_nil_r. by auto using same_mock_refl.
  - assert (exists m0, heap s !! h0 = Some m0) as [m0 Hm0].
    { apply lookup_lt_is_Some_2, Hok. by left. }
    rewrite (teardown_cons_run h0 hs s m0 Hm0).
    assert (Hdec : forall h, h ≠ h0 ->
              bool_decide (h ∈ h0 :: hs) = bool_decide (h ∈ hs)).
    { intros h Hne. apply bool_decide_ext. rewrite elem_of_cons.
      split; [by intros [?|?] | by right]. }
    destruct (m_initialized m0 && negb (bool_decide (h0 ∈ guards s))) eqn:Hmine.
    + (* this call takes charge of the handler *)
      apply andb_true_iff in Hmine as [Hini Hfree].
      apply negb_true_iff, bool_decide_eq_false in Hfree.
      cbn zeta.
      set (calls := match m_flush_effect m0 with
                    | Some _ => [CFlush] | None => [CFlush; CClose] end).
      set (m1 := MkMock (m_level m0) (m_initialized m0) (m_handle_effect m0)
                        (m_flush_effect m0) (m_close_effect m0)
                        (m_calls m0 ++ calls)).
      set (s1 := with_heap (<[h0 := m1]> (heap s))
                           (with_guards (h0 :: guards s) s)).
      assert (Hrun : forall X,
        match m_flush_effect m0 with
        | Some _ => run perform (teardown hs)
            (with_heap (<[h0 := MkMock (m_level m0) (m_initialized m0)
                 (m_handle_effect m0) (m_flush_effect m0) (m_close_effect m0)
                 (m_calls m0 ++ [CFlush])]> (heap s))
               (with_guards (h0 :: guards s) s))
        | None => run perform (teardown hs)
            (with_heap (<[h0 := MkMock (m_level m0) (m_initialized m0)
                 (m_handle_effect m0) (m_flush_effect m0) (m_close_effect m0)
                 (m_calls m0 ++ [CFlush; CClose])]> (heap s))
               (with_guards (h0 :: guards s) s))
        end = X <-> run perform (teardown hs) s1 = X).
      { intros X. unfold s1, m1, calls. by destruct (m_flush_effect m0). }
      destruct (IH s1) as (s' & Hs' & Hh & Hlen & Hg & Hhp).
      { intros h Hin. unfold s1. cbn. rewrite length_insert. apply Hok. by right. }
      exists s'. split; [by apply Hrun|]. split; [done|]. split.
      { rewrite Hlen. unfold s1. cbn. by rewrite length_insert. }
      split.
      { intros h Hin. apply Hg. unfold s1. cbn. by right. }
      intros h m Hm. destruct (decide (h = h0)) as [->|Hne].
      * assert (m = m0) as -> by (apply (inj Some); by rewrite <- Hm, <- Hm0).
        destruct (Hhp h0 m1) as (m' & Hm' & Hsame & Hcalls).
        { unfold s1. cbn. apply list_lookup_insert_eq. by eapply lookup_lt_Some. }
        exists m'. split; [done|]. split.
        { eapply same_mock_trans; [|done]. by repeat split. }
        rewrite Hcalls.
        rewrite (bool_decide_eq_true_2 (h0 ∈ guards s1)) by (unfold s1; cbn; left).
        rewrite andb_false_r, app_nil_r.
        rewrite bool_decide_eq_true_2 by left.
        rewrite (bool_decide_eq_false_2 (h0 ∈ guards s)) by done.
        cbn. unfold teardown_calls, calls. rewrite Hini.
        by destruct (m_flush_effect m0).
      * destruct (Hhp h m) as (m' & Hm' & Hsame & Hcalls).
        { unfold s1. cbn. by rewrite list_lookup_insert_ne. }
        exists m'. split; [done|]. split; [done|]. rewrite Hcalls, Hdec by done.
        assert (Hg1 : bool_decide (h ∈ guards s1) = bool_decide (h ∈ guards s)).
        { apply bool_decide_ext. unfold s1. cbn. rewrite elem_of_cons.
          split; [by intros [?|?] | by right]. }
        by rewrite Hg1.
    + (* the handler is skipped *)
      destruct (IH s) as (s' & Hs' & Hh & Hlen & Hg & Hhp).
      { intros h Hin. apply Hok. by right. }
      exists s'. split; [done|]. split; [done|]. split; [done|]. split; [done|].
      intros h m Hm. destruct (Hhp h m Hm) as (m' & Hm' & Hsame & Hcalls).
      exists m'. split; [done|]. split; [done|]. rewrite Hcalls.
      destruct (decide (h = h0)) as [->|Hne]; [|by rewrite Hdec].
      assert (m = m0) as -> by (apply (inj Some); by rewrite <- Hm, <- Hm0).
      rewrite (bool_decide_eq_true_2 (h0 ∈ h0 :: hs)) by left.
      apply andb_false_iff in Hmine as [Hini|Hheld].
      * unfold teardown_calls. rewrite Hini.
        by destruct (_ && _), (_ && _).
      * rewrite Hheld. by rewrite !andb_false_r.
Qed.

End LoggerSequential.

(** * Results: dispatch and shutdown of the logger (C4, C7) *)

Section LoggerResults.
Import Logger.

Implicit Types (s : State Mock) (h : Ref) (hs : list Ref) (m : Mock)
  (r : LogRecord).

(** C4: a logger whose handlers are registered once each and whose
    handlers' [handle] returns.  Dispatching a record raises the
    "no handlers" error when no registered handler has a threshold at or
    below the level of the record, and returns normally otherwise; in
    both cases every registered handler whose threshold admits the
    record has received exactly one [handle(record)] call more, and
    every other registered handler none. *)
Theorem C4_dispatch_routes s r :
  NoDup (handlers s) ->
  (forall h, h ∈ handlers s ->
     exists m, heap s !! h = Some m /\ m_handle_effect m = None) ->
  exists s',
    run perform (call_handlers r) s
      = Some (s', match admitted s r (handlers s) with
                  | [] => Raised NoHandlersFound
                  | _ => Returned tt
                  end)
    /\ forall h m, h ∈ handlers s -> heap s !! h = Some m ->
        exists m', heap s' !! h = Some m'
          /\ m_calls m' = m_calls m ++ if admits r m then [CHandle r] else [].
Proof.
  intros Hnd Hok.
  destruct (dispatch_run r (handlers s) s Hnd Hok) as (hp & Hrun & Hlen & Hhp).
  exists (with_heap hp s). split.
  - unfold call_handlers, mbind, Co_bind, ask, call. cbn [bind run perform].
    rewrite logger_run_bind, Hrun.
    by destruct (admitted s r (handlers s)).
  - intros h m Hh Hm. destruct (Hhp h m Hm) as (m' & Hm' & _ & Hcalls).
    exists m'. split; [done|]. rewrite Hcalls.
    by rewrite bool_decide_eq_true_2.
Qed.

Lemma C4_dispatch_routes_witness :
  exists s',
    run perform (call_handlers (MkLogRecord 20 "aiologger" "" 17 "Xablau!" None None))
      (MkState "aiologger" 0 false [] [0; 1] []
         [MkMock 10 true None None None []; MkMock 30 true None None None []])
      = Some (s', Returned tt)
    /\ (exists m', heap s' !! 0 = Some m'
         /\ m_calls m' = [CHandle (MkLogRecord 20 "aiologger" "" 17 "Xablau!" None None)])
    /\ (exists m', heap s' !! 1 = Some m' /\ m_calls m' = []).
Proof.
  set (r := MkLogRecord 20 "aiologger" "" 17 "Xablau!" None None).
  set (s := MkState "aiologger" 0 false [] [0; 1] []
         [MkMock 10 true None None None []; MkMock 30 true None None None []]).
  destruct (C4_dispatch_routes s r) as (s' & Hrun & Hcalls).
  - apply NoDup_ListNoDup. repeat constructor; cbn; intuition lia.
  - intros h Hh. apply list_elem_of_In in Hh.
    destruct Hh as [<-|[<-|[]]]; eexists; split; reflexivity.
  - exists s'. split; [exact Hrun|]. split.
    + apply (Hcalls 0 (MkMock 10 true None None None [])); [|reflexivity].
      apply list_elem_of_In. cbn. auto.
    + apply (Hcalls 1 (MkMock 30 true None None None [])); [|reflexivity].
      apply list_elem_of_In. cbn. auto.
Defined.

(** C7: [shutdown()] on a logger nobody has shut down yet, whatever the
    [flush] and [close] of its handlers raise: the call returns
    normally, and every registered handler that is initialized has
    received its [flush()], and its [close()] after a flush that
    returned, each once; the others received nothing. *)
Theorem C7_shutdown_completes s :
  guards s = [] ->
  (forall h, h ∈ handlers s -> h < length (heap s)) ->
  exists s',
    run perform shutdown s = Some (s', Returned tt)
    /\ forall h m, h ∈ handlers s -> heap s !! h = Some m ->
        exists m', heap s' !! h = Some m'
          /\ m_calls m' = m_calls m ++ teardown_calls m.
Proof.
  intros Hg Hok.
  destruct (teardown_run (handlers s) s Hok) as (s' & Hrun & _ & _ & _ & Hhp).
  exists s'. split; [done|].
  intros h m Hh Hm. destruct (Hhp h m Hm) as (m' & Hm' & _ & Hcalls).
  exists m'. split; [done|]. rewrite Hcalls, Hg.
  rewrite bool_decide_eq_true_2 by done.
  by rewrite bool_decide_eq_false_2 by apply not_elem_of_nil.
Qed.

Lemma C7_shutdown_completes_witness :
  exists s',
    run perform shutdown
      (MkState "aiologger" 0 false [] [0; 1] []
         [MkMock 0 true None (Some (External 1)) None [];
          MkMock 0 true None None None []])
      = Some (s', Returned tt)
    /\ (exists m', heap s' !! 0 = Some m' /\ m_calls m' = [CFlush])
    /\ (exists m', heap s' !! 1 = Some m' /\ m_calls m' = [CFlush; CClose]).
Proof.
  set (s := MkState "aiologger" 0 false [] [0; 1] []
         [MkMock 0 true None (Some (External 1)) None [];
          MkMock 0 true None None None []]).
  destruct (C7_shutdown_completes s) as (s' & Hrun & Hcalls).
  - reflexivity.
  - intros h Hh. apply list_elem_of_In in Hh. cbn in *. lia.
  - exists s'. split; [exact Hrun|]. split.
    + apply (Hcalls 0 (MkMock 0 true None (Some (External 1)) None []));
        [|reflexivity].
      apply list_elem_of_In. cbn. auto.
    + apply (Hcalls 1 (MkMock 0 true None None None [])); [|reflexivity].
      apply list_elem_of_In. cbn. auto.
Defined.

End LoggerResults.

(** * Concurrent calls of [shutdown] *)

Section ShutdownConcurrent.
Import Logger.

Implicit Types (s : State Mock) (h : Ref) (hs rest : list Ref) (m : Mock)
  (st : Stage) (ps : list Stage) (sch : list nat) (f : Stage -> nat).

Lemma parked_insert f ps i st st' :
  ps !! i = Some st ->
  parked f (<[i := st']> ps) + f st = parked f ps + f st'.
Proof.
  unfold parked. revert i. induction ps as [|p ps IH]; intros [|i] Hi;
    (simplify_eq/=); [lia|].
  specialize (IH i Hi). lia.
Qed.

Lemma parked_ge f ps i st : ps !! i = Some st -> f st <= parked f ps.
Proof.
  intros Hi. apply sum_list_with_in. by eapply list_elem_of_lookup_2.
Qed.

Lemma parked_same f ps i st st' :
  ps !! i = Some st -> f st' = f st ->
  parked f (<[i := st']> ps) = parked f ps.
Proof. intros Hi Hf. pose proof (parked_insert f ps i st st' Hi). lia. Qed.

(** Where [seek] stops. *)
Lemma seek_spec hs : forall s,
  (forall h, h ∈ hs -> h < length (heap s)) ->
  (seek hs s = (s, Done)
   /\ forall h m, h ∈ hs -> heap s !! h = Some m ->
        m_initialized m = true -> h ∈ guards s)
  \/ (exists h' rest' m',
        seek hs s = (with_guards (h' :: guards s) s, AtFlush h' rest')
        /\ (h' ∉ guards s) /\ heap s !! h' = Some m' /\ m_initialized m' = true
        /\ (forall h, h ∈ rest' -> h ∈ hs)
        /\ forall h m, h ∈ hs -> heap s !! h = Some m ->
             m_initialized m = true -> h ∈ guards s \/ h = h' \/ h ∈ rest').
Proof.
  induction hs as [|h0 hs IH]; intros s Hok.
  - left. split; [done|]. intros h m Hh. by apply elem_of_nil in Hh.
  - assert (exists m0, heap s !! h0 = Some m0) as [m0 Hm0].
    { apply lookup_lt_is_Some_2, Hok. by left. }
    cbn [seek]. rewrite Hm0. cbn [h_initialized Mock_handler].
    assert (Hskip : (m_initialized m0 = false \/ h0 ∈ guards s) ->
      (seek hs s = (s, Done)
       /\ forall h m, h ∈ h0 :: hs -> heap s !! h = Some m ->
            m_initialized m = true -> h ∈ guards s)
      \/ (exists h' rest' m',
            seek hs s = (with_guards (h' :: guards s) s, AtFlush h' rest')
            /\ (h' ∉ guards s) /\ heap s !! h' = Some m' /\ m_initialized m' = true
            /\ (forall h, h ∈ rest' -> h ∈ h0 :: hs)
            /\ forall h m, h ∈ h0 :: hs -> heap s !! h = Some m ->
                 m_initialized m = true -> h ∈ guards s \/ h = h' \/ h ∈ rest')).
    { intros Hwhy.
      assert (Hh0 : forall m, heap s !! h0 = Some m ->
                      m_initialized m = true -> h0 ∈ guards s).
      { intros m Hm Hini. destruct Hwhy as [Hno|?]; [|done].
        assert (m = m0) as -> by (apply (inj Some); by rewrite <- Hm, <- Hm0).
        congruence. }
      destruct (IH s) as [[Hseek Hall] | (h' & rest' & m' & Hseek & ? & ? & ? & Hsub & Hall)].
      { intros h Hh. apply Hok. by right. }
      - left. split; [done|]. intros h m Hh Hm Hini.
        apply elem_of_cons in Hh as [->|Hh]; [by eapply Hh0 | by eapply Hall].
      - right. exists h', rest', m'. repeat split; try done.
        + intros h Hh. right. by apply Hsub.
        + intros h m Hh Hm Hini.
          apply elem_of_cons in Hh as [->|Hh]; [left; by eapply Hh0 | by eapply Hall]. }
    destruct (m_initialized m0) eqn:Hini; [|apply Hskip; by left].
    destruct (bool_decide (h0 ∈ guards s)) eqn:Hg.
    { apply bool_decide_eq_true in Hg. apply Hskip. by right. }
    apply bool_decide_eq_false in Hg.
    right. exists h0, hs, m0. repeat split; try done.
    + intros h Hh. by right.
    + intros h m Hh Hm Hini'.
      apply elem_of_cons in Hh as [->|Hh]; [right; by left | right; by right].
Qed.

(** What does not concern handler [h] leaves its invariant alone. *)
Lemma torn_once_frame s0 s s' ps ps' h :
  heap s' !! h = heap s !! h ->
  (h ∈ guards s' <-> h ∈ guards s) ->
  parked (in_flush h) ps' = parked (in_flush h) ps ->
  parked (in_close h) ps' = parked (in_close h) ps ->
  torn_once s0 s ps h -> torn_once s0 s' ps' h.
Proof.
  intros Hheap Hg Hf Hc Hinv m0 Hm0.
  destruct (Hinv m0 Hm0) as (m & Hm & Hsame & Hcase).
  exists m. rewrite Hheap, Hf, Hc. split; [done|]. split; [done|].
  by rewrite (bool_decide_ext _ _ Hg).
Qed.

Lemma passed_mono s0 s s' st :
  (forall h, h ∈ guards s -> h ∈ guards s') ->
  passed s0 s st -> passed s0 s' st.
Proof.
  intros Hg (Hval & Hall & Hat). split; [done|]. split.
  - intros h m0 Hh Hm0 Hini. destruct (Hall h m0 Hh Hm0 Hini); by auto.
  - destruct st; try done; destruct Hat; by auto.
Qed.

Lemma in_flush_other h h' rest : h' ≠ h -> in_flush h (AtFlush h' rest) = 0.
Proof. intros Hne. cbn. by rewrite bool_decide_eq_false_2. Qed.

Lemma in_close_other h h' rest : h' ≠ h -> in_close h (AtClose h' rest) = 0.
Proof. intros Hne. cbn. by rewrite bool_decide_eq_false_2. Qed.

Lemma in_flush_self h rest : in_flush h (AtFlush h rest) = 1.
Proof. cbn. by rewrite bool_decide_eq_true_2. Qed.

Lemma in_close_self h rest : in_close h (AtClose h rest) = 1.
Proof. cbn. by rewrite bool_decide_eq_true_2. Qed.

(** A task that looks for its next handler keeps the invariant. *)
Lemma inv_seek s0 s ps i st :
  shutdown_inv s0 s ps -> ps !! i = Some st ->
  (forall h, in_flush h st = 0 /\ in_close h st = 0) ->
  let '(s', st') := seek (remaining (handlers s0) st) s in
  shutdown_inv s0 s' (<[i := st']> ps).
Proof.
  intros (Hh & Hlen & Htorn & Hpassed) Hi Hfree.
  pose proof (proj1 (Forall_lookup _ _) Hpassed i st Hi) as (Hval & Hall & _).
  assert (Hini : forall h m0 m, heap s0 !! h = Some m0 -> heap s !! h = Some m ->
            m_initialized m = m_initialized m0).
  { intros h m0 m Hm0 Hm. destruct (Htorn h m0 Hm0) as (m' & Hm' & Hsame & _).
    assert (m' = m) as -> by (apply (inj Some); by rewrite <- Hm, <- Hm').
    by destruct Hsame as (_ & -> & _). }
  destruct (seek_spec (remaining (handlers s0) st) s)
    as [[-> Hdone] | (h' & rest' & m' & -> & Hfresh & Hm' & Hini' & Hsub & Hnext)].
  { intros h Hin. rewrite Hlen. by apply Hval. }
  - (* nothing is left to do *)
    split; [done|]. split; [done|]. split.
    + intros h. destruct (Hfree h) as [Hf Hc].
      apply (torn_once_frame s0 s _ ps); [done | done | | | apply Htorn];
        by eapply parked_same.
    + apply Forall_insert; [done|]. split; [|split]; [| |done].
      * intros h Hin. by apply elem_of_nil in Hin.
      * intros h m0 Hin Hm0 Hinit. left.
        destruct (Hall h m0 Hin Hm0 Hinit) as [?|Hrem]; [done|].
        destruct (Htorn h m0 Hm0) as (m & Hm & _).
        eapply Hdone; [done | done |]. by rewrite (Hini h m0 m).
  - (* the task takes charge of [h'] *)
    assert (Hlt' : h' < length (heap s0)).
    { rewrite <- Hlen. by eapply lookup_lt_Some. }
    split; [done|]. split; [done|]. split.
    + intros h. destruct (Hfree h) as [Hf Hc].
      destruct (decide (h = h')) as [->|Hne].
      * intros m0 Hm0. destruct (Htorn h' m0 Hm0) as (m & Hm & Hsame & Hcase).
        rewrite bool_decide_eq_false_2 in Hcase by done.
        destruct Hcase as (Hpf & Hpc & Hcalls).
        exists m. split; [done|]. split; [done|].
        rewrite bool_decide_eq_true_2 by (cbn; left).
        split.
        { rewrite <- (Hini h' m0 m) by done.
          assert (m = m') as -> by (apply (inj Some); by rewrite <- Hm, <- Hm').
          done. }
        left. split; [|split]; [| |done].
        -- pose proof (parked_insert (in_flush h') ps i st (AtFlush h' rest') Hi).
           rewrite in_flush_self in *. lia.
        -- rewrite (parked_same _ ps i st); [done | done |]. by rewrite Hc.
      * apply (torn_once_frame s0 s _ ps); [done | | | | apply Htorn].
        -- cbn. rewrite elem_of_cons. split; [by intros [?|?] | by right].
        -- eapply parked_same; [done|]. by rewrite Hf, in_flush_other.
        -- eapply parked_same; [done|]. by rewrite Hc.
    + apply Forall_insert.
      * eapply Forall_impl; [done|]. intros st' Hst'.
        eapply passed_mono; [|done]. intros h Hin. cbn. by right.
      * split; [|split].
        -- intros h Hin. apply Hval. by apply Hsub.
        -- intros h m0 Hin Hm0 Hinit. cbn [guards with_guards remaining].
           destruct (Hall h m0 Hin Hm0 Hinit) as [?|Hrem]; [left; by right|].
           destruct (Htorn h m0 Hm0) as (m & Hm & _).
           destruct (Hnext h m Hrem Hm) as [?|[->|?]];
             [by rewrite (Hini h m0 m) | left; by right | left; by left | by right].
        -- split; [cbn; by left | done].
Qed.

(** The mock behind a valid reference. *)
Lemma heap_valid s0 h : h < length (heap s0) -> exists m0, heap s0 !! h = Some m0.
Proof. intros Hlt. by apply lookup_lt_is_Some_2. Qed.

(** A task whose [flush] completes keeps the invariant: it goes on to
    the [close] when the flush returned, to the next handler when it
    raised. *)
Lemma inv_flush s0 s ps i h rest :
  shutdown_inv s0 s ps -> ps !! i = Some (AtFlush h rest) ->
  exists s1 res,
    on_handler h_flush h s = Some (s1, res)
    /\ shutdown_inv s0 s1
         (<[i := match res with
                 | inr _ => AtClose h rest
                 | inl _ => Seeking rest
                 end]> ps).
Proof.
  intros (Hh & Hlen & Htorn & Hpassed) Hi.
  pose proof (proj1 (Forall_lookup _ _) Hpassed i _ Hi) as (Hval & Hall & Hg & Hlt).
  destruct (heap_valid s0 h Hlt) as [m0 Hm0].
  destruct (Htorn h m0 Hm0) as (m & Hm & Hsame & Hcase).
  rewrite bool_decide_eq_true_2 in Hcase by done.
  destruct Hcase as (Hinit & Hcase).
  pose proof (parked_ge (in_flush h) ps i _ Hi) as Hge.
  rewrite in_flush_self in Hge.
  destruct Hcase as [(Hpf & Hpc & Hcalls) | [(Hpf & _) | (Hpf & _)]]; [|lia|lia].
  cbn [h_flush Mock_handler].
  rewrite (on_handler_mock s h m CFlush m_flush_effect Hm).
  set (mf := MkMock _ _ _ _ _ _). set (s1 := with_heap _ s).
  assert (Heff : m_flush_effect m = m_flush_effect m0)
    by (by destruct Hsame as (_ & _ & _ & -> & _)).
  assert (Hsame_f : same_mock m0 mf).
  { destruct Hsame as (?&?&?&?&?). by repeat split. }
  assert (Hlt_s : h < length (heap s)) by (by eapply lookup_lt_Some).
  assert (Hothers : forall st', (forall h', h' ≠ h -> in_flush h' st' = 0 /\ in_close h' st' = 0) ->
            forall h', h' ≠ h -> torn_once s0 s1 (<[i := st']> ps) h').
  { intros st' Hst' h' Hne. destruct (Hst' h' Hne) as [Hf Hc].
    apply (torn_once_frame s0 s _ ps); [| done | | | apply Htorn].
    - unfold s1. cbn. by apply list_lookup_insert_ne.
    - eapply parked_same; [done|]. by rewrite Hf, in_flush_other.
    - eapply parked_same; [done|]. by rewrite Hc. }
  assert (Hrest : forall st',
            remaining (handlers s0) st' = rest ->
            match st' with
            | AtFlush h' _ | AtClose h' _ => h' = h
            | _ => True
            end ->
            Forall (passed s0 s1) (<[i := st']> ps)).
  { intros st' Hrem Hat. apply Forall_insert.
    - eapply Forall_impl; [done|]. intros st'' Hst''.
      by eapply passed_mono; [|done].
    - split; [|split].
      + by rewrite Hrem.
      + by rewrite Hrem.
      + destruct st'; try done; by subst. }
  eexists _, _. split; [done|].
  destruct (m_flush_effect m) as [e|] eqn:Hfl.
  - (* the flush raised *)
    split; [done|]. split; [unfold s1; cbn; by rewrite length_insert|].
    split; [|by apply Hrest].
    intros h'. destruct (decide (h' = h)) as [->|Hne]; [|by apply Hothers].
    intros m0' Hm0'.
    assert (m0' = m0) as -> by (apply (inj Some); by rewrite <- Hm0, <- Hm0').
    exists mf. split; [unfold s1; cbn; by apply list_lookup_insert_eq|].
    split; [done|]. rewrite bool_decide_eq_true_2 by done.
    split; [done|]. right. right.
    pose proof (parked_insert (in_flush h) ps i _ (Seeking rest) Hi) as Hins.
    rewrite in_flush_self in Hins. cbn [in_flush] in Hins.
    split; [lia|]. split.
    + rewrite (parked_same _ ps i (AtFlush h rest)); done.
    + unfold mf. cbn. rewrite Hcalls. unfold teardown_calls.
      by rewrite Hinit, <- Heff.
  - (* the flush returned *)
    split; [done|]. split; [unfold s1; cbn; by rewrite length_insert|].
    split; [|by apply Hrest].
    intros h'. destruct (decide (h' = h)) as [->|Hne].
    2: { apply Hothers; [|done]. intros h'' Hne'. cbn [in_flush].
         by rewrite in_close_other. }
    intros m0' Hm0'.
    assert (m0' = m0) as -> by (apply (inj Some); by rewrite <- Hm0, <- Hm0').
    exists mf. split; [unfold s1; cbn; by apply list_lookup_insert_eq|].
    split; [done|]. rewrite bool_decide_eq_true_2 by done.
    split; [done|]. right. left.
    pose proof (parked_insert (in_flush h) ps i _ (AtClose h rest) Hi) as Hins.
    pose proof (parked_insert (in_close h) ps i _ (AtClose h rest) Hi) as Hins'.
    rewrite in_flush_self in Hins. rewrite in_close_self in Hins'.
    cbn [in_flush in_close] in Hins, Hins'.
    split; [lia|]. split; [lia|]. split; [|congruence].
    unfold mf. cbn. by rewrite Hcalls.
Qed.

(** A task whose [close] completes keeps the invariant and goes on to
    the next handler. *)
Lemma inv_close s0 s ps i h rest :
  shutdown_inv s0 s ps -> ps !! i = Some (AtClose h rest) ->
  exists s1 res,
    on_handler h_close h s = Some (s1, res)
    /\ shutdown_inv s0 s1 (<[i := Seeking rest]> ps).
Proof.
  intros (Hh & Hlen & Htorn & Hpassed) Hi.
  pose proof (proj1 (Forall_lookup _ _) Hpassed i _ Hi) as (Hval & Hall & Hg & Hlt).
  destruct (heap_valid s0 h Hlt) as [m0 Hm0].
  destruct (Htorn h m0 Hm0) as (m & Hm & Hsame & Hcase).
  rewrite bool_decide_eq_true_2 in Hcase by done.
  destruct Hcase as (Hinit & Hcase).
  pose proof (parked_ge (in_close h) ps i _ Hi) as Hge.
  rewrite in_close_self in Hge.
  destruct Hcase as [(_ & Hpc & _) | [(Hpf & Hpc & Hcalls & Hfl) | (_ & Hpc & _)]];
    [lia| |lia].
  cbn [h_close Mock_handler].
  rewrite (on_handler_mock s h m CClose m_close_effect Hm).
  set (mc := MkMock _ _ _ _ _ _). set (s1 := with_heap _ s).
  assert (Hsame_c : same_mock m0 mc).
  { destruct Hsame as (?&?&?&?&?). by repeat split. }
  assert (Hlt_s : h < length (heap s)) by (by eapply lookup_lt_Some).
  eexists _, _. split; [done|].
  split; [done|]. split; [unfold s1; cbn; by rewrite length_insert|]. split.
  - intros h'. destruct (decide (h' = h)) as [->|Hne].
    + intros m0' Hm0'.
      assert (m0' = m0) as -> by (apply (inj Some); by rewrite <- Hm0, <- Hm0').
      exists mc. split; [unfold s1; cbn; by apply list_lookup_insert_eq|].
      split; [done|]. rewrite bool_decide_eq_true_2 by done.
      split; [done|]. right. right.
      pose proof (parked_insert (in_close h) ps i _ (Seeking rest) Hi) as Hins.
      rewrite in_close_self in Hins. cbn [in_close] in Hins.
      split; [|split; [lia|]].
      * rewrite (parked_same _ ps i (AtClose h rest)); done.
      * unfold mc. cbn. rewrite Hcalls, <- app_assoc. unfold teardown_calls.
        by rewrite Hinit, Hfl.
    + apply (torn_once_frame s0 s _ ps); [| done | | | apply Htorn].
      * unfold s1. cbn. by apply list_lookup_insert_ne.
      * eapply parked_same; [done|]. done.
      * eapply parked_same; [done|]. by rewrite in_close_other.
  - apply Forall_insert.
    + eapply Forall_impl; [done|]. intros st'' Hst''.
      by eapply passed_mono; [|done].
    + by split; [|split].
Qed.

(** Every turn of every task keeps the invariant. *)
Lemma inv_turn s0 s ps i :
  shutdown_inv s0 s ps ->
  let '(s', ps') := stage_turn (s, ps) i in shutdown_inv s0 s' ps'.
Proof.
  intros Hinv. unfold stage_turn. cbn [fst snd].
  destruct (ps !! i) as [st|] eqn:Hi; [|done].
  assert (Hlt : i < length ps) by (by eapply lookup_lt_Some).
  destruct st as [|hs|h rest|h rest|].
  - (* Fresh *)
    pose proof (inv_seek s0 s ps i Fresh Hinv Hi) as Hseek.
    cbn [stage_step remaining] in *. destruct Hinv as (-> & _).
    destruct (seek (handlers s0) s) as [s' st']. by apply Hseek.
  - (* Seeking *)
    pose proof (inv_seek s0 s ps i (Seeking hs) Hinv Hi) as Hseek.
    cbn [stage_step remaining] in *.
    destruct (seek hs s) as [s' st']. by apply Hseek.
  - (* AtFlush *)
    destruct (inv_flush s0 s ps i h rest Hinv Hi) as (s1 & res & Hcall & Hinv1).
    cbn [stage_step]. rewrite Hcall. destruct res as [e|[]]; [|done].
    pose proof (inv_seek s0 s1 _ i (Seeking rest) Hinv1) as Hseek.
    cbn [remaining] in Hseek. destruct (seek rest s1) as [s' st'].
    rewrite list_insert_insert_eq in Hseek. apply Hseek; [|done].
    by apply list_lookup_insert_eq.
  - (* AtClose *)
    destruct (inv_close s0 s ps i h rest Hinv Hi) as (s1 & res & Hcall & Hinv1).
    cbn [stage_step]. rewrite Hcall.
    pose proof (inv_seek s0 s1 _ i (Seeking rest) Hinv1) as Hseek.
    cbn [remaining] in Hseek. destruct (seek rest s1) as [s' st'].
    rewrite list_insert_insert_eq in Hseek. apply Hseek; [|done].
    by apply list_lookup_insert_eq.
  - (* Done *)
    cbn [stage_step]. by rewrite list_insert_id.
Qed.

Lemma inv_run s0 sch : forall s ps,
  shutdown_inv s0 s ps ->
  let '(s', ps') := foldl stage_turn (s, ps) sch in shutdown_inv s0 s' ps'.
Proof.
  induction sch as [|i sch IH]; intros s ps Hinv; [done|].
  cbn [foldl]. pose proof (inv_turn s0 s ps i Hinv) as Hturn.
  destruct (stage_turn (s, ps) i) as [s' ps']. by apply IH.
Qed.

Lemma logger_turn_length s ps i :
  length (stage_turn (s, ps) i).2 = length ps.
Proof.
  unfold stage_turn. cbn [fst snd]. destruct (ps !! i) as [st|]; [|done].
  destruct (stage_step st s). cbn. by rewrite length_insert.
Qed.

Lemma logger_run_length sch : forall s ps,
  length (foldl stage_turn (s, ps) sch).2 = length ps.
Proof.
  induction sch as [|i sch IH]; intros s ps; [done|].
  cbn [foldl]. pose proof (logger_turn_length s ps i) as Hlen.
  destruct (stage_turn (s, ps) i) as [s' ps']. rewrite IH. done.
Qed.

Lemma parked_none f ps : Forall (fun st => f st = 0) ps -> parked f ps = 0.
Proof.
  unfold parked. induction 1 as [|st ps Hst _ IH]; [done|]. cbn. lia.
Qed.

(** A finished task is parked nowhere and has passed every handler. *)
Lemma finished_task st :
  finished (task_of st) = true ->
  (forall all, remaining all st = [])
  /\ forall h, in_flush h st = 0 /\ in_close h st = 0.
Proof.
  destruct st as [|[|h hs]|h rest|h rest|]; cbn; try done.
Qed.

(** Before any [shutdown] task has had a turn. *)
Lemma inv_initial s0 n :
  guards s0 = [] ->
  (forall h, h ∈ handlers s0 -> h < length (heap s0)) ->
  shutdown_inv s0 s0 (replicate n Fresh).
Proof.
  intros Hg Hval. split; [done|]. split; [done|]. split.
  - intros h m0 Hm0. exists m0. split; [done|]. split; [by repeat split|].
    rewrite Hg. rewrite bool_decide_eq_false_2 by apply not_elem_of_nil.
    rewrite !parked_none; [done | |]; by apply Forall_replicate.
  - apply Forall_replicate. split; [done|]. split; [|done].
    intros h m0 Hin _ _. by right.
Qed.

(** A call of [shutdown] always returns. *)
Lemma shutdown_total s :
  (forall h, h ∈ handlers s -> h < length (heap s)) ->
  exists s',
    run perform shutdown s = Some (s', Returned tt)
    /\ handlers s' = handlers s /\ length (heap s') = length (heap s).
Proof.
  intros Hval.
  destruct (teardown_run (handlers s) s Hval) as (s' & Hrun & Hh & Hlen & _).
  by exists s'.
Qed.

(** The loop can run the calls of [shutdown] one after the other, each
    to its end. *)
Lemma shutdowns_complete k : forall j s,
  (forall h, h ∈ handlers s -> h < length (heap s)) ->
  exists sch s',
    exec perform yields sch
      (MkLoop s (replicate j (Ret tt) ++ replicate k shutdown))
    = MkLoop s' (replicate (j + k) (Ret tt)).
Proof.
  induction k as [|k IH]; intros j s Hval.
  - exists [], s. cbn. by rewrite app_nil_r, Nat.add_0_r.
  - destruct (shutdown_total s Hval) as (s1 & Hrun & Hh & Hlen).
    destruct (run_exec perform yields shutdown j s s1 (Returned tt)
                (replicate j (Ret tt) ++ replicate (Datatypes.S k) shutdown))
      as [n Hn]; [|done|].
    { rewrite lookup_app_r by (by rewrite length_replicate).
      by rewrite length_replicate, Nat.sub_diag. }
    destruct (IH (Datatypes.S j) s1) as (sch & s' & Hsch).
    { intros h Hin. rewrite Hlen. apply Hval. by rewrite <- Hh. }
    exists (replicate n j ++ sch), s'.
    rewrite exec_app, Hn.
    rewrite insert_app_r_alt by (by rewrite length_replicate).
    rewrite length_replicate, Nat.sub_diag. cbn [replicate list_insert insert ended].
    replace (j + Datatypes.S k) with (Datatypes.S j + k) by lia.
    rewrite <- Hsch. f_equal. cbn [replicate].
    by rewrite replicate_cons_app, <- app_assoc.
Qed.

End ShutdownConcurrent.

(** * Results: concurrent shutdown, and the line of a record (C5, C9) *)

Section FinalResults.
Import Logger.

(** C5: [n >= 1] calls of [shutdown()] on a logger nobody has shut down
    yet, run as tasks of one loop.  The loop can bring all of them to
    their end, and in any interleaving (one call after the other
    included), when all of them are finished, every registered handler
    that is initialized has received [flush()] once and then [close()]
    once (no [close()] after a flush that raised), and the handlers that
    are not initialized have received nothing. *)
Theorem C5_shutdown_once (s0 : State Mock) (n : nat) :
  1 <= n ->
  guards s0 = [] ->
  (forall h, h ∈ handlers s0 -> h < length (heap s0)) ->
  (exists sch, all_finished (exec perform yields sch (shutdowns n s0)) = true)
  /\ forall sch,
      let l := exec perform yields sch (shutdowns n s0) in
      all_finished l = true ->
      forall h m0, h ∈ handlers s0 -> heap s0 !! h = Some m0 ->
        exists m, heap (shared l) !! h = Some m
          /\ m_calls m = m_calls m0 ++ teardown_calls m0.
Proof.
  intros Hn Hg Hval. split.
  { destruct (shutdowns_complete n 0 s0 Hval) as (sch & s' & Hsch).
    exists sch. unfold shutdowns. cbn [replicate app Nat.add] in Hsch.
    rewrite Hsch.
    unfold all_finished. cbn [pool]. apply forallb_forall.
    intros p Hp. apply list_elem_of_In, elem_of_replicate in Hp as [-> _]. done. }
  intros sch. cbn zeta. rewrite shutdowns_tasks, logger_exec_tasks.
  pose proof (inv_run s0 sch s0 _ (inv_initial s0 n Hg Hval)) as Hinv.
  pose proof (logger_run_length sch s0 (replicate n Fresh)) as Hlen.
  destruct (foldl stage_turn _ sch) as [s' ps']. cbn [snd] in Hlen.
  rewrite length_replicate in Hlen.
  unfold all_finished. cbn [pool shared]. intros Hfin h m0 Hin Hm0.
  rewrite forallb_forall in Hfin.
  assert (Hdone : forall st, st ∈ ps' ->
            (forall all, remaining all st = [])
            /\ forall h, in_flush h st = 0 /\ in_close h st = 0).
  { intros st Hst. apply finished_task. apply Hfin.
    apply list_elem_of_In, list_elem_of_fmap. by exists st. }
  destruct Hinv as (_ & _ & Htorn & Hpassed).
  destruct (Htorn h m0 Hm0) as (m & Hm & _ & Hcase).
  exists m. split; [done|].
  assert (Hpf : parked (in_flush h) ps' = 0).
  { apply parked_none, Forall_forall. intros st Hst. by apply Hdone. }
  assert (Hpc : parked (in_close h) ps' = 0).
  { apply parked_none, Forall_forall. intros st Hst. by apply Hdone. }
  destruct (bool_decide (h ∈ guards s')) eqn:Hheld.
  - destruct Hcase as (_ & [(? & _) | [(_ & ? & _) | (_ & _ & ?)]]);
      [lia | lia | done].
  - apply bool_decide_eq_false in Hheld. destruct Hcase as (_ & _ & ->).
    destruct ps' as [|st ps']; [cbn in Hlen; lia|].
    apply Forall_cons in Hpassed as [(_ & Hall & _) _].
    unfold teardown_calls. destruct (m_initialized m0) eqn:Hini.
    + destruct (Hall h m0 Hin Hm0 Hini) as [?|Hrem]; [done|].
      rewrite (proj1 (Hdone st ltac:(left))) in Hrem.
      by apply elem_of_nil in Hrem.
    + by rewrite app_nil_r.
Qed.

Lemma C5_shutdown_once_witness :
  let s0 := MkState "aiologger" 0 false [] [0; 1; 2] []
              [MkMock 0 true None None None []; MkMock 0 true None None None [];
               MkMock 0 false None None None []] in
  let l := exec perform yields [0; 1; 2; 0; 1; 2; 0; 1; 2; 0; 1; 2; 0; 0]
             (shutdowns 3 s0) in
  all_finished l = true
  /\ (exists m, heap (shared l) !! 0 = Some m /\ m_calls m = [CFlush; CClose])
  /\ (exists m, heap (shared l) !! 1 = Some m /\ m_calls m = [CFlush; CClose])
  /\ (exists m, heap (shared l) !! 2 = Some m /\ m_calls m = []).
Proof.
  set (s0 := MkState "aiologger" 0 false [] [0; 1; 2] []
              [MkMock 0 true None None None []; MkMock 0 true None None None [];
               MkMock 0 false None None None []]).
  set (sch := [0; 1; 2; 0; 1; 2; 0; 1; 2; 0; 1; 2; 0; 0]).
  assert (Hval : forall h, h ∈ handlers s0 -> h < length (heap s0)).
  { intros h Hh. apply list_elem_of_In in Hh. cbn in *. lia. }
  pose proof (proj2 (C5_shutdown_once s0 3 ltac:(lia) eq_refl Hval) sch eq_refl)
    as Hcalls.
  cbn zeta. split; [reflexivity|]. split; [|split].
  - apply (Hcalls 0 (MkMock 0 true None None None [])); [|reflexivity].
    apply list_elem_of_In. cbn. auto.
  - apply (Hcalls 1 (MkMock 0 true None None None [])); [|reflexivity].
    apply list_elem_of_In. cbn. auto.
  - apply (Hcalls 2 (MkMock 0 false None None None [])); [|reflexivity].
    apply list_elem_of_In. cbn. auto.
Defined.

(** C9: on a handler that has a writer, an [emit] whose formatter, write
    and drain succeed hands the writer, in one [write], the bytes of the
    formatter's text followed by a line feed, awaits the drain of that
    writer and returns; nothing else happens.  And [info("Xablau")] on a
    logger with the default handlers, awaited, with collaborators that
    do not fail and a formatter that renders the message, makes the
    stdout handler acquire its pipe and write the line of "Xablau", all
    of it delivered, while the stderr handler is not contacted. *)
Theorem C9_emit_writes_line (env : AsyncStreamHandler.Env) (r : LogRecord)
    (text : string) (w : AsyncStreamHandler.Writer) (lk : bool)
    (tr : list AsyncStreamHandler.Event) :
  AsyncStreamHandler.format env r = inr text ->
  AsyncStreamHandler.writer_write env tr w
    (AsyncStreamHandler.encode text ++ ["010"%byte]) = inr tt ->
  AsyncStreamHandler.writer_drain env
    (tr ++ [AsyncStreamHandler.EWrite w
              (AsyncStreamHandler.encode text ++ ["010"%byte]) (inr tt)]) w
    = inr tt ->
  run (AsyncStreamHandler.perform env) (AsyncStreamHandler.emit r)
      (AsyncStreamHandler.MkState (Some w) lk tr)
    = Some (AsyncStreamHandler.MkState (Some w) lk
              (tr ++ [AsyncStreamHandler.EWrite w
                        (AsyncStreamHandler.encode text ++ ["010"%byte]) (inr tt);
                      AsyncStreamHandler.EDrain w (inr tt)]),
            Returned tt)
  /\ exists s' out err,
      await_log (HH := Stream_handler AsyncStreamHandler.ok_env)
                (info with_default_handlers "Xablau") with_default_handlers
        = Some (s', Returned tt)
      /\ heap s' = [out; err]
      /\ AsyncStreamHandler.acquisitions
           (AsyncStreamHandler.trace (sh_state out)) = 1
      /\ AsyncStreamHandler.written (AsyncStreamHandler.trace (sh_state out))
         = AsyncStreamHandler.encode "Xablau" ++ ["010"%byte]
      /\ AsyncStreamHandler.pending 0 []
           (AsyncStreamHandler.trace (sh_state out)) = []
      /\ AsyncStreamHandler.trace (sh_state err) = [].
Proof.
  intros Hf Hw Hd.
  split.
  - rewrite emit_initialized, Hf, line_bytes, Hw, Hd. done.
  - eexists _, _, _. repeat split; reflexivity.
Qed.

Lemma C9_emit_writes_line_witness :
  run (AsyncStreamHandler.perform AsyncStreamHandler.ok_env)
      (AsyncStreamHandler.emit AsyncStreamHandler.xablau)
      (AsyncStreamHandler.MkState (Some 0) false [AsyncStreamHandler.EConnect (inr 0)])
    = Some (AsyncStreamHandler.MkState (Some 0) false
              ([AsyncStreamHandler.EConnect (inr 0)] ++
               [AsyncStreamHandler.EWrite 0
                  (AsyncStreamHandler.encode "Xablau" ++ ["010"%byte]) (inr tt);
                AsyncStreamHandler.EDrain 0 (inr tt)]),
            Returned tt).
Proof.
  apply (C9_emit_writes_line AsyncStreamHandler.ok_env AsyncStreamHandler.xablau
           "Xablau" 0 false [AsyncStreamHandler.EConnect (inr 0)]);
    reflexivity.
Defined.

End FinalResults.

(** * More about one caller: sequences of calls *)

Section HandlerSequences.
Import AsyncStreamHandler.

Implicit Types (env : Env) (s : State) (tr pre : list Event)
  (w : Writer) (r : LogRecord) (lk : bool) (wr : option Writer).

Lemma acquired_app tr tr' : acquired (tr ++ tr') = acquired tr + acquired tr'.
Proof. unfold acquired. by rewrite List.filter_app, length_app. Qed.

Lemma released_app tr tr' : released (tr ++ tr') = released tr + released tr'.
Proof. unfold released. by rewrite List.filter_app, length_app. Qed.

Lemma hooks_app tr tr' : hooks (tr ++ tr') = hooks tr + hooks tr'.
Proof. unfold hooks. by rewrite List.filter_app, length_app. Qed.

Lemma run_try_except {A} env (p : Co A) (h : Exc -> Co A) s :
  run (perform env) (try_except p h) s =
  match run (perform env) p s with
  | Some (s', Raised e) => run (perform env) (h e) s'
  | other => other
  end.
Proof.
  revert s. induction p as [a|e|o k IH]; intros s; simpl; try done.
  destruct (perform env o s) as [[s' x]|]; [apply IH | done].
Qed.

(** What one [emit] adds to the history of a handler that has a
    writer: no acquisition, no release, at most one call of the hook. *)
Lemma emit_initialized_counts env r w lk tr :
  exists tr',
    run (perform env) (emit r) (MkState (Some w) lk tr)
      = Some (MkState (Some w) lk (tr ++ tr'), Returned tt)
    /\ acquisitions tr' = 0 /\ releases tr' = 0
    /\ acquired tr' = 0 /\ released tr' = 0
    /\ hooks tr' <= 1.
Proof.
  eexists. split; [apply emit_initialized|].
  destruct (format env r) as [e|text]; [cbn; repeat split; lia|].
  destruct (writer_write _ _ _ _) as [e|[]]; [cbn; repeat split; lia|].
  destruct (writer_drain _ _ _) as [e|[]]; cbn; repeat split; lia.
Qed.

Lemma emits_initialized env rs w lk : forall tr,
  exists tr',
    run (perform env) (emits rs) (MkState (Some w) lk tr)
      = Some (MkState (Some w) lk (tr ++ tr'), Returned tt)
    /\ acquisitions tr' = 0 /\ releases tr' = 0
    /\ hooks tr' <= length rs.
Proof.
  induction rs as [|r rs IH]; intros tr.
  - exists []. cbn. by rewrite app_nil_r.
  - destruct (emit_initialized_counts env r w lk tr)
      as (tr1 & Hrun & Ha & Hr & _ & _ & Hh).
    destruct (IH (tr ++ tr1)) as (tr2 & Hrun2 & Ha2 & Hr2 & Hh2).
    exists (tr1 ++ tr2). split.
    + cbn [emits]. unfold mbind, Co_bind. rewrite run_bind, Hrun, Hrun2.
      by rewrite app_assoc.
    + rewrite acquisitions_app, releases_app, hooks_app. cbn [length].
      repeat split; lia.
Qed.

(** With collaborators that do not fail, [emit] hands over the line of
    its record and waits for the drain; before that it acquires the
    pipe when the handler has no writer. *)
Lemma emit_reliable env r t wr tr :
  reliable env -> format env r = inr t ->
  exists w pre,
    run (perform env) (emit r) (MkState wr false tr)
      = Some (MkState (Some w) false
                (tr ++ pre ++ [EWrite w (line t) (inr tt); EDrain w (inr tt)]),
              Returned tt)
    /\ written pre = [] /\ hooks pre = 0.
Proof.
  intros (Hc & Hw & Hd) Hf. destruct wr as [w|].
  - exists w, []. rewrite emit_initialized, Hf, Hw, Hd. done.
  - destruct (Hc tr) as [w Hconn]. exists w, [EConnect (inr w)].
    rewrite emit_uninitialized, Hconn, emit_initialized, Hf, Hw, Hd.
    by rewrite <- app_assoc.
Qed.

(** What [close] does on a handler that has a writer, whatever the
    writer answers. *)
Lemma close_run env w lk tr :
  run (perform env) close (MkState (Some w) lk tr) =
  match writer_drain env tr w with
  | inl e => Some (MkState (Some w) lk (tr ++ [EDrain w (inl e)]), Raised e)
  | inr _ =>
      let tr1 := tr ++ [EDrain w (inr tt)] in
      match writer_close env tr1 w with
      | inl e => Some (MkState (Some w) lk (tr1 ++ [EClose w (inl e)]), Raised e)
      | inr _ => Some (MkState None lk (tr1 ++ [EClose w (inr tt)]), Returned tt)
      end
  end.
Proof.
  cbn. destruct (writer_drain env tr w) as [e|[]]; cbn; [done|].
  by destruct (writer_close env _ w) as [e|[]].
Qed.



(** X1: on a handler that has a writer [w], any number of [emit]
    calls awaited one after the other, whatever the formatter and the
    writer answer, all return normally and leave [self.writer] and the
    lock as they were: every call they make is a write or a drain on
    [w] or a call of the error hook, so the pipe is never asked for
    again and no writer is closed; the hook is called at most once per
    record. *)
Theorem X1_emits_keep_writer env (rs : list LogRecord) w lk tr :
  exists tr',
    run (perform env) (emits rs) (MkState (Some w) lk tr)
      = Some (MkState (Some w) lk (tr ++ tr'), Returned tt)
    /\ forallb (on_writer_only w) tr' = true
    /\ acquisitions tr' = 0
    /\ releases tr' = 0
    /\ hooks tr' <= length rs.
Proof.
  destruct (emits_initialized env rs w lk tr) as (tr' & Hrun & Ha & Hr & Hh).
  exists tr'. split; [done|]. split; [|done].
  clear Ha Hr Hh. revert tr tr' Hrun.
  induction rs as [|r rs IH]; intros tr tr' Hrun.
  - cbn in Hrun. injection Hrun as Htr.
    apply (f_equal (drop (length tr))) in Htr.
    rewrite drop_app_length, drop_all in Htr. by subst tr'.
  - cbn [emits] in Hrun. unfold mbind, Co_bind in Hrun.
    rewrite run_bind, emit_initialized in Hrun.
    set (tr1 := match format env r with inl e => _ | inr text => _ end) in Hrun.
    assert (Htr1 : forallb (on_writer_only w) tr1 = true).
    { subst tr1. destruct (format env r) as [e|text]; [done|].
      destruct (writer_write _ _ _ _) as [e|[]];
        [cbn; by rewrite bool_decide_eq_true_2|].
      destruct (writer_drain _ _ _) as [e|[]];
        cbn; by rewrite !bool_decide_eq_true_2. }
    destruct (emits_initialized env rs w lk (tr ++ tr1)) as (tr2 & Hrun2 & _).
    specialize (IH (tr ++ tr1) tr2 Hrun2).
    rewrite Hrun2 in Hrun. injection Hrun as Htr.
    rewrite <- app_assoc in Htr. apply app_inv_head in Htr. subst tr'.
    rewrite forallb_app, Htr1, IH. done.
Qed.

(** X2: one caller, a handler without a writer, at least one [emit]:
    when the first acquisition of the pipe yields [w], all the calls
    return normally, [w] stays installed to the end, the lock is free,
    and the pipe was asked for exactly once however many records were
    emitted and whatever failed while formatting, writing or
    draining. *)
Theorem X2_emits_initialize_once env r (rs : list LogRecord) tr w :
  connect_write_pipe env tr = inr w ->
  exists s',
    run (perform env) (emits (r :: rs)) (MkState None false tr)
      = Some (s', Returned tt)
    /\ writer s' = Some w
    /\ locked s' = false
    /\ acquisitions (trace s') = acquisitions tr + 1
    /\ releases (trace s') = releases tr.
Proof.
  intros Hconn.
  destruct (emit_initialized_counts env r w false (tr ++ [EConnect (inr w)]))
    as (tr1 & Hrun1 & Ha1 & Hr1 & _).
  destruct (emits_initialized env rs w false ((tr ++ [EConnect (inr w)]) ++ tr1))
    as (tr2 & Hrun2 & Ha2 & Hr2 & _).
  eexists. split.
  - cbn [emits]. unfold mbind, Co_bind.
    rewrite run_bind, emit_uninitialized, Hconn, Hrun1. exact Hrun2.
  - cbn [writer locked trace].
    rewrite !acquisitions_app, !releases_app. cbn. repeat split; lia.
Qed.

Lemma X2_emits_initialize_once_witness :
  exists s',
    run (perform ok_env) (emits [xablau; xablau; xablau]) (MkState None false [])
      = Some (s', Returned tt)
    /\ writer s' = Some 0
    /\ locked s' = false
    /\ acquisitions (trace s') = 0 + 1
    /\ releases (trace s') = 0.
Proof.
  apply (X2_emits_initialize_once ok_env xablau [xablau; xablau] [] 0).
  reflexivity.
Defined.

(** With collaborators that do not fail, the lines of the records are
    written in the order of the calls. *)
Lemma emits_lines env (rs : list LogRecord) (texts : list string) wr tr :
  reliable env ->
  format env <$> rs = inr <$> texts ->
  exists s',
    run (perform env) (emits rs) (MkState wr false tr) = Some (s', Returned tt)
    /\ written (trace s') = written tr ++ concat (line <$> texts)
    /\ hooks (trace s') = hooks tr
    /\ locked s' = false.
Proof.
  intros Hrel. revert texts wr tr.
  induction rs as [|r rs IH]; intros texts wr tr Hfmt.
  - destruct texts; [|done]. eexists. split; [done|]. cbn.
    by rewrite app_nil_r.
  - destruct texts as [|t texts]; [done|]. cbn in Hfmt.
    injection Hfmt as Hf Hfmt.
    destruct (emit_reliable env r t wr tr Hrel Hf) as (w & pre & Hrun & Hpre & Hh).
    destruct (IH texts (Some w)
                (tr ++ pre ++ [EWrite w (line t) (inr tt); EDrain w (inr tt)])
                Hfmt) as (s' & Hrun' & Hw' & Hh' & Hlk').
    exists s'. split; [|split; [|split; [|done]]].
    + cbn [emits]. unfold mbind, Co_bind. by rewrite run_bind, Hrun.
    + rewrite Hw', !written_app, Hpre. cbn. by rewrite app_nil_r, <- app_assoc.
    + rewrite Hh', !hooks_app, Hh. cbn. lia.
Qed.


(** With collaborators that do not fail, the last thing the last
    [emit] does is a drain of the writer the handler is left with. *)
Lemma emits_drained env (rs : list LogRecord) : forall r (texts : list string) wr tr,
  reliable env ->
  format env <$> (r :: rs) = inr <$> texts ->
  exists s' w pre,
    run (perform env) (emits (r :: rs)) (MkState wr false tr)
      = Some (s', Returned tt)
    /\ writer s' = Some w
    /\ trace s' = pre ++ [EDrain w (inr tt)].
Proof.
  induction rs as [|r' rs IH]; intros r texts wr tr Hrel Hfmt;
    destruct texts as [|t texts]; try done; injection Hfmt as Hf Hfmt;
    destruct (emit_reliable env r t wr tr Hrel Hf) as (w & pre & Hrun & _).
  - eexists _, w, (tr ++ pre ++ [EWrite w (line t) (inr tt)]).
    cbn [emits]. unfold mbind, Co_bind.
    rewrite run_bind, Hrun. split; [done|]. split; [done|]. cbn [trace].
    by rewrite <- !app_assoc.
  - destruct (IH r' texts (Some w)
                (tr ++ pre ++ [EWrite w (line t) (inr tt); EDrain w (inr tt)])
                Hrel Hfmt) as (s' & w' & pre' & Hrun' & Hw' & Htr').
    exists s', w', pre'. split; [|done].
    change (emits (r :: r' :: rs)) with (emit r;; emits (r' :: rs)).
    unfold mbind, Co_bind. by rewrite run_bind, Hrun.
Qed.

(** X3: one caller, collaborators that do not fail, a formatter that
    renders every record: the [emit] calls awaited one after the other
    hand the stream the lines of the records in the order of the calls,
    each text followed by the terminator, and nothing else; the error
    hook is not called; and when the calls have returned the handler
    has a writer on which nothing is left undelivered. *)
Theorem X3_emits_lines_in_call_order env (rs : list LogRecord)
    (texts : list string) wr tr :
  reliable env ->
  format env <$> rs = inr <$> texts ->
  exists s',
    run (perform env) (emits rs) (MkState wr false tr) = Some (s', Returned tt)
    /\ written (trace s') = written tr ++ concat (line <$> texts)
    /\ hooks (trace s') = hooks tr
    /\ locked s' = false
    /\ (rs <> [] -> exists w, writer s' = Some w /\ pending w [] (trace s') = []).
Proof.
  intros Hrel Hfmt.
  destruct (emits_lines env rs texts wr tr Hrel Hfmt)
    as (s' & Hrun & Hw & Hh & Hlk).
  exists s'. repeat (split; [done|]).
  destruct rs as [|r rs]; [done|]. intros _.
  destruct (emits_drained env rs r texts wr tr Hrel Hfmt)
    as (s2 & w & pre & Hrun2 & Hwr & Htr).
  rewrite Hrun in Hrun2. injection Hrun2 as <-.
  exists w. split; [done|]. rewrite Htr. apply pending_drained.
Qed.

Lemma X3_emits_lines_in_call_order_witness :
  exists s',
    run (perform ok_env) (emits [record_of "first"; record_of "second"])
        (MkState None false [])
      = Some (s', Returned tt)
    /\ written (trace s') = [] ++ concat (line <$> ["first"; "second"])
    /\ hooks (trace s') = 0
    /\ locked s' = false
    /\ exists w, writer s' = Some w /\ pending w [] (trace s') = [].
Proof.
  destruct (X3_emits_lines_in_call_order ok_env
              [record_of "first"; record_of "second"] ["first"; "second"] None [])
    as (s' & Hrun & Hw & Hh & Hlk & Hpend).
  - split; [|split]; [intros tr; eexists; reflexivity | reflexivity | reflexivity].
  - reflexivity.
  - exists s'. repeat (split; [assumption|]). apply Hpend. discriminate.
Defined.

(** X4: [close()] on a handler with writer [w] always ends, and it
    sets [self.writer = None] exactly when it returns normally, which
    is exactly when [w] was closed.  When it raises, the handler keeps
    [w] and still counts as initialized: the failure is the one of the
    drain, and then [w.close()] was not called at all, or the one of
    [w.close()], called once after the drain had completed.  The lock
    is not touched. *)
Theorem X4_close_keeps_writer_on_failure env w lk tr :
  exists s' out,
    run (perform env) close (MkState (Some w) lk tr) = Some (s', out)
    /\ locked s' = lk
    /\ (out = Returned tt <-> writer s' = None)
    /\ (writer s' = None <-> released (trace s') = released tr + 1)
    /\ (forall e, out = Raised e ->
          writer s' = Some w
          /\ run (perform env) initialized s' = Some (s', Returned true)
          /\ ((writer_drain env tr w = inl e
               /\ trace s' = tr ++ [EDrain w (inl e)])
              \/ (writer_drain env tr w = inr tt
                  /\ trace s' = tr ++ [EDrain w (inr tt); EClose w (inl e)]))).
Proof.
  rewrite close_run. destruct (writer_drain env tr w) as [e|[]].
  { eexists _, _. split; [done|]. cbn [locked writer trace].
    rewrite released_app. cbn.
    split; [done|]. split; [done|]. split; [split; [done|lia]|].
    intros e' [= <-]. split; [done|]. split; [done|]. by left. }
  cbn zeta. destruct (writer_close env _ w) as [e|[]].
  - eexists _, _. split; [done|]. cbn [locked writer trace].
    rewrite !released_app. cbn.
    split; [done|]. split; [done|]. split; [split; [done|lia]|].
    intros e' [= <-]. split; [done|]. split; [done|]. right.
    by rewrite <- app_assoc.
  - eexists _, _. split; [done|]. cbn [locked writer trace].
    rewrite !released_app. cbn.
    split; [done|]. split; [done|]. split; [split; [lia|done]|].
    by intros e' [=].
Qed.

Lemma X4_close_keeps_writer_on_failure_witness :
  exists s',
    run (perform (MkEnv (connect_write_pipe ok_env) (format ok_env)
                        (writer_write ok_env) (fun _ _ => inl (External 3))
                        (writer_close ok_env)))
        close (MkState (Some 0) false [EConnect (inr 0)])
      = Some (s', Raised (External 3))
    /\ writer s' = Some 0
    /\ released (trace s') = 0.
Proof.
  destruct (X4_close_keeps_writer_on_failure
              (MkEnv (connect_write_pipe ok_env) (format ok_env)
                     (writer_write ok_env) (fun _ _ => inl (External 3))
                     (writer_close ok_env))
              0 false [EConnect (inr 0)])
    as (s' & out & Hrun & _ & _ & _ & Hfail).
  injection Hrun as <- <-. destruct (Hfail (External 3) eq_refl) as (Hw & _).
  eexists. split; [reflexivity|]. split; [exact Hw|reflexivity].
Defined.


(** A line is read back whole. *)
Lemma readline_line (t : string) (rest : list byte) :
  single_line t = true -> readline (line t ++ rest) = (line t, rest).
Proof.
  rewrite line_bytes. unfold single_line.
  induction (encode t) as [|b bs IH]; [done|]. cbn [forallb].
  intros [Hb Hbs]%andb_true_iff. cbn [app readline].
  destruct (Byte.eqb b "010") eqn:Heq; [done|].
  by rewrite IH.
Qed.

Lemma readlines_lines (texts : list string) :
  forallb single_line texts = true ->
  readlines (length texts) (concat (line <$> texts)) = (line <$> texts, []).
Proof.
  induction texts as [|t texts IH]; [done|]. cbn [forallb].
  intros [Ht Hts]%andb_true_iff.
  cbn [length readlines fmap list_fmap concat].
  by rewrite (readline_line t) by done; rewrite IH.
Qed.

(** X6: what one caller logs can be read back line by line.  With
    collaborators that do not fail and records whose formatted texts
    contain no line feed, on a stream that was empty: after the [emit]
    calls, awaited one after the other, as many [readline()] calls as
    there were records return the texts of the records in the order of
    the calls, each followed by the terminator, and leave nothing
    unread. *)
Theorem X6_lines_read_back env (rs : list LogRecord) (texts : list string)
    wr tr :
  reliable env ->
  format env <$> rs = inr <$> texts ->
  forallb single_line texts = true ->
  written tr = [] ->
  exists s',
    run (perform env) (emits rs) (MkState wr false tr) = Some (s', Returned tt)
    /\ readlines (length rs) (written (trace s'))
       = ((fun t => encode t ++ ["010"%byte]) <$> texts, []).
Proof.
  intros Hrel Hfmt Hsingle Hempty.
  destruct (emits_lines env rs texts wr tr Hrel Hfmt) as (s' & Hrun & Hw & _).
  exists s'. split; [done|].
  assert (length rs = length texts) as ->.
  { by rewrite <- (length_fmap (format env) rs), Hfmt, length_fmap. }
  rewrite Hw, Hempty, app_nil_l, readlines_lines by done.
  f_equal. apply list_fmap_ext. intros i t _. apply line_bytes.
Qed.

Lemma X6_lines_read_back_witness :
  exists s',
    run (perform ok_env) (emits [record_of "first"; record_of "second"])
        (MkState None false [])
      = Some (s', Returned tt)
    /\ readlines 2 (written (trace s'))
       = ((fun t => encode t ++ ["010"%byte]) <$> ["first"; "second"], []).
Proof.
  apply (X6_lines_read_back ok_env [record_of "first"; record_of "second"]
           ["first"; "second"] None []).
  - split; [|split]; [intros tr; eexists; reflexivity | reflexivity | reflexivity].
  - reflexivity.
  - reflexivity.
  - reflexivity.
Defined.

End HandlerSequences.

(** * Tasks of two kinds on one loop *)

Section TurnApp.
Context {Op : Type} {Resp : Op -> Type} {S : Type}.
Variable perform : forall o : Op, S -> option (S * Resp o).
Variable yields : Op -> S -> bool.

(** A turn of a task of the first part of the pool leaves the second
    part alone, and the other way round. *)
Lemma turn_app_l {A} (s : S) (ps qs : list (Coro Op Resp A)) i :
  i < length ps ->
  turn perform yields (MkLoop s (ps ++ qs)) i
  = let l' := turn perform yields (MkLoop s ps) i in
    MkLoop (shared l') (pool l' ++ qs).
Proof.
  intros Hi. unfold turn. cbn [pool shared]. rewrite lookup_app_l by done.
  destruct (ps !! i) as [p|] eqn:Hp; [|done].
  destruct (resume perform yields p s) as [s' p']. cbn.
  by rewrite insert_app_l.
Qed.

Lemma turn_app_r {A} (s : S) (ps qs : list (Coro Op Resp A)) i :
  length ps <= i ->
  turn perform yields (MkLoop s (ps ++ qs)) i
  = match qs !! (i - length ps) with
    | Some q =>
        let '(s', q') := resume perform yields q s in
        MkLoop s' (ps ++ <[i - length ps := q']> qs)
    | None => MkLoop s (ps ++ qs)
    end.
Proof.
  intros Hi. unfold turn. cbn [pool shared]. rewrite lookup_app_r by done.
  destruct (qs !! (i - length ps)) as [q|] eqn:Hq; [|done].
  destruct (resume perform yields q s) as [s' q'].
  by rewrite insert_app_r_alt.
Qed.

End TurnApp.

(** * More about pools of [emit] tasks *)

Section EmitPools.
Import AsyncStreamHandler.

Implicit Types (env : Env) (s : State) (tr : list Event)
  (w : Writer) (r : LogRecord) (st : Stage) (sch : list nat)
  (ps : list (LogRecord * Stage)).

(** What holds at the start and is kept by every turn holds after every
    schedule. *)
Lemma stage_run_inv env (P : State -> list (LogRecord * Stage) -> Prop) :
  (forall s ps i r st,
     P s ps -> ps !! i = Some (r, st) ->
     let '(s', st') := stage_step env r st s in P s' (<[i := (r, st')]> ps)) ->
  forall sch s ps,
    P s ps ->
    let '(s', ps') := foldl (stage_turn env) (s, ps) sch in P s' ps'.
Proof.
  intros Hstep. induction sch as [|i sch IH]; intros s ps HP; [done|].
  cbn [foldl]. unfold stage_turn at 2. cbn [fst snd].
  destruct (ps !! i) as [[r st]|] eqn:Hi; [|by apply IH].
  specialize (Hstep s ps i r st HP Hi).
  destruct (stage_step env r st s) as [s' st']. by apply IH.
Qed.

Lemma stage_run_length env sch s ps :
  length (foldl (stage_turn env) (s, ps) sch).2 = length ps.
Proof.
  revert s ps. induction sch as [|i sch IH]; intros s ps; [done|].
  cbn [foldl]. pose proof (stage_turn_length env s ps i) as Hl.
  destruct (stage_turn env (s, ps) i) as [s1 ps1]. cbn [snd] in Hl.
  by rewrite IH.
Qed.

Lemma count_le f ps n : (forall st, f st <= n) -> count f ps <= length ps * n.
Proof.
  intros Hf. unfold count. induction ps as [|[r st] ps IH]; cbn; [lia|].
  specialize (Hf st). lia.
Qed.

Lemma acquisitions_snoc tr ev :
  acquisitions (tr ++ [ev]) = acquisitions tr + if is_connect ev then 1 else 0.
Proof. rewrite acquisitions_app. unfold acquisitions. cbn. by destruct (is_connect ev). Qed.

Lemma hooks_snoc tr ev :
  hooks (tr ++ [ev]) = hooks tr + if is_hook ev then 1 else 0.
Proof. rewrite hooks_app. unfold hooks. cbn. by destruct (is_hook ev). Qed.

(** The [try] block leaves the task at the drain or at the hook. *)
Lemma write_step_stage env r w s :
  let '(s', st') := write_step env r w s in
  (exists e, st' = AtHook e) \/ st' = AtDrain w.
Proof.
  unfold write_step. destruct (format env r) as [e|text]; [by eauto|].
  destruct (writer_write _ _ _ _) as [e|[]]; by eauto.
Qed.

Lemma in_connect_task_of r st : in_connect (task_of r st) = at_connect st.
Proof. by destruct st as [| | | | |[[]|]]. Qed.

(** A task that is not kept waiting comes nearer to its end with every
    turn. *)
Lemma stage_step_rank env r st s :
  locked s = false \/ st = AtConnect \/ past_init st = true ->
  rank (stage_step env r st s).2 <= pred (rank st).
Proof.
  intros Hgo.
  assert (Hws : forall w s0, rank (write_step env r w s0).2 <= 2).
  { intros w s0. pose proof (write_step_stage env r w s0) as H.
    destruct (write_step env r w s0) as [s' st'].
    destruct H as [[e ->] | ->]; cbn; lia. }
  destruct st as [| | |w|e|out]; unfold stage_step.
  - destruct (writer s) as [w|]; [specialize (Hws w s); cbn; lia|].
    destruct Hgo as [-> | [? | ?]]; [cbn; lia | done..].
  - destruct Hgo as [-> | [? | ?]]; [cbn; lia | done..].
  - cbn zeta. destruct (connect_write_pipe env (trace s)) as [e|w]; [cbn; lia|].
    specialize (Hws w (MkState (Some w) false (trace s ++ [EConnect (inr w)]))).
    cbn. lia.
  - cbn zeta. destruct (writer_drain env (trace s) w) as [e|[]]; cbn; lia.
  - cbn. lia.
  - cbn. lia.
Qed.

Local Ltac cnt :=
  unfold left_init;
  cbn [past_init is_done trace writer locked is_connect is_hook]; lia.

(** What a turn adds to the history: at most one acquisition, and that
    only when the task leaves [_init_writer]; at most one call of the
    hook, and that only when the task ends. *)
Lemma stage_step_counts env r st s :
  let '(s', st') := stage_step env r st s in
  acquisitions (trace s') + left_init st <= acquisitions (trace s) + left_init st'
  /\ hooks (trace s') + is_done st <= hooks (trace s) + is_done st'.
Proof.
  assert (Hws : forall w s0,
    let '(s', st') := write_step env r w s0 in
    acquisitions (trace s') = acquisitions (trace s0)
    /\ hooks (trace s') = hooks (trace s0)
    /\ left_init st' = 1).
  { intros w s0. unfold write_step. destruct (format env r) as [e|text]; [done|].
    destruct (writer_write _ _ _ _) as [e|[]]; unfold note; cbn [trace];
      by rewrite acquisitions_snoc, hooks_snoc, !Nat.add_0_r. }
  destruct st as [| | |w|e|out]; unfold stage_step.
  - destruct (writer s) as [w|].
    + specialize (Hws w s). destruct (write_step env r w s) as [s' st'].
      destruct Hws as (-> & -> & ->). cnt.
    + destruct (locked s); cnt.
  - destruct (locked s); cnt.
  - cbn zeta. destruct (connect_write_pipe env (trace s)) as [e|w].
    + cbn [trace]. rewrite acquisitions_snoc, hooks_snoc. cnt.
    + specialize (Hws w (MkState (Some w) false (trace s ++ [EConnect (inr w)]))).
      destruct (write_step _ _ _ _) as [s' st']. cbn [trace] in Hws.
      destruct Hws as (-> & -> & ->).
      rewrite acquisitions_snoc, hooks_snoc. cnt.
  - cbn zeta. destruct (writer_drain env (trace s) w) as [e|[]];
      unfold note; cbn [trace]; rewrite acquisitions_snoc, hooks_snoc; cnt.
  - unfold note; cbn [trace]. rewrite acquisitions_snoc, hooks_snoc. cnt.
  - cnt.
Qed.

(** A turn only adds to the history, and a task that ends by raising
    raises what [connect_write_pipe] raised in that turn. *)
Lemma stage_step_raises env r st s :
  let '(s', st') := stage_step env r st s in
  exists evs,
    trace s' = trace s ++ evs
    /\ forall e, st' = Done (Raised e) ->
         st = Done (Raised e) \/ EConnect (inl e) ∈ evs.
Proof.
  assert (Hws : forall w s0,
    let '(s', st') := write_step env r w s0 in
    (exists evs, trace s' = trace s0 ++ evs)
    /\ forall e, st' <> Done (Raised e)).
  { intros w s0. unfold write_step. destruct (format env r) as [e|text].
    - split; [exists []; by rewrite app_nil_r | done].
    - destruct (writer_write _ _ _ _) as [e|[]]; unfold note; cbn [trace];
        (split; [by eexists | done]). }
  destruct st as [| | |w|e|out]; unfold stage_step.
  - destruct (writer s) as [w|].
    + specialize (Hws w s). destruct (write_step env r w s) as [s' st'].
      destruct Hws as ([evs Hevs] & Hne). exists evs. split; [done|].
      intros e He. by destruct (Hne e).
    + destruct (locked s); exists []; cbn; by rewrite app_nil_r.
  - destruct (locked s); exists []; cbn; by rewrite app_nil_r.
  - cbn zeta. destruct (connect_write_pipe env (trace s)) as [e|w].
    + exists [EConnect (inl e)]. split; [done|]. intros e' [= <-]. right.
      by apply list_elem_of_singleton.
    + specialize (Hws w (MkState (Some w) false (trace s ++ [EConnect (inr w)]))).
      destruct (write_step _ _ _ _) as [s' st']. cbn [trace] in Hws.
      destruct Hws as ([evs Hevs] & Hne). exists ([EConnect (inr w)] ++ evs).
      split; [by rewrite Hevs, app_assoc|]. intros e He. by destruct (Hne e).
  - cbn zeta. destruct (writer_drain env (trace s) w) as [e|[]];
      unfold note; cbn [trace]; (eexists; split; [done|done]).
  - unfold note; cbn [trace]. eexists. split; [done|done].
  - exists []. rewrite app_nil_r. split; [done|]. intros e He. by left.
Qed.

(** A task of the pool that has raised. *)
Lemma tasks_raised ps i e :
  tasks ps !! i = Some (Raise e) ->
  exists r, ps !! i = Some (r, Done (Raised e)).
Proof.
  unfold tasks. rewrite list_lookup_fmap.
  destruct (ps !! i) as [[r st]|]; [|done]. cbn. intros [= H].
  exists r. destruct st as [| | | | |[[]|e']]; try done.
  by injection H as ->.
Qed.

(** A task that found a writer when it started stays on the short way:
    it never enters [_init_writer]. *)
Lemma fast_path_step env r st s w :
  writer s = Some w -> fast_path st ->
  let '(s', st') := stage_step env r st s in
  writer s' = Some w /\ locked s' = locked s
  /\ acquisitions (trace s') = acquisitions (trace s)
  /\ releases (trace s') = releases (trace s)
  /\ fast_path st'.
Proof.
  intros Hw Hst.
  destruct st as [| | |w1|e|[[]|e]]; try done; unfold stage_step.
  - rewrite Hw. unfold write_step. destruct (format env r) as [e|text]; [done|].
    destruct (writer_write _ _ _ _) as [e|[]]; unfold note;
      cbn [trace writer locked]; rewrite acquisitions_app, releases_app;
      cbn; repeat split; (done || lia).
  - cbn zeta. destruct (writer_drain env (trace s) w1) as [e|[]]; unfold note;
      cbn [trace writer locked]; rewrite acquisitions_app, releases_app;
      cbn; repeat split; (done || lia).
  - unfold note. cbn [trace writer locked].
    rewrite acquisitions_app, releases_app. cbn. repeat split; (done || lia).
Qed.

(** X7: an [emit] call asks for the pipe at most once and calls the
    error hook at most once.  Any number of [emit] tasks on a handler
    in any state, any collaborators, any schedule: at every moment the
    pipe was asked for, and the hook was called, at most once per
    task. *)
Theorem X7_one_acquisition_per_emit env (rs : list LogRecord) s0 sch :
  let l := exec (perform env) yields sch (gather s0 rs) in
  acquisitions (trace (shared l)) <= acquisitions (trace s0) + length rs
  /\ hooks (trace (shared l)) <= hooks (trace s0) + length rs.
Proof.
  cbn zeta. rewrite gather_tasks, exec_tasks.
  pose proof (stage_run_inv env
    (fun s ps =>
       acquisitions (trace s) <= acquisitions (trace s0) + count left_init ps
       /\ hooks (trace s) <= hooks (trace s0) + count is_done ps)) as Hrun.
  pose proof (stage_run_length env sch s0 ((., Fresh) <$> rs)) as Hlen.
  specialize (Hrun ltac:(
    intros s ps i r st [Ha Hh] Hi;
    pose proof (stage_step_counts env r st s) as Hstep;
    destruct (stage_step env r st s) as [s' st'];
    pose proof (count_insert left_init ps i r st st' Hi);
    pose proof (count_insert is_done ps i r st st' Hi);
    lia) sch s0 ((., Fresh) <$> rs) ltac:(split; lia)).
  destruct (foldl (stage_turn env) _ sch) as [s' ps'].
  cbn [snd] in Hlen. rewrite length_fmap in Hlen. cbn [shared].
  destruct Hrun as [Ha Hh].
  pose proof (count_le left_init ps' 1) as Hl1.
  pose proof (count_le is_done ps' 1) as Hl2.
  rewrite Hlen in Hl1, Hl2.
  split.
  - etrans; [apply Ha|]. apply Nat.add_le_mono_l. etrans; [apply Hl1|lia].
    intros st. unfold left_init. destruct (past_init st); lia.
  - etrans; [apply Hh|]. apply Nat.add_le_mono_l. etrans; [apply Hl2|lia].
    intros st. destruct st; cbn; lia.
Qed.

(** X8: on a handler that has a writer, [emit] tasks never enter
    [_init_writer], whoever holds the lock.  Any number of [emit] tasks
    on a handler with writer [w], any collaborators, any schedule: at
    every moment [self.writer] is [w], the lock is as it was, the pipe
    was not asked for, no writer was closed, and no task has
    raised. *)
Theorem X8_initialized_emits_skip_the_lock env (rs : list LogRecord)
    w lk tr0 sch :
  let l := exec (perform env) yields sch (gather (MkState (Some w) lk tr0) rs) in
  writer (shared l) = Some w
  /\ locked (shared l) = lk
  /\ acquisitions (trace (shared l)) = acquisitions tr0
  /\ releases (trace (shared l)) = releases tr0
  /\ forall i e, pool l !! i <> Some (Raise e).
Proof.
  cbn zeta. rewrite gather_tasks, exec_tasks.
  pose proof (stage_run_inv env
    (fun s ps =>
       writer s = Some w /\ locked s = lk
       /\ acquisitions (trace s) = acquisitions tr0
       /\ releases (trace s) = releases tr0
       /\ Forall (fun p => fast_path p.2) ps)) as Hrun.
  specialize (Hrun ltac:(
    intros s ps i r st (Hw & Hl & Ha & Hr & Hps) Hi;
    pose proof (proj1 (Forall_lookup _ _) Hps i _ Hi) as Hst;
    pose proof (fast_path_step env r st s w Hw Hst) as Hstep;
    destruct (stage_step env r st s) as [s' st'];
    destruct Hstep as (Hw' & Hl' & Ha' & Hr' & Hst');
    rewrite Hw', Hl', Ha', Hr';
    repeat split; [done..|by apply Forall_insert])
    sch (MkState (Some w) lk tr0) ((., Fresh) <$> rs)).
  destruct (foldl (stage_turn env) _ sch) as [s' ps']. cbn [shared pool].
  destruct Hrun as (Hw & Hl & Ha & Hr & Hps).
  { repeat split; try done. apply Forall_fmap, Forall_forall. by intros r _. }
  repeat split; try done.
  intros i e Hi. apply tasks_raised in Hi as [r Hi].
  by apply (proj1 (Forall_lookup _ _) Hps i _ Hi).
Qed.

(** Every call on the handler only adds to the history. *)
Lemma perform_grows env o s s' (x : Resp o) :
  perform env o s = Some (s', x) -> exists evs, trace s' = trace s ++ evs.
Proof.
  destruct o; cbn; unfold note;
    try (intros [= <- _]; cbn [trace];
         first [by eexists | exists []; by rewrite app_nil_r]).
  destruct (locked s); [done|]. intros [= <- _]. exists []. cbn.
  by rewrite app_nil_r.
Qed.

Lemma advance_grows {A} env (p : Co A) : forall s,
  exists evs, trace (advance (perform env) yields p s).1 = trace s ++ evs.
Proof.
  induction p as [a|e|o k IH]; intros s;
    try (exists []; cbn; by rewrite app_nil_r).
  cbn [advance]. destruct (yields o s); [exists []; cbn; by rewrite app_nil_r|].
  destruct (perform env o s) as [[s1 x]|] eqn:Hp;
    [|exists []; cbn; by rewrite app_nil_r].
  destruct (perform_grows env o s s1 x Hp) as [evs1 H1].
  destruct (IH x s1) as [evs2 H2]. exists (evs1 ++ evs2).
  by rewrite H2, H1, app_assoc.
Qed.

Lemma resume_grows {A} env (p : Co A) s :
  exists evs, trace (resume (perform env) yields p s).1 = trace s ++ evs.
Proof.
  destruct p as [a|e|o k]; try (exists []; cbn; by rewrite app_nil_r).
  cbn [resume]. destruct (perform env o s) as [[s1 x]|] eqn:Hp;
    [|exists []; cbn; by rewrite app_nil_r].
  destruct (perform_grows env o s s1 x Hp) as [evs1 H1].
  destruct (advance_grows env (k x) s1) as [evs2 H2]. exists (evs1 ++ evs2).
  by rewrite H2, H1, app_assoc.
Qed.

Lemma exec_cons env i sch (l : Loop (S := State) unit) :
  exec (perform env) yields (i :: sch) l
  = exec (perform env) yields sch (turn (perform env) yields l i).
Proof. done. Qed.

Lemma turn_emit env s ps (qs : list (Co unit)) i :
  i < length ps ->
  turn (perform env) yields (MkLoop s (tasks ps ++ qs)) i
  = let '(s', ps') := stage_turn env (s, ps) i in MkLoop s' (tasks ps' ++ qs).
Proof.
  intros Hi. etrans.
  { apply (turn_app_l (perform env) yields s (tasks ps) qs i).
    unfold tasks. by rewrite length_fmap. }
  rewrite turn_tasks. by destruct (stage_turn env (s, ps) i).
Qed.

Lemma turn_other env s ps (qs : list (Co unit)) i :
  length ps <= i ->
  turn (perform env) yields (MkLoop s (tasks ps ++ qs)) i
  = match qs !! (i - length ps) with
    | Some q =>
        let '(s', q') := resume (perform env) yields q s in
        MkLoop s' (tasks ps ++ <[i - length ps := q']> qs)
    | None => MkLoop s (tasks ps ++ qs)
    end.
Proof.
  intros Hi.
  pose proof (turn_app_r (perform env) yields s (tasks ps) qs i) as H.
  unfold tasks in H. rewrite length_fmap in H. exact (H Hi).
Qed.

(** [emit] tasks among any other tasks of the handler: whatever the
    others do, an [emit] task that has raised comes with a failed
    acquisition. *)
Lemma emits_among_others env s0 sch : forall s ps (qs : list (Co unit)) evs,
  trace s = trace s0 ++ evs ->
  Forall (fun p => forall e, p.2 = Done (Raised e) -> EConnect (inl e) ∈ evs) ps ->
  exists s' ps' qs' evs',
    exec (perform env) yields sch (MkLoop s (tasks ps ++ qs))
      = MkLoop s' (tasks ps' ++ qs')
    /\ length ps' = length ps
    /\ trace s' = trace s0 ++ evs'
    /\ Forall (fun p => forall e, p.2 = Done (Raised e) ->
                          EConnect (inl e) ∈ evs') ps'.
Proof.
  induction sch as [|i sch IH]; intros s ps qs evs Htr Hps.
  { by exists s, ps, qs, evs. }
  rewrite exec_cons.
  destruct (decide (i < length ps)) as [Hi|Hi].
  - (* a turn of an [emit] task *)
    rewrite (turn_emit env s ps qs i) by lia. unfold stage_turn.
    cbn [fst snd].
    destruct (ps !! i) as [[r st]|] eqn:Hst; [|by apply (IH s ps qs evs)].
    pose proof (stage_step_raises env r st s) as Hstep.
    destruct (stage_step env r st s) as [s1 st1].
    destruct Hstep as (evs1 & Htr1 & Hraise).
    destruct (IH s1 (<[i := (r, st1)]> ps) qs (evs ++ evs1))
      as (s' & ps' & qs' & evs' & Hexec & Hlen' & Htr' & Hps').
    + by rewrite Htr1, Htr, app_assoc.
    + apply Forall_insert.
      * eapply Forall_impl; [exact Hps|].
        intros p Hp e He. apply elem_of_app. left. by apply Hp.
      * cbn. intros e He. apply elem_of_app.
        destruct (Hraise e He) as [-> | Hin]; [left|by right].
        by apply (proj1 (Forall_lookup _ _) Hps i _ Hst).
    + exists s', ps', qs', evs'. rewrite length_insert in Hlen'. done.
  - (* a turn of another task *)
    rewrite (turn_other env s ps qs i) by lia.
    destruct (qs !! (i - length ps)) as [q|] eqn:Hq;
      [|by apply (IH s ps qs evs)].
    pose proof (resume_grows env q s) as [evs1 Htr1].
    destruct (resume (perform env) yields q s) as [s1 q1]. cbn [fst] in Htr1.
    destruct (IH s1 ps (<[i - length ps := q1]> qs) (evs ++ evs1))
      as (s' & ps' & qs' & evs' & Hexec & Hlen' & Htr' & Hps').
    + by rewrite Htr1, Htr, app_assoc.
    + eapply Forall_impl; [exact Hps|].
      intros p Hp e He. apply elem_of_app. left. by apply Hp.
    + by exists s', ps', qs', evs'.
Qed.

(** X9: under any interleaving, and whatever else runs on the
    handler, what an [emit] call raises is what [connect_write_pipe]
    raised.  [emit] tasks for [rs] together with any other tasks that
    work on the same handler ([close], [flush], anything made of the
    calls the handler makes), a handler in any state, any collaborators,
    any schedule: the history only grows, and every [emit] task that
    has ended by raising [e] comes with an acquisition that failed with
    [e] since the tasks were created.  Failures of the formatter, of
    the write and of the drain never reach the caller of [emit], and
    neither does a missing writer: [emit] never fails on
    [self.writer] being [None], also when another task closes the
    handler at any of the suspension points. *)
Theorem X9_emit_raises_acquisition_failures_only env (rs : list LogRecord)
    (others : list (Co unit)) s0 sch :
  let l := exec (perform env) yields sch (among s0 rs others) in
  exists evs,
    trace (shared l) = trace s0 ++ evs
    /\ forall i e, i < length rs -> pool l !! i = Some (Raise e) ->
         EConnect (inl e) ∈ evs.
Proof.
  cbn zeta. unfold among.
  replace (emit <$> rs) with (tasks ((., Fresh) <$> rs)).
  2: { unfold tasks. rewrite <- list_fmap_compose. by apply list_fmap_ext. }
  destruct (emits_among_others env s0 sch s0 ((., Fresh) <$> rs) others [])
    as (s' & ps' & qs' & evs' & -> & Hlen & Htr & Hps).
  { by rewrite app_nil_r. }
  { apply Forall_fmap, Forall_forall. by intros r _ e. }
  rewrite length_fmap in Hlen.
  exists evs'. cbn [shared pool]. split; [done|]. intros i e Hi Hraise.
  rewrite lookup_app_l in Hraise by (unfold tasks; rewrite length_fmap; lia).
  apply tasks_raised in Hraise as [r Hr].
  by apply (proj1 (Forall_lookup _ _) Hps i _ Hr).
Qed.

Lemma X9_emit_raises_acquisition_failures_only_witness :
  let l := exec (perform (refusing_env (External 7))) yields [1; 0; 0; 1]
             (among init [xablau] [close]) in
  exists evs,
    trace (shared l) = trace init ++ evs
    /\ EConnect (inl (External 7)) ∈ evs.
Proof.
  destruct (X9_emit_raises_acquisition_failures_only
              (refusing_env (External 7)) [xablau] [close] init [1; 0; 0; 1])
    as (evs & Htr & Hraise).
  exists evs. split; [exact Htr|].
  apply (Hraise 0); [cbn; lia | reflexivity].
Defined.

(** With collaborators that do not fail and a formatter that renders
    the record, a turn of a task that has not yet left [_init_writer]
    either leaves it there, nothing handed over, or takes it to the
    drain of its line, handed to one writer; later turns hand over
    nothing. *)
Lemma stage_step_line env r t st s :
  reliable env -> format env r = inr t ->
  let '(s', st') := stage_step env r st s in
  (past_init st' = past_init st /\ handed (trace s') = handed (trace s))
  \/ (past_init st = false /\ past_init st' = true
      /\ exists w, handed (trace s') = handed (trace s) ++ [(w, line t)]).
Proof.
  intros Hrel Hf. pose proof Hrel as (Hconn & _ & Hdrain).
  destruct st as [| | |w|e|out]; unfold stage_step.
  - destruct (writer s) as [w|].
    + rewrite (write_step_reliable env r t) by done. right.
      split; [done|]. split; [done|]. exists w. by rewrite handed_note_write.
    + destruct (locked s); by left.
  - destruct (locked s); by left.
  - destruct (Hconn (trace s)) as [w Hw]. rewrite Hw.
    rewrite (write_step_reliable env r t) by done. right.
    split; [done|]. split; [done|]. exists w.
    rewrite handed_note_write. cbn [trace]. rewrite handed_app. cbn.
    by rewrite app_nil_r.
  - rewrite Hdrain. left. by rewrite handed_note_other.
  - left. by rewrite handed_note_other.
  - by left.
Qed.

Lemma text_of_seq render (rs : list LogRecord) :
  text_of render rs <$> seq 0 (length rs) = render <$> rs.
Proof.
  induction rs as [|r rs IH]; [done|].
  cbn [length seq fmap list_fmap]. f_equal.
  rewrite <- fmap_S_seq, <- list_fmap_compose, <- IH.
  by apply list_fmap_ext.
Qed.

(** Every turn keeps [written_by], the task that hands over its line
    joining the order at its end. *)
Lemma written_by_step env render H0 (rs : list LogRecord) order s ps i r st :
  reliable env ->
  Forall (fun r => format env r = inr (render r)) rs ->
  written_by render H0 rs order s ps -> ps !! i = Some (r, st) ->
  let '(s', st') := stage_step env r st s in
  exists order', written_by render H0 rs order' s' (<[i := (r, st')]> ps).
Proof.
  intros Hrel Hfmt (Hrs & Hnd & Hin & Hw) Hi.
  assert (Hr : rs !! i = Some r).
  { rewrite <- Hrs, list_lookup_fmap, Hi. done. }
  assert (Hf : format env r = inr (render r)).
  { apply (proj1 (Forall_lookup _ _) Hfmt i _ Hr). }
  assert (Hrs' : forall st', fst <$> <[i := (r, st')]> ps = rs).
  { intros st'. rewrite list_fmap_insert. cbn. rewrite Hrs.
    by apply list_insert_id. }
  assert (Hlt : i < length ps) by (by eapply lookup_lt_Some).
  pose proof (stage_step_line env r (render r) st s Hrel Hf) as Hstep.
  destruct (stage_step env r st s) as [s' st'].
  destruct Hstep as [[Hp Hsame] | (Hp & Hp' & w & Hline)].
  - (* nothing handed over *)
    exists order. split; [done|]. split; [done|]. split; [|by rewrite Hsame].
    intros j. rewrite Hin. destruct (decide (j = i)) as [->|Hne].
    + rewrite list_lookup_insert_eq by done. split.
      * intros (r1 & st1 & Hst1 & Hp1). exists r, st'. split; [done|].
        rewrite Hp. congruence.
      * intros (r1 & st1 & [= <- <-] & Hp1). exists r, st. split; [done|].
        by rewrite <- Hp.
    + by rewrite list_lookup_insert_ne.
  - (* the line of the task was handed to [w] *)
    exists (order ++ [(i, w)]). split; [done|]. rewrite fmap_app.
    cbn [fmap list_fmap fst]. split; [|split].
    + apply NoDup_app. split; [done|]. split; [|apply NoDup_singleton].
      intros j Hj ->%list_elem_of_singleton.
      apply Hin in Hj as (r1 & st1 & Hst1 & Hp1). congruence.
    + intros j. rewrite elem_of_app, list_elem_of_singleton, Hin.
      destruct (decide (j = i)) as [->|Hne].
      * rewrite list_lookup_insert_eq by done. split; [|by right].
        intros _. by exists r, st'.
      * rewrite list_lookup_insert_ne by done. split; [|by left].
        by intros [H | H].
    + rewrite Hline, Hw, fmap_app. cbn [fmap list_fmap fst snd].
      assert (text_of render rs i = render r) as ->
        by (unfold text_of; by rewrite Hr).
      by rewrite app_assoc.
Qed.

(** On a handler that has writer [w], every write of an [emit] task is
    made on [w]. *)
Lemma fast_path_handed env r st s w :
  writer s = Some w -> fast_path st ->
  let '(s', st') := stage_step env r st s in
  exists hs,
    handed (trace s') = handed (trace s) ++ hs /\ Forall (fun p => p.1 = w) hs.
Proof.
  intros Hw Hst.
  destruct st as [| | |w1|e|[[]|e]]; try done; unfold stage_step.
  - rewrite Hw. unfold write_step. destruct (format env r) as [e|text].
    { exists []. by rewrite app_nil_r. }
    destruct (writer_write _ _ _ _) as [e|[]].
    + exists []. by rewrite handed_note_other, app_nil_r.
    + exists [(w, line text)]. rewrite handed_note_write. split; [done|].
      by apply Forall_singleton.
  - cbn zeta. destruct (writer_drain env (trace s) w1) as [e|[]];
      exists []; by rewrite handed_note_other, app_nil_r.
  - exists []. by rewrite handed_note_other, app_nil_r.
  - exists []. by rewrite app_nil_r.
Qed.

(** What [w] was handed when everything went to [w]. *)
Lemma written_to_only w tr tr' (hs : list (Writer * list byte)) :
  handed tr' = handed tr ++ hs -> Forall (fun p => p.1 = w) hs ->
  written_to w tr' = written_to w tr ++ concat (snd <$> hs).
Proof.
  intros Hh Hall. rewrite (written_to_handed w tr tr' hs Hh). do 2 f_equal.
  apply Forall_fmap_ext. eapply Forall_impl; [exact Hall|].
  intros [w' d] Hp. cbn in *. by rewrite decide_True.
Qed.

(** X10: with collaborators that do not fail and a formatter that
    renders every record, every [emit] task hands the line of its
    record to a writer exactly once, however the tasks interleave.  Any
    number of [emit] tasks on a handler whose lock is free, any
    schedule: at every moment what the writers were handed is whole
    lines of different tasks, each in one write, in the order in which
    the tasks wrote; when all tasks are finished it is the lines of all
    the records, each exactly once.  On a handler that has writer [w]
    all of them are handed to [w], so [w] receives the line of every
    record exactly once and nothing else.  (On a handler without a
    writer the tasks may acquire several writers, and then the lines
    are spread over them.) *)
Theorem X10_every_line_exactly_once env (rs : list LogRecord)
    (render : LogRecord -> string) (wr : option Writer) tr0 sch :
  reliable env ->
  Forall (fun r => format env r = inr (render r)) rs ->
  let l := exec (perform env) yields sch (gather (MkState wr false tr0) rs) in
  exists ws : list (Writer * string),
    handed (trace (shared l))
      = handed tr0 ++ ((fun p => (p.1, encode p.2 ++ ["010"%byte])) <$> ws)
    /\ snd <$> ws ⊆+ render <$> rs
    /\ (all_finished l = true -> snd <$> ws ≡ₚ render <$> rs)
    /\ (forall w, wr = Some w ->
          Forall (fun p => p.1 = w) ws
          /\ written_to w (trace (shared l))
             = written_to w tr0
                 ++ concat ((fun p => encode p.2 ++ ["010"%byte]) <$> ws)).
Proof.
  intros Hrel Hfmt. cbn zeta. rewrite gather_tasks, exec_tasks.
  pose proof (stage_run_inv env
    (fun s ps => exists order, written_by render (handed tr0) rs order s ps))
    as Hrun.
  specialize (Hrun ltac:(
    intros s ps i r st [order Hinv] Hi;
    by apply (written_by_step env render (handed tr0) rs order s ps i r st))
    sch (MkState wr false tr0) ((., Fresh) <$> rs)).
  pose proof (stage_run_inv env
    (fun s ps => forall w, wr = Some w ->
       writer s = Some w /\ Forall (fun p => fast_path p.2) ps
       /\ exists hs, handed (trace s) = handed tr0 ++ hs
                     /\ Forall (fun p => p.1 = w) hs)) as Hone.
  specialize (Hone ltac:(
    intros s ps i r st Hinv Hi;
    destruct wr as [w|]; [|by destruct (stage_step env r st s)];
    destruct (Hinv w eq_refl) as (Hw & Hps & hs & Hh & Hhs);
    pose proof (proj1 (Forall_lookup _ _) Hps i _ Hi) as Hst;
    pose proof (fast_path_step env r st s w Hw Hst) as Hstep;
    pose proof (fast_path_handed env r st s w Hw Hst) as Hhand;
    destruct (stage_step env r st s) as [s' st'];
    destruct Hstep as (Hw' & _ & _ & _ & Hst');
    destruct Hhand as (hs' & Hh' & Hhs');
    intros w0 [= <-];
    split; [done|]; split; [by apply Forall_insert|];
    exists (hs ++ hs'); split; [by rewrite Hh', Hh, app_assoc|];
    by apply Forall_app)
    sch (MkState wr false tr0) ((., Fresh) <$> rs)).
  pose proof (stage_run_length env sch (MkState wr false tr0) ((., Fresh) <$> rs))
    as Hlen.
  destruct (foldl (stage_turn env) _ sch) as [s' ps'].
  cbn [snd] in Hlen. rewrite length_fmap in Hlen. cbn [shared pool].
  destruct Hrun as (order & Hrs & Hnd & Hin & Hw).
  { exists []. split; [|split; [apply NoDup_nil_2|split]].
    - rewrite <- list_fmap_compose. by rewrite list_fmap_id.
    - intros i. split; [by intros ?%elem_of_nil|].
      intros (r & st & Hst & Hp).
      apply list_lookup_fmap_Some in Hst as (r' & [= _ ->] & _). done.
    - cbn. by rewrite app_nil_r. }
  assert (Hbound : forall i, i ∈ fst <$> order -> i ∈ seq 0 (length rs)).
  { intros i Hi. apply Hin in Hi as (r & st & Hst & _).
    apply lookup_lt_Some in Hst. apply elem_of_seq. lia. }
  set (ws := (fun p : nat * Writer => (p.2, text_of render rs p.1)) <$> order).
  assert (Hws : snd <$> ws = text_of render rs <$> (fst <$> order)).
  { subst ws. rewrite <- !list_fmap_compose. by apply list_fmap_ext. }
  assert (Hh : handed (trace s')
               = handed tr0 ++ ((fun p => (p.1, encode p.2 ++ ["010"%byte])) <$> ws)).
  { rewrite Hw. f_equal. subst ws. rewrite <- list_fmap_compose.
    apply list_fmap_ext. intros i p _. cbn. by rewrite line_bytes. }
  exists ws. split; [done|]. rewrite Hws. split; [|split].
  - rewrite <- text_of_seq. apply fmap_submseteq.
    by apply NoDup_submseteq.
  - unfold all_finished. cbn [pool]. rewrite forallb_forall. intros Hfin.
    rewrite <- text_of_seq. apply fmap_Permutation.
    apply NoDup_Permutation; [done|apply NoDup_seq|].
    intros i. split; [apply Hbound|]. intros Hi%elem_of_seq.
    destruct (lookup_lt_is_Some_2 ps' i ltac:(lia)) as [[r st] Hst].
    apply Hin. exists r, st. split; [done|].
    assert (Hdone : finished (task_of r st) = true).
    { apply Hfin, list_elem_of_In. unfold tasks.
      apply list_elem_of_fmap. exists (r, st). split; [done|].
      by eapply list_elem_of_lookup_2. }
    rewrite finished_task_of in Hdone. by destruct st.
  - intros w Hwr.
    assert (Hstart : forall w0, wr = Some w0 ->
              writer (MkState wr false tr0) = Some w0
              /\ Forall (fun p : LogRecord * Stage => fast_path p.2) ((., Fresh) <$> rs)
              /\ exists hs : list (Writer * list byte),
                   handed (trace (MkState wr false tr0)) = handed tr0 ++ hs
                   /\ Forall (fun p => p.1 = w0) hs).
    { intros w0 Hw0. split; [by rewrite <- Hw0|]. split.
      - apply Forall_fmap, Forall_forall. by intros r _.
      - exists []. by rewrite app_nil_r. }
    destruct (Hone Hstart w Hwr) as (_ & _ & hs & Hhs & Hall).
    rewrite Hh in Hhs. apply app_inv_head in Hhs. subst hs.
    split.
    + apply Forall_fmap in Hall. eapply Forall_impl; [exact Hall|]. by intros p.
    + rewrite (written_to_only w tr0 _ _ Hh Hall). f_equal.
      rewrite <- list_fmap_compose. done.
Qed.

Lemma X10_every_line_exactly_once_witness :
  let l := exec (perform ok_env) yields [1; 0; 1; 0]
             (gather (MkState (Some 0) false [EConnect (inr 0)])
                [record_of "first"; record_of "second"]) in
  exists ws : list (Writer * string),
    handed (trace (shared l))
      = handed [EConnect (inr 0)]
          ++ ((fun p => (p.1, encode p.2 ++ ["010"%byte])) <$> ws)
    /\ snd <$> ws ≡ₚ msg <$> [record_of "first"; record_of "second"]
    /\ Forall (fun p => p.1 = 0) ws
    /\ written_to 0 (trace (shared l))
       = written_to 0 [EConnect (inr 0)]
           ++ concat ((fun p => encode p.2 ++ ["010"%byte]) <$> ws).
Proof.
  destruct (X10_every_line_exactly_once ok_env
              [record_of "first"; record_of "second"] msg (Some 0)
              [EConnect (inr 0)] [1; 0; 1; 0])
    as (ws & Hh & _ & Hperm & Hone).
  - split; [|split]; [intros tr; eexists; reflexivity | reflexivity | reflexivity].
  - repeat constructor.
  - exists ws. split; [exact Hh|]. split; [apply Hperm; reflexivity|].
    apply (Hone 0). reflexivity.
Defined.

End EmitPools.

(** * Concurrent [close] calls *)

Section ClosePools.
Import AsyncStreamHandler.

Implicit Types (env : Env) (s : State) (tr : list Event)
  (w : Writer) (st : CloseStage) (sch : list nat) (ps : list CloseStage).

(** A turn of a [close] task parked at [st] is a step of [close_step]. *)
Lemma resume_close_task_of env st s :
  resume (perform env) yields (close_task_of st) s
  = let '(s', st') := close_step env st s in (s', close_task_of st').
Proof.
  destruct s as [wr lk tr]. destruct st as [|w|[[]|e]]; try done.
  - by destruct wr as [w|].
  - cbn. destruct (writer_drain env tr w) as [e|[]]; cbn; [done|].
    destruct wr as [w'|]; cbn; [|done].
    by destruct (writer_close env _ w') as [e|[]].
Qed.

Lemma close_turn_tasks env s ps i :
  turn (perform env) yields (MkLoop s (close_tasks ps)) i
  = let '(s', ps') := close_turn env (s, ps) i in MkLoop s' (close_tasks ps').
Proof.
  unfold turn, close_turn, close_tasks. cbn [pool shared fst snd].
  rewrite list_lookup_fmap.
  destruct (ps !! i) as [st|]; cbn [fmap option_fmap option_map]; [|done].
  rewrite resume_close_task_of.
  destruct (close_step env st s) as [s' st'].
  by rewrite list_fmap_insert.
Qed.

Lemma close_exec_tasks env sch s ps :
  exec (perform env) yields sch (MkLoop s (close_tasks ps))
  = let '(s', ps') := foldl (close_turn env) (s, ps) sch in
    MkLoop s' (close_tasks ps').
Proof.
  unfold exec. revert s ps. induction sch as [|i sch IH]; intros s ps; [done|].
  cbn [foldl]. rewrite close_turn_tasks.
  destruct (close_turn env (s, ps) i) as [s' ps']. apply IH.
Qed.

Lemma closers_tasks s n :
  closers s n = MkLoop s (close_tasks (replicate n NotStarted)).
Proof. unfold closers, close_tasks. by rewrite fmap_replicate. Qed.

Lemma close_run_inv env (P : State -> list CloseStage -> Prop) :
  (forall s ps i st,
     P s ps -> ps !! i = Some st ->
     let '(s', st') := close_step env st s in P s' (<[i := st']> ps)) ->
  forall sch s ps,
    P s ps ->
    let '(s', ps') := foldl (close_turn env) (s, ps) sch in P s' ps'.
Proof.
  intros Hstep. induction sch as [|i sch IH]; intros s ps HP; [done|].
  cbn [foldl]. unfold close_turn at 2. cbn [fst snd].
  destruct (ps !! i) as [st|] eqn:Hi; [|by apply IH].
  specialize (Hstep s ps i st HP Hi).
  destruct (close_step env st s) as [s' st']. by apply IH.
Qed.

Lemma close_run_length env sch s ps :
  length (foldl (close_turn env) (s, ps) sch).2 = length ps.
Proof.
  revert s ps. induction sch as [|i sch IH]; intros s ps; [done|].
  cbn [foldl]. unfold close_turn at 2. cbn [fst snd].
  destruct (ps !! i) as [st|]; [|apply IH].
  destruct (close_step env st s) as [s' st']. by rewrite IH, length_insert.
Qed.

Lemma sum_list_with_insert {A} (f : A -> nat) (l : list A) i x y :
  l !! i = Some x ->
  sum_list_with f (<[i := y]> l) + f x = sum_list_with f l + f y.
Proof.
  revert i. induction l as [|a l IH]; intros [|i] Hi; (simplify_eq/=); [lia|].
  specialize (IH i Hi). lia.
Qed.

Lemma sum_list_with_pos {A} (f : A -> nat) (l : list A) :
  0 < sum_list_with f l -> exists i x, l !! i = Some x /\ 0 < f x.
Proof.
  induction l as [|a l IH]; cbn; [lia|]. intros H.
  destruct (decide (0 < f a)) as [Hf|Hf]; [by exists 0, a|].
  destruct IH as (i & x & Hi & Hx); [lia|]. by exists (S i), x.
Qed.

Lemma released_snoc tr ev :
  released (tr ++ [ev]) = released tr + if is_released ev then 1 else 0.
Proof. rewrite released_app. unfold released. cbn. by destruct (is_released ev). Qed.

(** What a turn of a [close] task does to the handler, whatever the
    writer answers: [self.writer] is cleared exactly when a writer was
    closed, nothing else changes, and the task comes nearer to its
    end. *)
Lemma close_step_spec env st s :
  let '(s', st') := close_step env st s in
  released (trace s') + held (writer s') = released (trace s) + held (writer s)
  /\ locked s' = locked s
  /\ acquisitions (trace s') = acquisitions (trace s)
  /\ close_rank st' <= pred (close_rank st).
Proof.
  destruct st as [|w|out]; unfold close_step.
  - destruct (writer s) as [w|] eqn:Hw; cbn [close_rank pred]; rewrite Hw;
      repeat split; (done || lia).
  - cbn zeta. destruct (writer_drain env (trace s) w) as [e|[]].
    { unfold note. cbn [trace writer locked close_rank pred].
      rewrite released_snoc, acquisitions_snoc. cbn [is_released is_connect].
      repeat split; (done || lia). }
    unfold note at 1 2 3. cbn [writer].
    destruct (writer s) as [w'|] eqn:Hw.
    + destruct (writer_close env _ w') as [e|[]]; unfold note;
        cbn [trace writer locked close_rank pred]; rewrite ?Hw;
        rewrite !released_snoc, !acquisitions_snoc;
        cbn [is_released is_connect held]; repeat split; (done || lia).
    + unfold note. cbn [trace writer locked close_rank pred]. rewrite Hw.
      rewrite released_snoc, acquisitions_snoc. cbn [is_released is_connect].
      repeat split; (done || lia).
  - cbn [close_rank pred]. repeat split; (done || lia).
Qed.

Lemma finished_close_task_of st :
  finished (close_task_of st) = match st with Over _ => true | _ => false end.
Proof. by destruct st as [| |[[]|]]. Qed.

Lemma finished_close_rank ps :
  sum_list_with close_rank ps = 0 -> forallb finished (close_tasks ps) = true.
Proof.
  unfold close_tasks. induction ps as [|st ps IH]; [done|].
  cbn. intros H. rewrite finished_close_task_of, IH by lia.
  destruct st; cbn in *; lia || done.
Qed.

(** [close] tasks wait for nobody: the loop can always bring them to
    their end. *)
Lemma closes_progress env n : forall s ps,
  sum_list_with close_rank ps <= n ->
  exists sch,
    length sch <= n
    /\ sum_list_with close_rank (foldl (close_turn env) (s, ps) sch).2 = 0.
Proof.
  induction n as [|n IH]; intros s ps Hn.
  { exists []. cbn [foldl snd length]. split; lia. }
  destruct (decide (sum_list_with close_rank ps = 0)) as [Hz|Hz].
  { exists []. cbn [foldl snd length]. split; [lia|done]. }
  destruct (sum_list_with_pos close_rank ps) as (i & st & Hi & Hpos); [lia|].
  pose proof (close_step_spec env st s) as Hstep.
  destruct (close_step env st s) as [s' st'] eqn:Hcs.
  destruct Hstep as (_ & _ & _ & Hrank).
  pose proof (sum_list_with_insert close_rank ps i st st' Hi) as Hcnt.
  destruct (IH s' (<[i := st']> ps) ltac:(lia)) as (sch & Hlen & Hend).
  exists (i :: sch). split; [cbn; lia|].
  cbn [foldl]. unfold close_turn at 2. cbn [fst snd]. by rewrite Hi, Hcs.
Qed.

(** The first turn of each of [n] tasks on a handler with writer [w0]:
    all are suspended in the drain of [w0], nothing has happened yet. *)
Lemma closers_start env w0 lk tr n : forall j,
  foldl (close_turn env)
    (MkState (Some w0) lk tr, replicate j (InFlush w0) ++ replicate n NotStarted)
    (seq j n)
  = (MkState (Some w0) lk tr, replicate (j + n) (InFlush w0)).
Proof.
  induction n as [|n IH]; intros j.
  - cbn. by rewrite app_nil_r, Nat.add_0_r.
  - cbn [seq foldl replicate]. unfold close_turn at 2. cbn [fst snd].
    rewrite lookup_app_r by (rewrite length_replicate; lia).
    rewrite length_replicate, Nat.sub_diag. cbn [lookup list_lookup close_step writer].
    rewrite insert_app_r_alt by (rewrite length_replicate; lia).
    rewrite length_replicate, Nat.sub_diag. cbn [insert list_insert].
    replace (replicate j (InFlush w0) ++ InFlush w0 :: replicate n NotStarted)
      with (replicate (S j) (InFlush w0) ++ replicate n NotStarted).
    + rewrite IH. do 2 f_equal. lia.
    + by rewrite replicate_S_end, <- app_assoc.
Qed.

(** Every turn of the race keeps [close_race]. *)
Lemma close_race_step env w0 a s ps i st :
  (forall tr w, writer_drain env tr w = inr tt) ->
  (forall tr w, writer_close env tr w = inr tt) ->
  close_race w0 a s ps -> ps !! i = Some st ->
  let '(s', st') := close_step env st s in close_race w0 a s' (<[i := st']> ps).
Proof.
  intros Hd Hc Hinv Hi.
  assert (Hlt : i < length ps) by (by eapply lookup_lt_Some).
  destruct Hinv as [(Hw & Hrel & Hall) | (Hw & Hrel & i0 & Hi0 & Hothers)].
  - (* the first task to go on closes the writer *)
    pose proof (proj1 (Forall_lookup _ _) Hall i _ Hi) as ->.
    unfold close_step. rewrite Hd. unfold note at 1 2. cbn [writer trace].
    rewrite Hw, Hc. right. unfold note. cbn [writer trace locked].
    split; [done|]. split.
    { rewrite !released_snoc. cbn [is_released]. rewrite Hc. lia. }
    exists i. split; [by apply list_lookup_insert_eq|].
    intros j st Hne Hj. rewrite list_lookup_insert_ne in Hj by done.
    left. by apply (proj1 (Forall_lookup _ _) Hall j _ Hj).
  - (* the writer is gone *)
    destruct (decide (i = i0)) as [->|Hne].
    + assert (st = Over (Returned tt)) as -> by congruence.
      cbn [close_step]. rewrite list_insert_id by done.
      right. split; [done|]. split; [done|]. by exists i0.
    + destruct (Hothers i st Hne Hi) as [-> | ->].
      * unfold close_step. rewrite Hd. unfold note. cbn [writer trace locked].
        rewrite Hw. right. cbn [writer trace].
        split; [done|]. split.
        { rewrite released_snoc. cbn [is_released]. lia. }
        exists i0. split; [by rewrite list_lookup_insert_ne|].
        intros j st Hj Hst. destruct (decide (j = i)) as [->|Hji].
        -- rewrite list_lookup_insert_eq in Hst by done. right. congruence.
        -- rewrite list_lookup_insert_ne in Hst by done. by eapply Hothers.
      * cbn [close_step]. rewrite list_insert_id by done.
        right. split; [done|]. split; [done|]. by exists i0.
Qed.

(** X11: [close] calls that run concurrently never close a writer
    twice and never wait for each other.  Any number of [close] tasks
    on a handler in any state, any behaviour of the writer, any
    schedule: at every moment the writers closed since the tasks were
    created are as many as [self.writer] was cleared (none, or the one
    writer of the handler), the lock and the pipe were not touched; and
    the loop can always bring all the tasks to their end, with at most
    two more turns per task. *)
Theorem X11_concurrent_closes_release_once env (n : nat) s0 sch :
  let l := exec (perform env) yields sch (closers s0 n) in
  released (trace (shared l)) + held (writer (shared l))
    = released (trace s0) + held (writer s0)
  /\ locked (shared l) = locked s0
  /\ acquisitions (trace (shared l)) = acquisitions (trace s0)
  /\ exists sch',
       length sch' <= 2 * n
       /\ all_finished (exec (perform env) yields (sch ++ sch') (closers s0 n))
          = true.
Proof.
  cbn zeta. rewrite closers_tasks, close_exec_tasks.
  pose proof (close_run_inv env
    (fun s ps =>
       released (trace s) + held (writer s) = released (trace s0) + held (writer s0)
       /\ locked s = locked s0
       /\ acquisitions (trace s) = acquisitions (trace s0))) as Hrun.
  specialize (Hrun ltac:(
    intros s ps i st (Hb & Hl & Ha) Hi;
    pose proof (close_step_spec env st s) as Hstep;
    destruct (close_step env st s) as [s' st'];
    destruct Hstep as (Hb' & Hl' & Ha' & _);
    rewrite Hb', Hl', Ha'; done)
    sch s0 (replicate n NotStarted) ltac:(done)).
  pose proof (close_run_length env sch s0 (replicate n NotStarted)) as Hlen.
  destruct (foldl (close_turn env) _ sch) as [s1 ps1] eqn:Hfold.
  cbn [shared snd] in *. rewrite length_replicate in Hlen.
  destruct Hrun as (Hb & Hl & Ha). split; [done|]. split; [done|]. split; [done|].
  destruct (closes_progress env (2 * n) s1 ps1) as (sch' & Hn & Hend).
  { clear -Hlen. revert n Hlen. induction ps1 as [|st ps1 IH]; intros n Hlen.
    - cbn. lia.
    - destruct n as [|n]; [done|]. cbn in Hlen. specialize (IH n ltac:(lia)).
      cbn. destruct st; cbn; lia. }
  exists sch'. split; [done|].
  rewrite exec_app, close_exec_tasks, Hfold, close_exec_tasks.
  destruct (foldl (close_turn env) (s1, ps1) sch') as [s' ps'].
  unfold all_finished. cbn [pool snd] in *. by apply finished_close_rank.
Qed.

(** X12: [close] calls that are suspended in their drain at the same
    time do not all return.  With a writer that drains and closes
    without failing, [n >= 1] [close] tasks on a handler with writer
    [w0], each having had its first turn before any of them went on:
    however the loop schedules them afterwards, when all are finished
    [self.writer] is [None], [w0] was closed exactly once, one task has
    returned normally and every other task has raised [AttributeError]
    (it finds [self.writer] gone when its drain completes); and one
    more turn for each task brings them all to their end. *)
Theorem X12_concurrent_closes_race env (n : nat) w0 lk tr0 :
  (forall tr w, writer_drain env tr w = inr tt) ->
  (forall tr w, writer_close env tr w = inr tt) ->
  1 <= n ->
  (forall sch,
     let l := exec (perform env) yields (seq 0 n ++ sch)
                (closers (MkState (Some w0) lk tr0) n) in
     all_finished l = true ->
     writer (shared l) = None
     /\ released (trace (shared l)) = released tr0 + 1
     /\ exists i,
          pool l !! i = Some (Ret tt)
          /\ forall j, j < n -> j <> i ->
               pool l !! j = Some (Raise AttributeError))
  /\ all_finished (exec (perform env) yields (seq 0 n ++ seq 0 n)
                     (closers (MkState (Some w0) lk tr0) n)) = true.
Proof.
  intros Hd Hc Hn.
  assert (Hstart :
    exec (perform env) yields (seq 0 n) (closers (MkState (Some w0) lk tr0) n)
    = MkLoop (MkState (Some w0) lk tr0) (close_tasks (replicate n (InFlush w0)))).
  { rewrite closers_tasks, close_exec_tasks.
    pose proof (closers_start env w0 lk tr0 n 0) as H. cbn in H. by rewrite H. }
  assert (Hinv0 : close_race w0 (released tr0) (MkState (Some w0) lk tr0)
                    (replicate n (InFlush w0))).
  { left. split; [done|]. split; [done|].
    apply Forall_forall. intros st Hst. by apply elem_of_replicate in Hst as [-> _]. }
  assert (Hrace : forall sch,
    let '(s', ps') := foldl (close_turn env)
                        (MkState (Some w0) lk tr0, replicate n (InFlush w0)) sch in
    close_race w0 (released tr0) s' ps' /\ length ps' = n).
  { intros sch.
    pose proof (close_run_inv env (close_race w0 (released tr0))
                  ltac:(intros s ps i st; by apply close_race_step)
                  sch _ _ Hinv0) as Hrun.
    pose proof (close_run_length env sch (MkState (Some w0) lk tr0)
                  (replicate n (InFlush w0))) as Hlen.
    destruct (foldl (close_turn env) _ sch) as [s' ps'].
    cbn [snd] in Hlen. by rewrite length_replicate in Hlen. }
  split.
  - intros sch. cbn zeta. rewrite exec_app, Hstart, close_exec_tasks.
    specialize (Hrace sch).
    destruct (foldl (close_turn env) _ sch) as [s' ps'].
    destruct Hrace as [Hinv Hlen]. cbn [shared pool].
    unfold all_finished. cbn [pool]. rewrite forallb_forall. intros Hfin.
    assert (Hover : forall j st, ps' !! j = Some st -> st <> InFlush w0).
    { intros j st Hj ->.
      assert (finished (close_task_of (InFlush w0)) = true) as Hf; [|done].
      apply Hfin, list_elem_of_In. unfold close_tasks.
      apply list_elem_of_fmap. exists (InFlush w0). split; [done|].
      by eapply list_elem_of_lookup_2. }
    destruct Hinv as [(_ & _ & Hall) | (Hw & Hrel & i0 & Hi0 & Hothers)].
    { destruct (lookup_lt_is_Some_2 ps' 0 ltac:(lia)) as [st Hst].
      pose proof (proj1 (Forall_lookup _ _) Hall 0 _ Hst) as ->.
      by destruct (Hover 0 _ Hst). }
    split; [done|]. split; [done|]. exists i0. unfold close_tasks. split.
    + by rewrite list_lookup_fmap, Hi0.
    + intros j Hj Hne. rewrite list_lookup_fmap.
      destruct (lookup_lt_is_Some_2 ps' j ltac:(lia)) as [st Hst].
      rewrite Hst. destruct (Hothers j st Hne Hst) as [-> | ->]; [|done].
      by destruct (Hover j _ Hst).
  - rewrite exec_app, Hstart, close_exec_tasks.
    (* one more turn each: every drain completes *)
    assert (Hsweep : forall m j s ps,
      j + m = length ps ->
      (forall k st, k < j -> ps !! k = Some st -> close_rank st = 0) ->
      (forall k st, j <= k -> ps !! k = Some st -> close_rank st <= 1) ->
      sum_list_with close_rank (foldl (close_turn env) (s, ps) (seq j m)).2 = 0).
    { induction m as [|m IH]; intros j s ps Hlen Hlow Hhigh.
      - cbn [seq foldl snd]. clear -Hlen Hlow.
        assert (forall k st, ps !! k = Some st -> close_rank st = 0) as H.
        { intros k st Hk. apply (Hlow k); [|done].
          apply lookup_lt_Some in Hk. lia. }
        clear Hlow Hlen. induction ps as [|st ps IHps]; [done|]. cbn.
        rewrite (H 0 st) by done. rewrite IHps; [done|].
        intros k st' Hk. by apply (H (S k)).
      - cbn [seq foldl]. unfold close_turn at 2. cbn [fst snd].
        destruct (lookup_lt_is_Some_2 ps j ltac:(lia)) as [st Hst]. rewrite Hst.
        pose proof (close_step_spec env st s) as Hstep.
        destruct (close_step env st s) as [s' st'].
        destruct Hstep as (_ & _ & _ & Hrank).
        pose proof (Hhigh j st ltac:(lia) Hst) as Hle.
        apply IH.
        + rewrite length_insert. lia.
        + intros k st1 Hk Hst1. destruct (decide (k = j)) as [->|Hkj].
          * rewrite list_lookup_insert_eq in Hst1 by lia.
            injection Hst1 as <-. lia.
          * rewrite list_lookup_insert_ne in Hst1 by done.
            apply (Hlow k); [lia|done].
        + intros k st1 Hk Hst1.
          rewrite list_lookup_insert_ne in Hst1 by lia.
          apply (Hhigh k); [lia|done]. }
    specialize (Hsweep n 0 (MkState (Some w0) lk tr0) (replicate n (InFlush w0))).
    rewrite length_replicate in Hsweep. specialize (Hsweep eq_refl).
    destruct (foldl (close_turn env) _ (seq 0 n)) as [s' ps'].
    unfold all_finished. cbn [pool snd] in *. apply finished_close_rank, Hsweep.
    + intros k st Hk. lia.
    + intros k st _ Hst. apply lookup_replicate in Hst as [-> _]. done.
Qed.

Lemma X12_concurrent_closes_race_witness :
  let l := exec (perform ok_env) yields (seq 0 3 ++ [2; 0; 1])
             (closers (MkState (Some 0) false [EConnect (inr 0)]) 3) in
  writer (shared l) = None
  /\ released (trace (shared l)) = 0 + 1
  /\ exists i,
       pool l !! i = Some (Ret tt)
       /\ forall j, j < 3 -> j <> i -> pool l !! j = Some (Raise AttributeError).
Proof.
  destruct (X12_concurrent_closes_race ok_env 3 0 false [EConnect (inr 0)])
    as [Hrace _]; [reflexivity | reflexivity | lia |].
  apply (Hrace [2; 0; 1]). reflexivity.
Defined.

End ClosePools.

(** * Concurrent [emit], [flush] and [close] calls *)

Section Jobs.
Import AsyncStreamHandler.

Implicit Types (env : Env) (s : State) (tr : list Event)
  (w : Writer) (r : LogRecord) (j : Job) (js : list Job) (sch : list nat).

Lemma resume_flush_task_of env (st : FlushStage) s :
  resume (perform env) yields (flush_task_of st) s
  = let '(s', st') := flush_step env st s in (s', flush_task_of st').
Proof.
  destruct s as [wr lk tr]. destruct st as [|w|[[]|e]]; try done.
  - by destruct wr as [w|].
  - cbn. by destruct (writer_drain env tr w) as [e|[]].
Qed.

(** A turn of a task is a step of its machine. *)
Lemma resume_job_of env j s :
  resume (perform env) yields (job_of j) s
  = let '(s', j') := job_step env j s in (s', job_of j').
Proof.
  destruct j as [r st|st|st]; cbn [job_of job_step].
  - rewrite resume_task_of. by destruct (stage_step env r st s).
  - rewrite resume_flush_task_of. by destruct (flush_step env st s).
  - rewrite resume_close_task_of. by destruct (close_step env st s).
Qed.

Lemma job_turn_jobs env s js i :
  turn (perform env) yields (MkLoop s (jobs js)) i
  = let '(s', js') := job_turn env (s, js) i in MkLoop s' (jobs js').
Proof.
  unfold turn, job_turn, jobs. cbn [pool shared fst snd].
  rewrite list_lookup_fmap.
  destruct (js !! i) as [j|]; cbn [fmap option_fmap option_map]; [|done].
  rewrite resume_job_of.
  destruct (job_step env j s) as [s' j'].
  by rewrite list_fmap_insert.
Qed.

Lemma job_exec_jobs env sch s js :
  exec (perform env) yields sch (MkLoop s (jobs js))
  = let '(s', js') := foldl (job_turn env) (s, js) sch in
    MkLoop s' (jobs js').
Proof.
  unfold exec. revert s js. induction sch as [|i sch IH]; intros s js; [done|].
  cbn [foldl]. rewrite job_turn_jobs.
  destruct (job_turn env (s, js) i) as [s' js']. apply IH.
Qed.

Lemma serving_jobs s (qs : list Request) :
  serving s qs = MkLoop s (jobs (start <$> qs)).
Proof.
  unfold serving, jobs. f_equal. rewrite <- list_fmap_compose.
  apply list_fmap_ext. by intros i [r| |] _.
Qed.

Lemma job_run_inv env (P : State -> list Job -> Prop) :
  (forall s js i j,
     P s js -> js !! i = Some j ->
     let '(s', j') := job_step env j s in P s' (<[i := j']> js)) ->
  forall sch s js,
    P s js ->
    let '(s', js') := foldl (job_turn env) (s, js) sch in P s' js'.
Proof.
  intros Hstep. induction sch as [|i sch IH]; intros s js HP; [done|].
  cbn [foldl]. unfold job_turn at 2. cbn [fst snd].
  destruct (js !! i) as [j|] eqn:Hi; [|by apply IH].
  specialize (Hstep s js i j HP Hi).
  destruct (job_step env j s) as [s' j']. by apply IH.
Qed.

Lemma job_run_length env sch s js :
  length (foldl (job_turn env) (s, js) sch).2 = length js.
Proof.
  revert s js. induction sch as [|i sch IH]; intros s js; [done|].
  cbn [foldl]. unfold job_turn at 2. cbn [fst snd].
  destruct (js !! i) as [j|]; [|apply IH].
  destruct (job_step env j s) as [s' j']. by rewrite IH, length_insert.
Qed.

Lemma in_connect_job_of j : in_connect (job_of j) = job_in_connect j.
Proof.
  destruct j as [r st|st|st]; cbn [job_of job_in_connect].
  - apply in_connect_task_of.
  - by destruct st as [| |[[]|]].
  - by destruct st as [| |[[]|]].
Qed.

Lemma in_connect_jobs js :
  sum_list_with in_connect (jobs js) = sum_list_with job_in_connect js.
Proof.
  unfold jobs. induction js as [|j js IH]; [done|].
  cbn. by rewrite in_connect_job_of, IH.
Qed.

Lemma finished_job_of j :
  finished (job_of j) = true <-> job_rank j = 0.
Proof.
  destruct j as [r st|st|st]; cbn [job_of job_rank].
  - rewrite finished_task_of. by destruct st.
  - by destruct st as [| |[[]|]].
  - rewrite finished_close_task_of. by destruct st.
Qed.

Lemma finished_job_rank js :
  sum_list_with job_rank js = 0 -> forallb finished (jobs js) = true.
Proof.
  unfold jobs. induction js as [|j js IH]; [done|].
  cbn. intros H. rewrite IH by lia. rewrite andb_true_r.
  apply finished_job_of. lia.
Qed.

(** What a turn does to the lock: the task that was in front of
    [connect_write_pipe] releases it, a task that finds it free may take
    it and is then in front of [connect_write_pipe], and nothing else
    touches it. *)
Lemma job_step_lock env j s :
  let '(s', j') := job_step env j s in
  (job_in_connect j = 1 /\ locked s' = false /\ job_in_connect j' = 0)
  \/ (job_in_connect j = 0 /\ locked s' = locked s /\ job_in_connect j' = 0)
  \/ (job_in_connect j = 0 /\ locked s = false /\ locked s' = true
      /\ job_in_connect j' = 1).
Proof.
  destruct j as [r st|st|st]; cbn [job_step job_in_connect].
  - destruct (past_init st) eqn:Hp.
    + pose proof (stage_step_past_init env r st s Hp) as H.
      destruct (stage_step env r st s) as [s' st'].
      destruct H as (Hp' & Hl & _). right. left.
      split; [by destruct st|]. split; [done|]. by destruct st'.
    + assert (Hwait :
        let '(s', st') := (if locked s then (s, AtLock)
                           else (MkState (writer s) true (trace s), AtConnect)) in
        (locked s' = locked s /\ at_connect st' = 0)
        \/ (locked s = false /\ locked s' = true /\ at_connect st' = 1)).
      { destruct (locked s) eqn:Hlk; [left|right]; by rewrite ?Hlk. }
      destruct st; try done.
      * unfold stage_step. destruct (writer s) as [w|].
        -- pose proof (write_step_spec env r w s) as H.
           destruct (write_step env r w s) as [s' st'].
           destruct H as (Hp' & Hl & _). right. left.
           split; [done|]. split; [done|]. by destruct st'.
        -- destruct (if locked s then _ else _) as [s' st'].
           right. destruct Hwait as [[? ?] | (? & ? & ?)]; [left|right]; done.
      * unfold stage_step. destruct (if locked s then _ else _) as [s' st'].
        right. destruct Hwait as [[? ?] | (? & ? & ?)]; [left|right]; done.
      * pose proof (stage_step_connect env r s) as H.
        destruct (stage_step env r AtConnect s) as [s' st'].
        destruct H as (Hp' & Hl & _). left.
        split; [done|]. split; [done|]. by destruct st'.
  - assert (Hl : locked (flush_step env st s).1 = locked s).
    { destruct st; unfold flush_step; [by destruct (writer s)|done..]. }
    destruct (flush_step env st s) as [s' st']. right. by left.
  - pose proof (close_step_spec env st s) as H.
    destruct (close_step env st s) as [s' st'].
    destruct H as (_ & Hl & _). right. by left.
Qed.

Lemma lock_inv_step env s js i j :
  lock_inv s js -> js !! i = Some j ->
  let '(s', j') := job_step env j s in lock_inv s' (<[i := j']> js).
Proof.
  unfold lock_inv. intros Hinv Hi.
  pose proof (job_step_lock env j s) as Hstep.
  destruct (job_step env j s) as [s' j'].
  pose proof (sum_list_with_insert job_in_connect js i j j' Hi) as Hsum.
  assert (Hge : job_in_connect j <= sum_list_with job_in_connect js).
  { apply (sum_list_with_in j job_in_connect).
    by eapply list_elem_of_lookup_2. }
  destruct Hstep as [(Hj & Hl & Hj') | [(Hj & Hl & Hj') | (Hj & Hl & Hl' & Hj')]];
    rewrite ?Hl, ?Hl'.
  - destruct (locked s); lia.
  - destruct (locked s); lia.
  - rewrite Hl in Hinv. lia.
Qed.

Lemma lock_inv_run env sch wr tr (qs : list Request) :
  let '(s', js') :=
    foldl (job_turn env) (MkState wr false tr, start <$> qs) sch in
  lock_inv s' js'.
Proof.
  apply (job_run_inv env lock_inv).
  - intros s js i j. apply lock_inv_step.
  - unfold lock_inv. cbn [locked]. induction qs as [|[r| |] qs IH]; by cbn.
Qed.

(** A task that is not kept waiting comes nearer to its end. *)
Lemma job_step_rank env j s :
  locked s = false \/ job_in_connect j = 1 ->
  job_rank (job_step env j s).2 <= pred (job_rank j).
Proof.
  intros Hgo. destruct j as [r st|st|st]; cbn [job_step job_rank].
  - pose proof (stage_step_rank env r st s) as H.
    destruct (stage_step env r st s) as [s' st']. cbn [snd] in *.
    apply H. destruct Hgo as [? | Hc]; [by left|]. right. left.
    by destruct st.
  - destruct st as [|w|out]; unfold flush_step; cbn.
    + destruct (writer s); cbn; lia.
    + lia.
    + lia.
  - pose proof (close_step_spec env st s) as H.
    destruct (close_step env st s) as [s' st']. cbn [snd].
    by destruct H as (_ & _ & _ & H).
Qed.

(** From every state in which the lock is held by a task of the pool or
    by nobody, the loop can bring all tasks to their end. *)
Lemma jobs_progress env n : forall s js,
  lock_inv s js -> sum_list_with job_rank js <= n ->
  exists sch,
    length sch <= n
    /\ sum_list_with job_rank (foldl (job_turn env) (s, js) sch).2 = 0.
Proof.
  induction n as [|n IH]; intros s js Hinv Hn.
  { exists []. cbn [foldl snd length]. split; lia. }
  destruct (decide (sum_list_with job_rank js = 0)) as [Hz|Hz].
  { exists []. cbn [foldl snd length]. split; [lia|done]. }
  assert (exists i j,
    js !! i = Some j /\ 0 < job_rank j
    /\ (locked s = false \/ job_in_connect j = 1))
    as (i & j & Hi & Hpos & Hgo).
  { destruct (locked s) eqn:Hlk.
    - unfold lock_inv in Hinv. rewrite Hlk in Hinv.
      destruct (sum_list_with_pos job_in_connect js) as (i & j & Hi & Hj); [lia|].
      exists i, j. split; [done|].
      destruct j as [r st| |]; cbn in Hj; try lia.
      destruct st; cbn in Hj; try lia. cbn. split; [lia|by right].
    - destruct (sum_list_with_pos job_rank js) as (i & j & Hi & Hj); [lia|].
      exists i, j. by eauto. }
  pose proof (lock_inv_step env s js i j Hinv Hi) as Hinv'.
  pose proof (job_step_rank env j s Hgo) as Hrank.
  destruct (job_step env j s) as [s' j'] eqn:Hstep. cbn [snd] in Hrank.
  pose proof (sum_list_with_insert job_rank js i j j' Hi) as Hcnt.
  destruct (IH s' (<[i := j']> js) Hinv' ltac:(lia)) as (sch & Hlen & Hend).
  exists (i :: sch). split; [cbn; lia|].
  cbn [foldl]. unfold job_turn at 2. cbn [fst snd]. by rewrite Hi, Hstep.
Qed.

Lemma job_rank_le js : sum_list_with job_rank js <= 4 * length js.
Proof.
  induction js as [|j js IH]; cbn [sum_list_with length]; [lia|].
  assert (job_rank j <= 4); [|lia].
  destruct j as [r st|st|st]; destruct st; cbn; lia.
Qed.

(** X13: the initialization lock does serialise the acquisitions, and
    only [_init_writer] touches it.  Any number of concurrent [emit],
    [flush] and [close] tasks on a handler whose lock is free, any
    collaborators, any schedule: at every moment the lock is held
    exactly when one task is suspended inside [connect_write_pipe], so
    never two tasks are inside it at once; and when all tasks are
    finished the lock is free, also when an acquisition failed. *)
Theorem X13_lock_serialises_acquisitions env (qs : list Request)
    (wr : option Writer) tr0 sch :
  let l := exec (perform env) yields sch (serving (MkState wr false tr0) qs) in
  sum_list_with in_connect (pool l) = (if locked (shared l) then 1 else 0)
  /\ sum_list_with in_connect (pool l) <= 1
  /\ (all_finished l = true -> locked (shared l) = false).
Proof.
  cbn zeta. rewrite serving_jobs, job_exec_jobs.
  pose proof (lock_inv_run env sch wr tr0 qs) as Hinv.
  destruct (foldl (job_turn env) _ sch) as [s' js'].
  cbn [shared pool]. unfold lock_inv in Hinv.
  rewrite in_connect_jobs, Hinv.
  split; [done|]. split; [destruct (locked s'); lia|].
  unfold all_finished. cbn [pool]. rewrite forallb_forall. intros Hfin.
  destruct (locked s'); [|done].
  destruct (sum_list_with_pos job_in_connect js') as (i & j & Hi & Hj); [lia|].
  assert (Hdone : finished (job_of j) = true).
  { apply Hfin, list_elem_of_In. unfold jobs.
    apply list_elem_of_fmap. exists j. split; [done|].
    by eapply list_elem_of_lookup_2. }
  apply finished_job_of in Hdone.
  destruct j as [r st| |]; cbn in Hj; try lia.
  destruct st; cbn in Hj, Hdone; lia.
Qed.

Lemma X13_lock_serialises_acquisitions_witness :
  let l := exec (perform ok_env) yields [0; 1; 2; 0; 1; 2; 0; 1; 1]
             (serving (MkState None false [])
                [DoEmit xablau; DoEmit xablau; DoClose]) in
  locked (shared l) = false.
Proof.
  destruct (X13_lock_serialises_acquisitions ok_env
              [DoEmit xablau; DoEmit xablau; DoClose] None []
              [0; 1; 2; 0; 1; 2; 0; 1; 1]) as (_ & _ & Hfree).
  apply Hfree. reflexivity.
Defined.

(** X14: concurrent calls never block each other for good.  Any number
    of concurrent [emit], [flush] and [close] tasks on a handler whose
    lock is free, any collaborators: after every schedule the loop can
    still bring all the tasks to their end, with at most four more
    turns per task (for an [emit]: one to find the lock, one for
    [connect_write_pipe], one for the drain, one for the error
    hook). *)
Theorem X14_calls_never_deadlock env (qs : list Request)
    (wr : option Writer) tr0 sch :
  exists sch',
    length sch' <= 4 * length qs
    /\ all_finished
         (exec (perform env) yields (sch ++ sch')
            (serving (MkState wr false tr0) qs)) = true.
Proof.
  pose proof (lock_inv_run env sch wr tr0 qs) as Hinv.
  pose proof (job_run_length env sch (MkState wr false tr0) (start <$> qs))
    as Hlen.
  destruct (foldl (job_turn env) _ sch) as [s1 js1] eqn:Hrun.
  cbn [snd] in Hlen. rewrite length_fmap in Hlen.
  destruct (jobs_progress env (4 * length qs) s1 js1 Hinv) as (sch' & Hn & Hend).
  { rewrite <- Hlen. apply job_rank_le. }
  exists sch'. split; [done|].
  rewrite exec_app, serving_jobs, job_exec_jobs, Hrun, job_exec_jobs.
  destruct (foldl (job_turn env) (s1, js1) sch') as [s' js'].
  unfold all_finished. cbn [pool]. by apply finished_job_rank.
Qed.

Lemma acquired_snoc tr ev :
  acquired (tr ++ [ev]) = acquired tr + if is_acquired ev then 1 else 0.
Proof. rewrite acquired_app. unfold acquired. cbn. by destruct (is_acquired ev). Qed.

Local Ltac bal :=
  unfold note; cbn [trace writer locked];
  rewrite ?released_snoc, ?acquired_snoc;
  cbn [is_released is_acquired held]; lia.

(** What a turn of an [emit] task does to the writers: it closes none,
    and when it installs a writer the loop has handed out one more. *)
Lemma stage_step_balance env r (st : Stage) s :
  let '(s', st') := stage_step env r st s in
  released (trace s') = released (trace s)
  /\ held (writer s') + acquired (trace s) <= held (writer s) + acquired (trace s').
Proof.
  assert (Hws : forall w s0,
    let '(s', st') := write_step env r w s0 in
    released (trace s') = released (trace s0)
    /\ acquired (trace s') = acquired (trace s0)
    /\ writer s' = writer s0).
  { intros w s0. unfold write_step. destruct (format env r) as [e|text]; [done|].
    destruct (writer_write _ _ _ _) as [e|[]]; unfold note; cbn [trace writer];
      by rewrite released_snoc, acquired_snoc, !Nat.add_0_r. }
  destruct st as [| | |w|e|out]; unfold stage_step.
  - destruct (writer s) as [w|] eqn:Hw.
    + specialize (Hws w s). destruct (write_step env r w s) as [s' st'].
      destruct Hws as (-> & -> & ->). rewrite Hw. lia.
    + destruct (locked s); cbn [trace writer]; rewrite ?Hw; lia.
  - destruct (locked s); cbn [trace writer]; lia.
  - cbn zeta. destruct (connect_write_pipe env (trace s)) as [e|w].
    + bal.
    + specialize (Hws w (MkState (Some w) false (trace s ++ [EConnect (inr w)]))).
      destruct (write_step _ _ _ _) as [s' st']. cbn [trace writer] in Hws.
      destruct Hws as (-> & -> & ->).
      rewrite released_snoc, acquired_snoc. cbn [is_released is_acquired held].
      destruct (writer s); cbn [held]; lia.
  - cbn zeta. destruct (writer_drain env (trace s) w) as [e|[]]; bal.
  - bal.
  - lia.
Qed.

(** A turn of any task closes no more writers than [self.writer] gives
    up or the loop hands out. *)
Lemma job_step_balance env j s :
  let '(s', j') := job_step env j s in
  released (trace s') + held (writer s') + acquired (trace s)
  <= released (trace s) + held (writer s) + acquired (trace s').
Proof.
  destruct j as [r st|st|st]; cbn [job_step].
  - pose proof (stage_step_balance env r st s) as H.
    destruct (stage_step env r st s) as [s' st']. lia.
  - destruct st as [|w|out]; unfold flush_step.
    + destruct (writer s) eqn:Hw; cbn [trace writer]; rewrite Hw; lia.
    + bal.
    + lia.
  - destruct st as [|w|out]; unfold close_step.
    + destruct (writer s) eqn:Hw; cbn [trace writer]; rewrite Hw; lia.
    + cbn zeta. destruct (writer_drain env (trace s) w) as [e|[]]; [bal|].
      unfold note at 1 2 3. cbn [writer].
      destruct (writer s) as [w'|] eqn:Hw.
      * destruct (writer_close env _ w') as [e|[]]; unfold note;
          cbn [trace writer locked]; rewrite ?Hw;
          rewrite !released_snoc, !acquired_snoc;
          cbn [is_released is_acquired held]; lia.
      * unfold note. cbn [trace writer locked]. rewrite Hw.
        rewrite released_snoc, acquired_snoc.
        cbn [is_released is_acquired held]. lia.
    + lia.
Qed.

(** X15: in any mix of concurrent calls the handler closes no more
    writers than it was given.  Any number of concurrent [emit],
    [flush] and [close] tasks on a handler in any state, any
    collaborators, any schedule: at every moment the writers closed
    successfully since the tasks were created, plus the one
    [self.writer] refers to, are at most the writers the loop handed
    out since then plus the one [self.writer] referred to at the
    start. *)
Theorem X15_no_more_closed_than_acquired env (qs : list Request) s0 sch :
  let l := exec (perform env) yields sch (serving s0 qs) in
  released (trace (shared l)) + held (writer (shared l)) + acquired (trace s0)
  <= released (trace s0) + held (writer s0) + acquired (trace (shared l)).
Proof.
  cbn zeta. rewrite serving_jobs, job_exec_jobs.
  pose proof (job_run_inv env
    (fun s _ =>
       released (trace s) + held (writer s) + acquired (trace s0)
       <= released (trace s0) + held (writer s0) + acquired (trace s))) as Hrun.
  specialize (Hrun ltac:(
    intros s js i j Hinv _;
    pose proof (job_step_balance env j s) as Hstep;
    destruct (job_step env j s) as [s' j']; cbv beta in Hinv |- *; lia)
    sch s0 (start <$> qs) ltac:(cbv beta; lia)).
  by destruct (foldl (job_turn env) _ sch) as [s' js'].
Qed.

End Jobs.

(** * [self.writer] as a function of the history *)

Section WriterOfHistory.
Import AsyncStreamHandler.

Implicit Types (env : Env) (s : State) (tr evs : list Event)
  (w : Writer) (r : LogRecord) (wr : option Writer) (j : Job).

Lemma current_app wr evs evs' :
  current wr (evs ++ evs') = current (current wr evs) evs'.
Proof. unfold current. by rewrite foldl_app. Qed.

Lemma emit_initialized_current env r w tr :
  exists s' out evs,
    run (perform env) (emit r) (MkState (Some w) false tr) = Some (s', out)
    /\ locked s' = false
    /\ trace s' = tr ++ evs
    /\ writer s' = current (Some w) evs.
Proof.
  rewrite emit_initialized. eexists _, _, _.
  split; [done|]. split; [done|]. split; [done|]. cbn [writer].
  destruct (format env r) as [e|text]; [done|].
  destruct (writer_write _ _ _ _) as [e|[]]; [done|].
  by destruct (writer_drain _ _ _) as [e|[]].
Qed.

(** One call of one caller. *)
Lemma serve_current env q wr tr :
  exists s' out evs,
    run (perform env) (serve q) (MkState wr false tr) = Some (s', out)
    /\ locked s' = false
    /\ trace s' = tr ++ evs
    /\ writer s' = current wr evs.
Proof.
  destruct q as [r| |]; cbn [serve].
  - destruct wr as [w|]; [apply emit_initialized_current|].
    rewrite emit_uninitialized.
    destruct (connect_write_pipe env tr) as [e|w].
    + by eexists _, _, [EConnect (inl e)].
    + destruct (emit_initialized_current env r w (tr ++ [EConnect (inr w)]))
        as (s' & out & evs & Hrun & Hlk & Htr & Hwr).
      exists s', out, (EConnect (inr w) :: evs).
      split; [done|]. split; [done|]. split; [by rewrite Htr, <- app_assoc|].
      done.
  - rewrite flush_run. destruct wr as [w|]; cbn [writer].
    + eexists _, _, [_]. split; [done|]. by destruct (writer_drain env tr w).
    + eexists _, _, []. split; [done|]. cbn. by rewrite app_nil_r.
  - destruct wr as [w|].
    + rewrite close_run. destruct (writer_drain env tr w) as [e|[]].
      { by eexists _, _, [_]. }
      cbn zeta. destruct (writer_close env _ w) as [e|[]].
      * eexists _, _, [_; _]. split; [done|]. cbn. by rewrite <- app_assoc.
      * eexists _, _, [_; _]. split; [done|]. cbn. by rewrite <- app_assoc.
    + eexists _, _, []. split; [done|]. cbn. by rewrite app_nil_r.
Qed.

Lemma session_current env qs : forall wr tr,
  exists s' evs,
    run (perform env) (session qs) (MkState wr false tr) = Some (s', Returned tt)
    /\ trace s' = tr ++ evs
    /\ writer s' = current wr evs.
Proof.
  induction qs as [|q qs IH]; intros wr tr.
  - exists (MkState wr false tr), []. cbn. by rewrite app_nil_r.
  - destruct (serve_current env q wr tr)
      as (s1 & out1 & evs1 & Hrun1 & Hlk1 & Htr1 & Hwr1).
    destruct s1 as [wr1 lk1 tr1]. cbn in Hlk1, Htr1, Hwr1. subst lk1 tr1 wr1.
    destruct (IH (current wr evs1) (tr ++ evs1)) as (s' & evs & Hrun & Htr & Hwr).
    exists s', (evs1 ++ evs). split; [|split].
    + cbn [session]. unfold mbind, Co_bind, attempt.
      rewrite run_bind, run_try_except, Hrun1.
      destruct out1 as [[]|e]; exact Hrun.
    + by rewrite Htr, app_assoc.
    + by rewrite Hwr, current_app.
Qed.

(** A turn of an [emit] task. *)
Lemma stage_step_current env r st s :
  let '(s', st') := stage_step env r st s in
  exists evs, trace s' = trace s ++ evs /\ writer s' = current (writer s) evs.
Proof.
  assert (Hws : forall w s0,
    let '(s', st') := write_step env r w s0 in
    exists evs, trace s' = trace s0 ++ evs
                /\ writer s' = writer s0
                /\ forall wr, current wr evs = wr).
  { intros w s0. unfold write_step. destruct (format env r) as [e|text].
    - exists []. by rewrite app_nil_r.
    - destruct (writer_write _ _ _ _) as [e|[]]; by eexists [_]. }
  destruct st as [| | |w|e|out]; unfold stage_step.
  - destruct (writer s) as [w|] eqn:Hw.
    + specialize (Hws w s). destruct (write_step env r w s) as [s' st'].
      destruct Hws as (evs & Htr & Hwr & Hcur). exists evs.
      by rewrite Hwr, Hw, Hcur.
    + destruct (locked s); exists []; cbn; by rewrite app_nil_r.
  - destruct (locked s); exists []; cbn; by rewrite app_nil_r.
  - cbn zeta. destruct (connect_write_pipe env (trace s)) as [e|w].
    + by exists [EConnect (inl e)].
    + specialize (Hws w (MkState (Some w) false (trace s ++ [EConnect (inr w)]))).
      destruct (write_step _ _ _ _) as [s' st']. cbn [trace writer] in Hws.
      destruct Hws as (evs & Htr & Hwr & Hcur).
      exists (EConnect (inr w) :: evs). split.
      * by rewrite Htr, <- app_assoc.
      * rewrite Hwr. change (EConnect (inr w) :: evs) with ([EConnect (inr w)] ++ evs).
        by rewrite current_app, Hcur.
  - cbn zeta. destruct (writer_drain env (trace s) w) as [e|[]]; by eexists [_].
  - by eexists [_].
  - exists []. by rewrite app_nil_r.
Qed.

(** A turn of a [close] task. *)
Lemma close_step_current env st s :
  let '(s', st') := close_step env st s in
  exists evs, trace s' = trace s ++ evs /\ writer s' = current (writer s) evs.
Proof.
  destruct st as [|w|out]; unfold close_step.
  - destruct (writer s) as [w|] eqn:Hw; exists []; rewrite app_nil_r;
      (split; [done|by rewrite Hw]).
  - cbn zeta. destruct (writer_drain env (trace s) w) as [e|[]].
    { by eexists [_]. }
    unfold note at 1 2 3. cbn [writer].
    destruct (writer s) as [w'|] eqn:Hw.
    + unfold note. cbn [trace writer locked].
      destruct (writer_close env _ w') as [e|[]].
      * eexists [_; _]. rewrite Hw. cbn. by rewrite <- app_assoc.
      * eexists [_; _]. cbn. by rewrite <- app_assoc.
    + unfold note. cbn [trace writer]. rewrite Hw. by eexists [_].
  - exists []. by rewrite app_nil_r.
Qed.

(** A turn of any task: [self.writer] follows the history. *)
Lemma job_step_current env j s :
  let '(s', j') := job_step env j s in
  exists evs, trace s' = trace s ++ evs /\ writer s' = current (writer s) evs.
Proof.
  destruct j as [r st|st|st]; cbn [job_step].
  - pose proof (stage_step_current env r st s) as H.
    by destruct (stage_step env r st s).
  - destruct st as [|w|out]; unfold flush_step.
    + destruct (writer s) as [w|] eqn:Hw; exists []; rewrite app_nil_r;
        (split; [done|by rewrite Hw]).
    + by eexists [_].
    + exists []. by rewrite app_nil_r.
  - pose proof (close_step_current env st s) as H.
    by destruct (close_step env st s).
Qed.

(** X16: [self.writer] is a function of the history of the handler:
    it refers to the writer of the latest acquisition that succeeded,
    unless a writer was closed since, and then to none; so it never
    refers to a writer that the handler has closed, and a writer that
    an acquisition replaces is out of reach of the handler.  This holds
    after any sequence of [emit], [flush] and [close] calls of one
    caller, and at every moment of any schedule of any number of
    concurrent [emit], [flush] and [close] tasks, whatever the
    collaborators answer. *)
Theorem X16_writer_follows_history env (qs : list Request) :
  (forall wr tr,
     exists s' evs,
       run (perform env) (session qs) (MkState wr false tr)
         = Some (s', Returned tt)
       /\ trace s' = tr ++ evs
       /\ writer s' = current wr evs)
  /\ (forall s0 sch,
        let l := exec (perform env) yields sch (serving s0 qs) in
        exists evs,
          trace (shared l) = trace s0 ++ evs
          /\ writer (shared l) = current (writer s0) evs).
Proof.
  split; [apply session_current|].
  intros s0 sch. cbn zeta. rewrite serving_jobs, job_exec_jobs.
  pose proof (job_run_inv env
    (fun s _ => exists evs, trace s = trace s0 ++ evs
                            /\ writer s = current (writer s0) evs)) as Hrun.
  specialize (Hrun ltac:(
    intros s js i j (evs & Htr & Hwr) _;
    pose proof (job_step_current env j s) as Hstep;
    destruct (job_step env j s) as [s' j'];
    destruct Hstep as (evs1 & Htr1 & Hwr1);
    exists (evs ++ evs1);
    by rewrite Htr1, Htr, Hwr1, Hwr, current_app, app_assoc)
    sch s0 (start <$> qs)).
  destruct (foldl (job_turn env) _ sch) as [s' js']. cbn [shared].
  apply Hrun. exists []. by rewrite app_nil_r.
Qed.

End WriterOfHistory.
